(** * SubstitutionMap: a shallow embedding of lib/AST/SubstitutionMap.cpp

    A substitution map packages the replacement types and the protocol
    conformances that specialise a generic signature.  The development
    follows the C++ file function by function.  Collaborators that live in
    other files (the type substitution primitive, the requirement machine
    queries of a generic signature, the global conformance lookup, the
    request evaluator) are the fields of the class [Collaborators]:
    nothing is assumed about them beyond their types.  The data they work
    on (types, conformances, signatures) is declared in other files too and
    is modelled here from the specification of the system.

    Assertions, null dereferences and out-of-range [ArrayRef] accesses of
    the debug build are modelled by the [Fault] result. *)

From Stdlib Require Import List Bool Arith NArith ZArith String Lia.
Import ListNotations.

Set Implicit Arguments.
Set Warnings "-register-all".

#[local] Abbreviation length := List.length.

(** ** Faults *)

Inductive Result (A : Type) : Type :=
| Ok (a : A)
| Fault (msg : string).

Arguments Ok {A} a.
Arguments Fault {A} msg.

Definition bind {A B : Type} (r : Result A) (k : A -> Result B) : Result B :=
  match r with
  | Ok a => k a
  | Fault msg => Fault msg
  end.

Notation "x <- c ;; k" := (bind c (fun x => k))
  (at level 61, c at next level, right associativity).

Definition assert (b : bool) (msg : string) : Result unit :=
  if b then Ok tt else Fault msg.

(** [ArrayRef::operator[]]: the index must be in range. *)
Definition at_index {A : Type} (xs : list A) (i : nat) : Result A :=
  match nth_error xs i with
  | Some x => Ok x
  | None => Fault "ArrayRef index out of range"
  end.

(** [ArrayRef::slice(1)]: the array must hold an element to drop. *)
Definition slice1 {A : Type} (xs : list A) : Result (list A) :=
  match xs with
  | [] => Fault "ArrayRef::slice: invalid specifier"
  | _ :: rest => Ok rest
  end.

Fixpoint mapM {A B : Type} (f : A -> Result B) (xs : list A)
  : Result (list B) :=
  match xs with
  | [] => Ok []
  | x :: rest =>
      y <- f x ;;
      ys <- mapM f rest ;;
      Ok (y :: ys)
  end.

(** ** Unsigned arithmetic

    Depths and indices are C++ [unsigned] values; sums and differences wrap
    modulo [2^32]. *)

Definition wrap32 (z : Z) : N := Z.to_N (z mod 2 ^ 32).

(** [a + b - c] evaluated left to right on [unsigned] operands. *)
Definition add_sub_u32 (a b c : N) : N :=
  wrap32 (Z.of_N (wrap32 (Z.of_N a + Z.of_N b)) - Z.of_N c).

(** ** Protocols *)

(** Modelled from the spec: protocol declarations (Decl.h).  A protocol is
    known by its name and is one of the invertible protocols or none. *)
Inductive InvertibleProtocolKind := Copyable | Escapable.

Record ProtocolDecl := {
  protoName : string;
  getInvertibleProtocolKind : option InvertibleProtocolKind
}.

Definition InvertibleProtocolKind_eqb (a b : InvertibleProtocolKind) : bool :=
  match a, b with
  | Copyable, Copyable | Escapable, Escapable => true
  | _, _ => false
  end.

(** Protocol declarations are compared by identity ([==] on the pointer). *)
Definition ProtocolDecl_eqb (p q : ProtocolDecl) : bool :=
  String.eqb (protoName p) (protoName q) &&
  match getInvertibleProtocolKind p, getInvertibleProtocolKind q with
  | None, None => true
  | Some a, Some b => InvertibleProtocolKind_eqb a b
  | _, _ => false
  end.

(** ** Types *)

(** Modelled from the spec: a generic parameter (Types.h), identified by
    [(depth, index)] and carrying the parameter-pack bit. *)
Record GenericTypeParamType := {
  isParameterPack : bool;
  getDepth : N;
  getIndex : N
}.

(** Modelled from the spec: the kinds of archetype (Types.h). *)
Inductive ArchetypeKind :=
| PrimaryArchetypeType
| PackArchetypeType
| OpaqueTypeArchetypeType
| ExistentialArchetypeType
| ElementArchetypeType.

(** Modelled from the spec: the type representation (Types.h is not part of
    this file).  The constructors are the kinds of type the substitution map
    code distinguishes: generic parameters and their member types (together
    the "type parameters"), archetypes with their kind, root flag, interface
    type and superclass bound, nominal types, existential types, packs and
    pack expansions, type variables, unresolved, unbound generic and error
    types, and one sugared form whose canonical type is its underlying type. *)
Inductive Ty : Type :=
| GenericTypeParam (gp : GenericTypeParamType)
| DependentMemberType (base : Ty) (assocName : string)
| ArchetypeType (kind : ArchetypeKind) (root : bool)
                (interfaceType : Ty) (superclass : option Ty)
| NominalType (name : string) (args : list Ty)
| ExistentialType (protocols : list string)
| PackType (elements : list Ty)
| PackExpansionType (pattern : Ty) (count : Ty)
| TypeVariableType (id : N)
| UnresolvedType
| UnboundGenericType (name : string)
| ErrorType
| TypeAliasType (name : string) (underlying : Ty).

(** [Type]: a possibly null handle on a type. *)
Definition Type_ := option Ty.

(** Dereferencing a [Type] handle with [->]. *)
Definition deref (t : Type_) : Result Ty :=
  match t with
  | Some ty => Ok ty
  | None => Fault "null Type dereferenced"
  end.

Definition GenericTypeParamType_eqb (a b : GenericTypeParamType) : bool :=
  Bool.eqb (isParameterPack a) (isParameterPack b) &&
  N.eqb (getDepth a) (getDepth b) &&
  N.eqb (getIndex a) (getIndex b).

Definition ArchetypeKind_eqb (a b : ArchetypeKind) : bool :=
  match a, b with
  | PrimaryArchetypeType, PrimaryArchetypeType
  | PackArchetypeType, PackArchetypeType
  | OpaqueTypeArchetypeType, OpaqueTypeArchetypeType
  | ExistentialArchetypeType, ExistentialArchetypeType
  | ElementArchetypeType, ElementArchetypeType => true
  | _, _ => false
  end.

Fixpoint list_eqb {A : Type} (eqb : A -> A -> bool) (xs ys : list A) : bool :=
  match xs, ys with
  | [], [] => true
  | x :: xs', y :: ys' => eqb x y && list_eqb eqb xs' ys'
  | _, _ => false
  end.

(** Modelled from the spec: pointer equality of canonical types, which are
    uniqued, as structural equality. *)
Fixpoint Ty_eqb (a b : Ty) {struct a} : bool :=
  match a, b with
  | GenericTypeParam g, GenericTypeParam h => GenericTypeParamType_eqb g h
  | DependentMemberType x n, DependentMemberType y m =>
      Ty_eqb x y && String.eqb n m
  | ArchetypeType k r i s, ArchetypeType k' r' i' s' =>
      ArchetypeKind_eqb k k' && Bool.eqb r r' && Ty_eqb i i' &&
      match s, s' with
      | None, None => true
      | Some x, Some y => Ty_eqb x y
      | _, _ => false
      end
  | NominalType n xs, NominalType m ys =>
      String.eqb n m &&
      (fix go (l : list Ty) (r : list Ty) {struct l} : bool :=
         match l, r with
         | [], [] => true
         | x :: l', y :: r' => Ty_eqb x y && go l' r'
         | _, _ => false
         end) xs ys
  | ExistentialType ps, ExistentialType qs => list_eqb String.eqb ps qs
  | PackType xs, PackType ys =>
      (fix go (l : list Ty) (r : list Ty) {struct l} : bool :=
         match l, r with
         | [], [] => true
         | x :: l', y :: r' => Ty_eqb x y && go l' r'
         | _, _ => false
         end) xs ys
  | PackExpansionType p c, PackExpansionType p' c' =>
      Ty_eqb p p' && Ty_eqb c c'
  | TypeVariableType i, TypeVariableType j => N.eqb i j
  | UnresolvedType, UnresolvedType => true
  | UnboundGenericType n, UnboundGenericType m => String.eqb n m
  | ErrorType, ErrorType => true
  | TypeAliasType n u, TypeAliasType m v => String.eqb n m && Ty_eqb u v
  | _, _ => false
  end.

(** Modelled from the spec: [getCanonicalType] strips sugar everywhere in
    the type. *)
Fixpoint getCanonicalType (t : Ty) : Ty :=
  match t with
  | GenericTypeParam gp => GenericTypeParam gp
  | DependentMemberType b n => DependentMemberType (getCanonicalType b) n
  | ArchetypeType k r i s =>
      ArchetypeType k r (getCanonicalType i) (option_map getCanonicalType s)
  | NominalType n xs => NominalType n (map getCanonicalType xs)
  | ExistentialType ps => ExistentialType ps
  | PackType xs => PackType (map getCanonicalType xs)
  | PackExpansionType p c =>
      PackExpansionType (getCanonicalType p) (getCanonicalType c)
  | TypeVariableType i => TypeVariableType i
  | UnresolvedType => UnresolvedType
  | UnboundGenericType n => UnboundGenericType n
  | ErrorType => ErrorType
  | TypeAliasType _ u => getCanonicalType u
  end.

(** Modelled from the spec: [TypeBase::isEqual] is equality of the
    canonical types. *)
Definition isEqual (a b : Ty) : bool :=
  Ty_eqb (getCanonicalType a) (getCanonicalType b).

(** Modelled from the spec: [getDesugaredType] strips sugar at the head
    only; [is<T>] and [getAs<T>] look at the desugared type. *)
Fixpoint getDesugaredType (t : Ty) : Ty :=
  match t with
  | TypeAliasType _ u => getDesugaredType u
  | _ => t
  end.

(** Modelled from the spec: [getAs<GenericTypeParamType>]. *)
Definition getAsGenericTypeParamType (t : Ty) : option GenericTypeParamType :=
  match getDesugaredType t with
  | GenericTypeParam gp => Some gp
  | _ => None
  end.

(** Modelled from the spec: [isTypeParameter] holds of a generic parameter
    and of a member type chain rooted in one. *)
Fixpoint isTypeParameter (t : Ty) : bool :=
  match t with
  | GenericTypeParam _ => true
  | DependentMemberType b _ => isTypeParameter b
  | TypeAliasType _ u => isTypeParameter u
  | _ => false
  end.

(** Modelled from the spec: [is<ArchetypeType>], the superclass bound of an
    archetype and the other tests on the kind of a type. *)
Definition isArchetypeType (t : Ty) : bool :=
  match getDesugaredType t with
  | ArchetypeType _ _ _ _ => true
  | _ => false
  end.

Definition archetypeHasSuperclass (t : Ty) : bool :=
  match getDesugaredType t with
  | ArchetypeType _ _ _ (Some _) => true
  | _ => false
  end.

Definition isPackType (t : Ty) : bool :=
  match getDesugaredType t with
  | PackType _ => true
  | _ => false
  end.

Definition isUnresolvedType (t : Ty) : bool :=
  match getDesugaredType t with
  | UnresolvedType => true
  | _ => false
  end.

Definition isUnboundGenericType (t : Ty) : bool :=
  match getDesugaredType t with
  | UnboundGenericType _ => true
  | _ => false
  end.

Definition isExistentialType (t : Ty) : bool :=
  match getDesugaredType t with
  | ExistentialType _ => true
  | _ => false
  end.

(** Modelled from the spec: [isTypeVariableOrMember] holds of a type
    variable and of a member type chain rooted in one. *)
Fixpoint isTypeVariableOrMember (t : Ty) : bool :=
  match t with
  | TypeVariableType _ => true
  | DependentMemberType b _ => isTypeVariableOrMember b
  | TypeAliasType _ u => isTypeVariableOrMember u
  | _ => false
  end.

(** Modelled from the spec: [hasError] holds when an error type occurs
    somewhere in the type. *)
Fixpoint hasError (t : Ty) : bool :=
  match t with
  | ErrorType => true
  | DependentMemberType b _ => hasError b
  | NominalType _ xs => existsb hasError xs
  | PackType xs => existsb hasError xs
  | PackExpansionType p c => hasError p || hasError c
  | TypeAliasType _ u => hasError u
  | _ => false
  end.

(** Modelled from the spec: [hasTypeParameter] holds when a generic
    parameter occurs somewhere in the type. *)
Fixpoint hasTypeParameter (t : Ty) : bool :=
  match t with
  | GenericTypeParam _ => true
  | DependentMemberType b _ => hasTypeParameter b
  | NominalType _ xs => existsb hasTypeParameter xs
  | PackType xs => existsb hasTypeParameter xs
  | PackExpansionType p c => hasTypeParameter p || hasTypeParameter c
  | TypeAliasType _ u => hasTypeParameter u
  | _ => false
  end.

(** Modelled from the spec: [PackType::getSingletonPackExpansion] is the
    pack [{repeat each T}]. *)
Definition getSingletonPackExpansion (param : Ty) : Ty :=
  PackType [PackExpansionType param param].

(** ** Conformances *)

(** Modelled from the spec: the kinds of concrete conformance
    (ProtocolConformance.h). *)
Inductive ProtocolConformanceKind :=
| Normal | Self | Specialized | Inherited | Builtin.

Definition DeclContext := string.

(** Modelled from the spec: a concrete conformance object, with its kind,
    the conforming type, the protocol and the declaration context it was
    written in. *)
Record ProtocolConformance := {
  getKind : ProtocolConformanceKind;
  getType : Ty;
  getProtocol : ProtocolDecl;
  getDeclContext : DeclContext
}.

Definition isaSelfProtocolConformance (c : ProtocolConformance) : bool :=
  match getKind c with
  | Self => true
  | _ => false
  end.

(** Modelled from the spec: [ProtocolConformanceRef] is invalid, abstract,
    concrete or pack; a pack conformance holds its pattern conformances. *)
Inductive ProtocolConformanceRef : Type :=
| Invalid
| Abstract (proto : ProtocolDecl)
| Concrete (conformance : ProtocolConformance)
| Pack (pack : PackConformance)
with PackConformance : Type :=
| MkPackConformance (conformingType : Ty) (packProtocol : ProtocolDecl)
                    (patterns : list ProtocolConformanceRef).

Definition forInvalid : ProtocolConformanceRef := Invalid.

Definition getPatternConformances (p : PackConformance)
  : list ProtocolConformanceRef :=
  match p with
  | MkPackConformance _ _ patterns => patterns
  end.

Definition isInvalid (c : ProtocolConformanceRef) : bool :=
  match c with Invalid => true | _ => false end.

Definition isAbstract (c : ProtocolConformanceRef) : bool :=
  match c with Abstract _ => true | _ => false end.

Definition isConcrete (c : ProtocolConformanceRef) : bool :=
  match c with Concrete _ => true | _ => false end.

Definition isPack (c : ProtocolConformanceRef) : bool :=
  match c with Pack _ => true | _ => false end.

(** ** Generic signatures *)

(** Modelled from the spec: a requirement (Requirement.h) has a kind, a
    first type and, for a conformance requirement, a protocol. *)
Inductive Requirement :=
| ConformanceRequirement (firstType : Ty) (proto : ProtocolDecl)
| SuperclassRequirement (firstType : Ty) (superclass : Ty)
| SameTypeRequirement (firstType : Ty) (secondType : Ty)
| LayoutRequirement (firstType : Ty) (layout : string)
| SameShapeRequirement (firstType : Ty) (secondType : Ty).

Definition getFirstType (r : Requirement) : Ty :=
  match r with
  | ConformanceRequirement t _ | SuperclassRequirement t _
  | SameTypeRequirement t _ | LayoutRequirement t _
  | SameShapeRequirement t _ => t
  end.

(** Modelled from the spec: a generic signature (GenericSignature.h) is
    the ordered list of its generic parameters and the ordered list of its
    requirements. *)
Record GenericSignatureImpl := {
  getGenericParams : list GenericTypeParamType;
  getRequirements : list Requirement
}.

(** [GenericSignature]: a possibly null handle on a signature. *)
Definition GenericSignature := option GenericSignatureImpl.

(** Modelled from the spec: the conformance requirements of a signature, in
    declaration order, and their number. *)
Fixpoint conformanceRequirements (reqs : list Requirement)
  : list (Ty * ProtocolDecl) :=
  match reqs with
  | [] => []
  | ConformanceRequirement t p :: rest => (t, p) :: conformanceRequirements rest
  | _ :: rest => conformanceRequirements rest
  end.

Definition getNumConformanceRequirements (sig : GenericSignatureImpl) : nat :=
  length (conformanceRequirements (getRequirements sig)).

(** Modelled from the spec: [GenericParamKey] equality compares depth and
    index. *)
Definition GenericParamKey_eqb (a b : GenericTypeParamType) : bool :=
  N.eqb (getDepth a) (getDepth b) && N.eqb (getIndex a) (getIndex b).

(** Modelled from the spec: [GenericParamKey::findIndexIn] (declared in
    GenericParamKey.h).  The position of the parameter with the given
    [(depth, index)] key in the parameter list; the length of the list when
    no parameter has that key. *)
Fixpoint findIndexIn (key : GenericTypeParamType)
         (genericParams : list GenericTypeParamType) : nat :=
  match genericParams with
  | [] => 0
  | p :: rest =>
      if GenericParamKey_eqb key p then 0 else S (findIndexIn key rest)
  end.

(** ** Storage and maps *)

Record Storage := {
  genericSig : GenericSignatureImpl;
  replacementTypes : list Type_;
  conformances : list ProtocolConformanceRef
}.

(** A map is a possibly null pointer to interned storage. *)
Definition SubstitutionMap := option Storage.

(** Modelled from the spec: [getNumReplacementTypes]
    (SubstitutionMapStorage.h) is the number of generic parameters. *)
Definition getNumReplacementTypes (sig : GenericSignatureImpl) : nat :=
  length (getGenericParams sig).

(** The layout invariant of a storage block: one replacement type per
    generic parameter, one conformance per conformance requirement. *)
Definition storage_aligned (s : Storage) : Prop :=
  length (replacementTypes s) = getNumReplacementTypes (genericSig s) /\
  length (conformances s) = getNumConformanceRequirements (genericSig s).

Definition map_aligned (M : SubstitutionMap) : Prop :=
  match M with
  | None => True
  | Some s => storage_aligned s
  end.

Definition getConformances (M : SubstitutionMap) : list ProtocolConformanceRef :=
  match M with
  | Some storage => conformances storage
  | None => []
  end.

Definition getGenericSignature (M : SubstitutionMap) : GenericSignature :=
  match M with
  | Some storage => Some (genericSig storage)
  | None => None
  end.

Definition empty (M : SubstitutionMap) : bool :=
  match getGenericSignature M with
  | None => true
  | Some _ => false
  end.

Definition getReplacementTypes (M : SubstitutionMap) : list Type_ :=
  match M with
  | Some storage => if empty M then [] else replacementTypes storage
  | None => []
  end.

(** ** In-flight substitutions *)

(** Modelled from the spec: the options of a substitution
    (InFlightSubstitution.h). *)
Record SubstOptions := {
  PreservePackExpansionLevel : bool;
  SubstitutePrimaryArchetypes : bool;
  SubstituteOpaqueArchetypes : bool
}.

(** [std::nullopt] as substitution options. *)
Definition noOptions : SubstOptions :=
  {| PreservePackExpansionLevel := false;
     SubstitutePrimaryArchetypes := false;
     SubstituteOpaqueArchetypes := false |}.

Definition TypeSubstitutionFn := Ty -> Result Type_.
Definition LookupConformanceFn :=
  Ty -> Type_ -> ProtocolDecl -> Result ProtocolConformanceRef.

(** Modelled from the spec: the capability threaded through a
    substitution is a pair of callbacks with options, or a substitution map
    standing for its own two lookups. *)
Inductive InFlightSubstitution :=
| MkInFlightSubstitution (subs : TypeSubstitutionFn)
                         (lookup : LookupConformanceFn)
                         (options : SubstOptions)
| InFlightSubstitutionViaSubMap (subMap : SubstitutionMap)
                                (options : SubstOptions).

Definition getOptions (IFS : InFlightSubstitution) : SubstOptions :=
  match IFS with
  | MkInFlightSubstitution _ _ o => o
  | InFlightSubstitutionViaSubMap _ o => o
  end.

Definition shouldSubstituteOpaqueArchetypes (IFS : InFlightSubstitution) : bool :=
  SubstituteOpaqueArchetypes (getOptions IFS).

(** Modelled from the spec: the requests the evaluator tracks
    (TypeCheckRequests.h): the resolution of the type witnesses of a
    normal conformance, which is the one this file asks about, and the
    computation of an associated conformance, keyed by the conformance and
    the requirement step. *)
Inductive Request :=
| ResolveTypeWitnessesRequest (normal : ProtocolConformance)
| AssociatedConformanceRequest (normal : ProtocolConformance)
                               (depTy : Ty) (proto : ProtocolDecl).

(** ** Collaborators

    The operations this file calls but does not define. *)
Class Collaborators := {
  (** [Type::subst(InFlightSubstitution &)]. *)
  Type_subst : InFlightSubstitution -> Ty -> Result Type_;
  (** [InFlightSubstitution::lookupConformance]. *)
  IFS_lookupConformance :
    InFlightSubstitution -> Ty -> Type_ -> ProtocolDecl -> nat ->
    Result ProtocolConformanceRef;
  (** [ProtocolConformance::subst] and [ProtocolConformanceRef::subst]. *)
  ProtocolConformance_subst :
    ProtocolConformance -> InFlightSubstitution -> Result ProtocolConformance;
  ProtocolConformanceRef_subst :
    ProtocolConformanceRef -> Type_ -> InFlightSubstitution ->
    Result ProtocolConformanceRef;
  (** [Type::transformRec]. *)
  Type_transformRec : (Ty -> option Type_) -> Ty -> Type_;
  (** Requirement machine queries of a signature. *)
  requiresProtocol : GenericSignatureImpl -> Ty -> ProtocolDecl -> bool;
  getConformancePath :
    GenericSignatureImpl -> Ty -> ProtocolDecl -> list (Ty * ProtocolDecl);
  (** The flag [forEachParam] hands to its callback for the parameter at a
      position. *)
  paramIsCanonical : GenericSignatureImpl -> nat -> bool;
  (** [swift::lookupConformance] and
      [ProtocolConformanceRef::forMissingOrInvalid]. *)
  lookupConformance_global : Ty -> ProtocolDecl -> ProtocolConformanceRef;
  forMissingOrInvalid : Type_ -> ProtocolDecl -> ProtocolConformanceRef;
  (** Concrete and pack conformance objects. *)
  getRootNormalConformance : ProtocolConformance -> ProtocolConformance;
  hasComputedAssociatedConformances : ProtocolConformance -> bool;
  getAssociatedConformance :
    ProtocolConformance -> Ty -> ProtocolDecl -> ProtocolConformanceRef;
  PackConformance_getAssociatedConformance :
    PackConformance -> Ty -> ProtocolDecl -> ProtocolConformanceRef;
  (** [Evaluator::hasActiveRequest]. *)
  hasActiveRequest : Request -> bool;
  (** [DeclContext::mapTypeIntoContext]. *)
  mapTypeIntoContext : DeclContext -> Ty -> Ty;
  (** [LangOpts.VerifyAllSubstitutionMaps]. *)
  VerifyAllSubstitutionMaps : bool
}.

Section Model.

Context {env : Collaborators}.

(** [type.subst(map, options)]: substitution through a map runs the
    primitive on the capability that stands for the map. *)
Definition Type_subst_map (M : SubstitutionMap) (options : SubstOptions)
           (type : Ty) : Result Type_ :=
  Type_subst (InFlightSubstitutionViaSubMap M options) type.

(** ** lookupSubstitution *)

(** The tail of [lookupSubstitution]: the type is cast to a generic
    parameter and looked up by its key. *)
Definition lookupGenericParam (s : Storage) (type : Ty) : Result Type_ :=
  match type with
  | GenericTypeParam genericParam =>
      let genericParams := getGenericParams (genericSig s) in
      let replacementIndex := findIndexIn genericParam genericParams in
      if Nat.eqb replacementIndex (length genericParams)
      then Ok None
      else at_index (getReplacementTypes (Some s)) replacementIndex
  | _ => Fault "cast<GenericTypeParamType>: incompatible type"
  end.

Definition lookupSubstitution (M : SubstitutionMap) (type : Ty)
  : Result Type_ :=
  match M with
  | None => Ok None
  | Some s =>
      match type with
      | ArchetypeType kind root interfaceType _ =>
          if negb root then Ok None
          else
            match kind with
            | PrimaryArchetypeType | PackArchetypeType =>
                lookupGenericParam s (getCanonicalType interfaceType)
            | _ => Ok None
            end
      | _ => lookupGenericParam s type
      end
  end.

(** ** lookupConformance *)

(** The [getSignatureConformance] lambda: a linear scan of the requirements
    that counts the conformance requirements passed so far. *)
Fixpoint scanRequirements (stored : list ProtocolConformanceRef)
         (type : Ty) (proto : ProtocolDecl)
         (reqs : list Requirement) (index : nat)
  : Result (option ProtocolConformanceRef) :=
  match reqs with
  | [] => Ok None
  | ConformanceRequirement first p :: rest =>
      if isEqual first type && ProtocolDecl_eqb p proto
      then
        c <- at_index stored index ;;
        Ok (Some c)
      else scanRequirements stored type proto rest (S index)
  | _ :: rest => scanRequirements stored type proto rest index
  end.

Definition getSignatureConformance (s : Storage) (type : Ty)
           (proto : ProtocolDecl) : Result (option ProtocolConformanceRef) :=
  scanRequirements (getConformances (Some s)) type proto
                   (getRequirements (genericSig s)) 0.

(** What one iteration of the path loop does: leave the function with a
    result, or go on to the next step with a new current conformance. *)
Inductive StepOutcome :=
| Return (result : ProtocolConformanceRef)
| Continue (conformance : ProtocolConformanceRef).

Definition pathStep (s : Storage) (type : Ty) (proto : ProtocolDecl)
           (conformance : ProtocolConformanceRef)
           (step : Ty * ProtocolDecl) : Result StepOutcome :=
  match conformance with
  | Invalid =>
      initialConformance <- getSignatureConformance s (fst step) (snd step) ;;
      match initialConformance with
      | Some c => Ok (Continue c)
      | None => Ok (Return forInvalid)
      end
  | Abstract _ =>
      r <- Type_subst_map (Some s) noOptions type ;;
      substType <- deref r ;;
      if hasError substType then Ok (Return (Abstract proto))
      else if (negb (isArchetypeType substType) ||
               archetypeHasSuperclass substType) &&
              negb (isTypeParameter substType) &&
              negb (isExistentialType substType)
      then Ok (Return (lookupConformance_global substType proto))
      else Ok (Return (Abstract proto))
  | Pack pack =>
      let c := PackConformance_getAssociatedConformance
                 pack (fst step) (snd step) in
      if isInvalid c then Ok (Return c) else Ok (Continue c)
  | Concrete concrete =>
      let normal := getRootNormalConformance concrete in
      if negb (hasComputedAssociatedConformances normal) &&
         hasActiveRequest (ResolveTypeWitnessesRequest normal)
      then Ok (Return forInvalid)
      else
        let c := getAssociatedConformance concrete (fst step) (snd step) in
        if isInvalid c then Ok (Return c) else Ok (Continue c)
  end.

(** The loop over the conformance path. *)
Fixpoint walkPath (s : Storage) (type : Ty) (proto : ProtocolDecl)
         (conformance : ProtocolConformanceRef)
         (path : list (Ty * ProtocolDecl)) : Result ProtocolConformanceRef :=
  match path with
  | [] => Ok conformance
  | step :: rest =>
      outcome <- pathStep s type proto conformance step ;;
      match outcome with
      | Return result => Ok result
      | Continue c => walkPath s type proto c rest
      end
  end.

(** The head of [lookupConformance]: an archetype other than an opaque one
    is mapped out of its context. *)
Definition mapArchetypeOutOfContext (type : Ty) : Ty :=
  match type with
  | ArchetypeType OpaqueTypeArchetypeType _ _ _ => type
  | ArchetypeType _ _ interfaceType _ => getCanonicalType interfaceType
  | _ => type
  end.

Definition lookupConformance (M : SubstitutionMap) (type : Ty)
           (proto : ProtocolDecl) : Result ProtocolConformanceRef :=
  match M with
  | None => Ok forInvalid
  | Some s =>
      let type := mapArchetypeOutOfContext type in
      if negb (isTypeParameter type) then Ok forInvalid
      else
        directConformance <- getSignatureConformance s type proto ;;
        match directConformance with
        | Some c => Ok c
        | None =>
            if negb (requiresProtocol (genericSig s) type proto)
            then
              substType <- Type_subst_map M noOptions type ;;
              Ok (forMissingOrInvalid substType proto)
            else
              match getInvertibleProtocolKind proto with
              | Some _ =>
                  r <- Type_subst_map M noOptions type ;;
                  substType <- deref r ;;
                  if negb (isTypeParameter substType)
                  then Ok (lookupConformance_global substType proto)
                  else Ok (Abstract proto)
              | None =>
                  walkPath s type proto Invalid
                           (getConformancePath (genericSig s) type proto)
              end
        end
  end.

(** ** verify *)

(** The body of the loop of [verify] for one conformance requirement. *)
Definition verifyRequirement (M : SubstitutionMap) (first : Ty)
           (conformanceIndex : nat) : Result unit :=
  r <- Type_subst_map M noOptions first ;;
  substType <- deref r ;;
  if isTypeParameter substType || isArchetypeType substType ||
     isTypeVariableOrMember substType || isUnresolvedType substType ||
     hasError substType
  then Ok tt
  else
    conformance <- at_index (getConformances M) conformanceIndex ;;
    match conformance with
    | Invalid => Ok tt
    | Concrete concrete =>
        if isUnboundGenericType substType then Ok tt
        else
          let conformanceTy := getType concrete in
          let conformanceTy :=
            if hasTypeParameter conformanceTy &&
               negb (hasTypeParameter substType)
            then mapTypeIntoContext (getDeclContext concrete) conformanceTy
            else conformanceTy in
          _ <- assert (isEqual substType conformanceTy)
                      "conformance should match corresponding type" ;;
          if isExistentialType substType
          then assert (isaSelfProtocolConformance concrete)
                      "Existential type cannot have normal conformance"
          else Ok tt
    | _ => Fault "Conformance should be concrete"
    end.

Fixpoint verifyRequirements (M : SubstitutionMap) (reqs : list Requirement)
         (conformanceIndex : nat) : Result unit :=
  match reqs with
  | [] => Ok tt
  | ConformanceRequirement first _ :: rest =>
      _ <- verifyRequirement M first conformanceIndex ;;
      verifyRequirements M rest (S conformanceIndex)
  | _ :: rest => verifyRequirements M rest conformanceIndex
  end.

Definition verify (M : SubstitutionMap) : Result unit :=
  match M with
  | None => Ok tt
  | Some s => verifyRequirements M (getRequirements (genericSig s)) 0
  end.

(** ** Construction *)

(** [Storage::Storage]: both arrays must have the sizes the signature
    dictates. *)
Definition Storage_ctor (sig : GenericSignature) (types : list Type_)
           (confs : list ProtocolConformanceRef) : Result Storage :=
  match sig with
  | None => Fault "null GenericSignature dereferenced"
  | Some impl =>
      _ <- assert (Nat.eqb (length types) (getNumReplacementTypes impl))
                  "replacementTypes.size() == getNumReplacementTypes()" ;;
      _ <- assert (Nat.eqb (length confs) (getNumConformanceRequirements impl))
                  "conformances.size() == numConformanceRequirements" ;;
      Ok {| genericSig := impl;
            replacementTypes := types;
            conformances := confs |}
  end.

(** Modelled from the spec: [Storage::get], the interning of storage
    (defined with the AST context).  Equal triples give the same storage;
    a storage value stands for its interned instance. *)
Definition Storage_get (sig : GenericSignature) (types : list Type_)
           (confs : list ProtocolConformanceRef) : Result Storage :=
  Storage_ctor sig types confs.

(** [SubstitutionMap::SubstitutionMap]. *)
Definition SubstitutionMap_ctor (sig : GenericSignature) (types : list Type_)
           (confs : list ProtocolConformanceRef) : Result SubstitutionMap :=
  storage <- Storage_get sig types confs ;;
  _ <- (if VerifyAllSubstitutionMaps then verify (Some storage) else Ok tt) ;;
  Ok (Some storage).

(** Modelled from the spec: the overload of [get] that takes the two arrays
    (defined in SubstitutionMap.h; [getCanonical] and
    [getProtocolSubstitutions] call it).  It constructs the map from the
    arrays as they are. *)
Definition get_arrays (sig : GenericSignature) (types : list Type_)
           (confs : list ProtocolConformanceRef) : Result SubstitutionMap :=
  SubstitutionMap_ctor sig types confs.

(** The first loop of [get]: the replacement of one generic parameter. *)
Definition formReplacement (IFS : InFlightSubstitution)
           (gp : GenericTypeParamType) : Result Type_ :=
  replacement <- Type_subst IFS (GenericTypeParam gp) ;;
  _ <- assert (match replacement with
               | None => true
               | Some r =>
                   hasError r || Bool.eqb (isParameterPack gp) (isPackType r)
               end)
              "replacement for pack parameter must be a pack type" ;;
  Ok replacement.

(** The second loop of [get]: the stored conformances. *)
Fixpoint formConformances (IFS : InFlightSubstitution)
         (reqs : list Requirement) : Result (list ProtocolConformanceRef) :=
  match reqs with
  | [] => Ok []
  | ConformanceRequirement first proto :: rest =>
      let depTy := getCanonicalType first in
      replacement <- Type_subst IFS depTy ;;
      conformance <- IFS_lookupConformance IFS depTy replacement proto 0 ;;
      more <- formConformances IFS rest ;;
      Ok (conformance :: more)
  | _ :: rest => formConformances IFS rest
  end.

(** [get(genericSig, IFS)]. *)
Definition get (sig : GenericSignature) (IFS : InFlightSubstitution)
  : Result SubstitutionMap :=
  match sig with
  | None => Ok None
  | Some impl =>
      types <- mapM (formReplacement IFS) (getGenericParams impl) ;;
      confs <- formConformances IFS (getRequirements impl) ;;
      SubstitutionMap_ctor sig types confs
  end.

(** [get(genericSig, subs, lookupConformance)]. *)
Definition get_fns (sig : GenericSignature) (subs : TypeSubstitutionFn)
           (lookup : LookupConformanceFn) : Result SubstitutionMap :=
  get sig (MkInFlightSubstitution subs lookup noOptions).

(** [getProtocolSubstitutions]. *)
Definition getProtocolSubstitutions (protocolSig : GenericSignature)
           (selfType : Type_) (conformance : ProtocolConformanceRef)
  : Result SubstitutionMap :=
  get_arrays protocolSig [selfType] [conformance].

(** ** subst *)

(** The first loop of [subst]: the image of one stored replacement type. *)
Definition substReplacement (IFS : InFlightSubstitution) (type : Type_)
  : Result Type_ :=
  old <- deref type ;;
  r <- Type_subst IFS old ;;
  new <- deref r ;;
  _ <- assert (Bool.eqb (isPackType old) (isPackType new))
              "substitution changed the pack-ness of a replacement type" ;;
  Ok r.

(** The second loop of [subst]: it consumes the old conformances from the
    front and hands back what is left of them. *)
Fixpoint substConformances (M : SubstitutionMap) (IFS : InFlightSubstitution)
         (reqs : list Requirement)
         (oldConformances : list ProtocolConformanceRef)
  : Result (list ProtocolConformanceRef * list ProtocolConformanceRef) :=
  match reqs with
  | [] => Ok ([], oldConformances)
  | ConformanceRequirement origType _ :: rest =>
      conformance <- at_index oldConformances 0 ;;
      new <-
        match conformance with
        | Concrete concrete =>
            if negb (shouldSubstituteOpaqueArchetypes IFS)
            then
              c <- ProtocolConformance_subst concrete IFS ;;
              Ok (Concrete c)
            else
              substType <- Type_subst_map M (getOptions IFS) origType ;;
              ProtocolConformanceRef_subst conformance substType IFS
        | _ =>
            substType <- Type_subst_map M (getOptions IFS) origType ;;
            ProtocolConformanceRef_subst conformance substType IFS
        end ;;
      remaining <- slice1 oldConformances ;;
      tail <- substConformances M IFS rest remaining ;;
      Ok (new :: fst tail, snd tail)
  | _ :: rest => substConformances M IFS rest oldConformances
  end.

Definition subst (M : SubstitutionMap) (IFS : InFlightSubstitution)
  : Result SubstitutionMap :=
  match M with
  | None => Ok None
  | Some s =>
      newSubs <- mapM (substReplacement IFS) (getReplacementTypes M) ;;
      out <- substConformances M IFS (getRequirements (genericSig s))
                               (getConformances M) ;;
      _ <- assert (match snd out with [] => true | _ => false end)
                  "oldConformances.empty()" ;;
      SubstitutionMap_ctor (Some (genericSig s)) newSubs (fst out)
  end.

(** [subst(subMap, options)] and [subst(subs, conformances, options)]. *)
Definition subst_map (M : SubstitutionMap) (subMap : SubstitutionMap)
           (options : SubstOptions) : Result SubstitutionMap :=
  subst M (InFlightSubstitutionViaSubMap subMap options).

Definition subst_fns (M : SubstitutionMap) (subs : TypeSubstitutionFn)
           (lookup : LookupConformanceFn) (options : SubstOptions)
  : Result SubstitutionMap :=
  subst M (MkInFlightSubstitution subs lookup options).

(** ** combineSubstitutionMaps *)

Inductive CombineSubstitutionMaps := AtDepth | AtIndex.

(** The [replaceGenericParameter] lambda.  [None] is [std::nullopt]; a null
    type inside [Some] says the parameter lies before the boundary. *)
Definition replaceGenericParameter (how : CombineSubstitutionMaps)
           (firstDepthOrIndex secondDepthOrIndex : N) (type : Ty)
  : option Type_ :=
  match getAsGenericTypeParamType type with
  | Some gp =>
      match how with
      | AtDepth =>
          if N.ltb (getDepth gp) firstDepthOrIndex then Some None
          else Some (Some (GenericTypeParam
                 {| isParameterPack := isParameterPack gp;
                    getDepth := add_sub_u32 (getDepth gp) secondDepthOrIndex
                                            firstDepthOrIndex;
                    getIndex := getIndex gp |}))
      | AtIndex =>
          if N.ltb (getIndex gp) firstDepthOrIndex then Some None
          else Some (Some (GenericTypeParam
                 {| isParameterPack := isParameterPack gp;
                    getDepth := getDepth gp;
                    getIndex := add_sub_u32 (getIndex gp) secondDepthOrIndex
                                            firstDepthOrIndex |}))
      end
  | None => None
  end.

(** The type query handed to [get]. *)
Definition combineTypes (firstSubMap secondSubMap : SubstitutionMap)
           (how : CombineSubstitutionMaps)
           (firstDepthOrIndex secondDepthOrIndex : N) : TypeSubstitutionFn :=
  fun type =>
    match replaceGenericParameter how firstDepthOrIndex secondDepthOrIndex
                                  type with
    | Some (Some replacement) => Type_subst_map secondSubMap noOptions replacement
    | _ => Type_subst_map firstSubMap noOptions type
    end.

(** The conformance query handed to [get]. *)
Definition combineConformances (firstSubMap secondSubMap : SubstitutionMap)
           (how : CombineSubstitutionMaps)
           (firstDepthOrIndex secondDepthOrIndex : N) : LookupConformanceFn :=
  fun type substType proto =>
    match Type_transformRec
            (replaceGenericParameter how firstDepthOrIndex secondDepthOrIndex)
            type with
    | Some replacement =>
        lookupConformance secondSubMap (getCanonicalType replacement) proto
    | None =>
        conformance <- lookupConformance firstSubMap type proto ;;
        if negb (isInvalid conformance) then Ok conformance
        else
          st <- deref substType ;;
          if isTypeParameter st then Ok (Abstract proto)
          else Ok (lookupConformance_global st proto)
    end.

Definition combineSubstitutionMaps (firstSubMap secondSubMap : SubstitutionMap)
           (how : CombineSubstitutionMaps)
           (firstDepthOrIndex secondDepthOrIndex : N)
           (sig : GenericSignature) : Result SubstitutionMap :=
  match sig with
  | None => Fault "null GenericSignature dereferenced"
  | Some _ =>
      get_fns sig
        (combineTypes firstSubMap secondSubMap how
                      firstDepthOrIndex secondDepthOrIndex)
        (combineConformances firstSubMap secondSubMap how
                             firstDepthOrIndex secondDepthOrIndex)
  end.

(** ** isIdentity *)

(** The first loop of [isIdentity] goes on past a conformance that is
    abstract, or a pack of exactly one abstract pattern conformance. *)
Definition conformanceIsIdentity (conf : ProtocolConformanceRef) : bool :=
  if isAbstract conf then true
  else
    match conf with
    | Pack pack =>
        match getPatternConformances pack with
        | [c] => isAbstract c
        | _ => false
        end
    | _ => false
    end.

(** The type a canonical parameter is compared with. *)
Definition wrappedParamTy (paramTy : GenericTypeParamType) : Ty :=
  if isParameterPack paramTy
  then getSingletonPackExpansion (GenericTypeParam paramTy)
  else GenericTypeParam paramTy.

(** The [forEachParam] callback run over the parameters from a position on:
    the state is the remaining replacements and the flag. *)
Fixpoint forEachParamIdentity (sig : GenericSignatureImpl)
         (params : list GenericTypeParamType) (position : nat)
         (replacements : list Type_) (hasNonIdentityReplacement : bool)
  : Result (list Type_ * bool) :=
  match params with
  | [] => Ok (replacements, hasNonIdentityReplacement)
  | paramTy :: rest =>
      flag <-
        (if paramIsCanonical sig position
         then
           first <- at_index replacements 0 ;;
           other <- deref first ;;
           Ok (if negb (isEqual (wrappedParamTy paramTy) other)
               then true else hasNonIdentityReplacement)
         else Ok hasNonIdentityReplacement) ;;
      remaining <- slice1 replacements ;;
      forEachParamIdentity sig rest (S position) remaining flag
  end.

Definition isIdentity (M : SubstitutionMap) : Result bool :=
  match M with
  | None => Ok true
  | Some s =>
      if negb (forallb conformanceIsIdentity (getConformances M))
      then Ok false
      else
        out <- forEachParamIdentity (genericSig s)
                                    (getGenericParams (genericSig s)) 0
                                    (getReplacementTypes M) false ;;
        _ <- assert (match fst out with [] => true | _ => false end)
                    "replacements.empty()" ;;
        Ok (negb (snd out))
  end.

End Model.

(** ** The path loop as a step relation

    [continues s type proto c steps c']: started with the current
    conformance [c], the loop of [lookupConformance] runs through [steps]
    without leaving the function and ends with the current conformance
    [c']. *)
Inductive continues {env : Collaborators} (s : Storage) (type : Ty)
          (proto : ProtocolDecl)
  : ProtocolConformanceRef -> list (Ty * ProtocolDecl) ->
    ProtocolConformanceRef -> Prop :=
| continues_nil c : continues s type proto c [] c
| continues_cons c step c' steps c'' :
    pathStep s type proto c step = Ok (Continue c') ->
    continues s type proto c' steps c'' ->
    continues s type proto c (step :: steps) c''.

(** A conformance requirement states [(type, proto)] when its dependent
    type is equal to [type] and its protocol is [proto]: the test of the
    scan in [getSignatureConformance]. *)
Definition statesConformance (type : Ty) (proto : ProtocolDecl)
           (req : Ty * ProtocolDecl) : bool :=
  isEqual (fst req) type && ProtocolDecl_eqb (snd req) proto.

(** A substituted type is fully concrete when it is no type parameter, no
    archetype, no type variable or member of one, not unresolved, and has
    no error: the types [verify] does not pass over. *)
Definition isFullyConcrete (t : Ty) : bool :=
  negb (isTypeParameter t) && negb (isArchetypeType t) &&
  negb (isTypeVariableOrMember t) && negb (isUnresolvedType t) &&
  negb (hasError t).

(** The type of a concrete conformance as [verify] compares it: mapped
    into the context of the conformance when it mentions type parameters
    and the substituted type does not. *)
Definition conformanceTypeFor {env : Collaborators}
           (concrete : ProtocolConformance) (substType : Ty) : Ty :=
  if hasTypeParameter (getType concrete) && negb (hasTypeParameter substType)
  then mapTypeIntoContext (getDeclContext concrete) (getType concrete)
  else getType concrete.

(** What the loop body of [verify] checks for the requirement at a
    position, given the substituted dependent type. *)
Definition checkedAt {env : Collaborators} (M : SubstitutionMap) (position : nat) (substType : Ty)
  : Prop :=
  isFullyConcrete substType = true ->
  forall conformance,
    nth_error (getConformances M) position = Some conformance ->
    conformance <> Invalid ->
    exists concrete,
      conformance = Concrete concrete /\
      (isUnboundGenericType substType = false ->
       isEqual substType (conformanceTypeFor concrete substType) = true /\
       (isExistentialType substType = true ->
        isaSelfProtocolConformance concrete = true)).

(** The pack-ness invariant of a stored replacement: a null type and a
    type with an error are exempt, any other type is a pack exactly when
    its parameter is one. *)
Definition replacementMatchesParam (gp : GenericTypeParamType)
           (replacement : Type_) : Prop :=
  match replacement with
  | None => True
  | Some r => hasError r = true \/ isPackType r = isParameterPack gp
  end.

(** C9 in the words of the claim: when [verify] passes, every conformance
    requirement whose substituted dependent type is fully concrete has a
    concrete stored conformance whose type is equal to the substituted
    type, and a self-conformance if that type is existential. *)
Definition verifyAssertsAll (env : Collaborators) (s : Storage) : Prop :=
  verify (Some s) = Ok tt ->
  forall i first proto substType,
    nth_error (conformanceRequirements (getRequirements (genericSig s))) i
    = Some (first, proto) ->
    Type_subst_map (Some s) noOptions first = Ok (Some substType) ->
    isFullyConcrete substType = true ->
    exists concrete,
      nth_error (getConformances (Some s)) i = Some (Concrete concrete) /\
      isEqual substType (conformanceTypeFor concrete substType) = true /\
      (isExistentialType substType = true ->
       isaSelfProtocolConformance concrete = true).

(** C5 in the words of the claim, for one map: every replacement type that
    is not null and has no error is a pack exactly when the generic
    parameter of its position is a parameter pack. *)
Definition packInvariant (M : SubstitutionMap) : Prop :=
  forall sig i gp replacement,
    getGenericSignature M = Some sig ->
    nth_error (getGenericParams sig) i = Some gp ->
    nth_error (getReplacementTypes M) i = Some replacement ->
    replacementMatchesParam gp replacement.

(** ** Sample signatures, maps and collaborators

    Concrete data on which the statements below are exercised. *)
Module Demo.

Definition P : ProtocolDecl :=
  {| protoName := "P"; getInvertibleProtocolKind := None |}.
Definition Q : ProtocolDecl :=
  {| protoName := "Q"; getInvertibleProtocolKind := None |}.

Definition T : GenericTypeParamType :=
  {| isParameterPack := false; getDepth := 0; getIndex := 0 |}.
Definition U : GenericTypeParamType :=
  {| isParameterPack := false; getDepth := 1; getIndex := 0 |}.
Definition EachT : GenericTypeParamType :=
  {| isParameterPack := true; getDepth := 0; getIndex := 0 |}.

Definition Int : Ty := NominalType "Int" [].
(** The member type [T.A], and [Self.A] of the protocol [P], whose [Self]
    is the parameter at depth 0 and index 0 as well. *)
Definition T_A : Ty := DependentMemberType (GenericTypeParam T) "A".
Definition Self_A : Ty := DependentMemberType (GenericTypeParam T) "A".

Definition IntP : ProtocolConformance :=
  {| getKind := Normal; getType := Int; getProtocol := P;
     getDeclContext := "Int"%string |}.

(** [<T>], [<T where T: P>], [<each T>] and [<T><U>]. *)
Definition sigT : GenericSignatureImpl :=
  {| getGenericParams := [T]; getRequirements := [] |}.
Definition sigTP : GenericSignatureImpl :=
  {| getGenericParams := [T];
     getRequirements := [ConformanceRequirement (GenericTypeParam T) P] |}.
Definition sigEachT : GenericSignatureImpl :=
  {| getGenericParams := [EachT]; getRequirements := [] |}.
Definition sigTU : GenericSignatureImpl :=
  {| getGenericParams := [T; U]; getRequirements := [] |}.

(** [T := Int] with the stored conformance [Int: P]. *)
Definition storeIntP : Storage :=
  {| genericSig := sigTP; replacementTypes := [Some Int];
     conformances := [Concrete IntP] |}.
(** [T := T] with the abstract conformance [T: P]. *)
Definition storeIdentityP : Storage :=
  {| genericSig := sigTP; replacementTypes := [Some (GenericTypeParam T)];
     conformances := [Abstract P] |}.
(** [T := Int] with no evidence for [T: P]. *)
Definition storeIntInvalid : Storage :=
  {| genericSig := sigTP; replacementTypes := [Some Int];
     conformances := [Invalid] |}.
(** [T := Array] (unbound) with the stored conformance [Int: P]. *)
Definition storeUnbound : Storage :=
  {| genericSig := sigTP; replacementTypes := [Some (UnboundGenericType "Array")];
     conformances := [Concrete IntP] |}.
(** [each T := Int]: a pack parameter with a replacement that is no pack. *)
Definition storeEachInt : Storage :=
  {| genericSig := sigEachT; replacementTypes := [Some Int];
     conformances := [] |}.

(** The answer of a capability for a substitutable type. *)
Definition query (IFS : InFlightSubstitution) (t : Ty) : Result Type_ :=
  match IFS with
  | MkInFlightSubstitution subs _ _ => subs t
  | InFlightSubstitutionViaSubMap M _ => lookupSubstitution M t
  end.

(** A substitution primitive for the sample types: a generic parameter is
    replaced by the answer of the capability, or by the error type when
    there is none; a member type becomes [memberImage]; any other sample
    type has nothing to substitute. *)
Definition substSample (memberImage : Ty) (IFS : InFlightSubstitution)
           (t : Ty) : Result Type_ :=
  match t with
  | GenericTypeParam _ =>
      r <- query IFS t ;;
      Ok (Some (match r with Some x => x | None => ErrorType end))
  | DependentMemberType _ _ => Ok (Some memberImage)
  | _ => Ok (Some t)
  end.

(** Collaborators for the sample data.  The conformance path of every
    query is [(T, P)] followed by [(Self.A, protocol)]; the evaluator
    reports every request as active or none, according to [active]. *)
Definition services (memberImage : Ty) (active : bool) : Collaborators :=
  {| Type_subst := substSample memberImage;
     IFS_lookupConformance := fun IFS depTy replacement proto _ =>
       match IFS with
       | MkInFlightSubstitution _ lookup _ => lookup depTy replacement proto
       | InFlightSubstitutionViaSubMap _ _ => Ok (Abstract proto)
       end;
     ProtocolConformance_subst := fun c _ => Ok c;
     ProtocolConformanceRef_subst := fun c _ _ => Ok c;
     Type_transformRec := fun f t =>
       match f t with Some r => r | None => Some t end;
     requiresProtocol := fun _ _ _ => true;
     getConformancePath := fun _ _ proto =>
       [(GenericTypeParam T, P); (Self_A, proto)];
     paramIsCanonical := fun _ _ => true;
     lookupConformance_global := fun t proto =>
       Concrete {| getKind := Normal; getType := t; getProtocol := proto;
                   getDeclContext := "module"%string |};
     forMissingOrInvalid := fun _ _ => Invalid;
     getRootNormalConformance := fun c => c;
     hasComputedAssociatedConformances := fun _ => false;
     getAssociatedConformance := fun _ _ proto => Abstract proto;
     PackConformance_getAssociatedConformance := fun _ _ proto =>
       Abstract proto;
     hasActiveRequest := fun _ => active;
     mapTypeIntoContext := fun _ t => t;
     VerifyAllSubstitutionMaps := true |}.

(** A capability that leaves every substitutable type without an answer
    of its own and resolves conformances abstractly. *)
Definition identityIFS : InFlightSubstitution :=
  MkInFlightSubstitution (fun t => Ok (Some t))
                         (fun _ _ proto => Ok (Abstract proto)) noOptions.

(** A capability that answers [Int] for every substitutable type and
    [Int: P] for every conformance. *)
Definition toIntIFS : InFlightSubstitution :=
  MkInFlightSubstitution (fun _ => Ok (Some Int))
                         (fun _ _ _ => Ok (Concrete IntP)) noOptions.

End Demo.

(** ** Canonical maps *)

(** The canonicalization operations this file calls on signatures and
    conformances but does not define. *)
Class CanonicalCollaborators := {
  (** [GenericSignatureImpl::isCanonical] and
      [GenericSignature::getCanonicalSignature]. *)
  signature_isCanonical : GenericSignatureImpl -> bool;
  getCanonicalSignature : GenericSignatureImpl -> GenericSignatureImpl;
  (** [ProtocolConformanceRef::isCanonical] and
      [ProtocolConformanceRef::getCanonicalConformanceRef]. *)
  conformance_isCanonical : ProtocolConformanceRef -> bool;
  getCanonicalConformanceRef :
    ProtocolConformanceRef -> ProtocolConformanceRef
}.

(** Modelled from the spec: [TypeBase::isCanonical] holds of a type that is
    its own canonical type. *)
Definition isCanonicalType (t : Ty) : bool := Ty_eqb (getCanonicalType t) t.

Section Canonical.

Context {env : Collaborators} {canon : CanonicalCollaborators}.

(** The loop of [isCanonical] over the replacement types. *)
Fixpoint replacementTypesCanonical (types : list Type_) : Result bool :=
  match types with
  | [] => Ok true
  | replacementTy :: rest =>
      ty <- deref replacementTy ;;
      if negb (isCanonicalType ty) then Ok false
      else replacementTypesCanonical rest
  end.

Definition isCanonical (M : SubstitutionMap) : Result bool :=
  match M with
  | None => Ok true
  | Some s =>
      if negb (signature_isCanonical (genericSig s)) then Ok false
      else
        types <- replacementTypesCanonical (getReplacementTypes M) ;;
        if negb types then Ok false
        else Ok (forallb conformance_isCanonical (getConformances M))
  end.

(** The loop of [getCanonical] over the replacement types. *)
Definition canonicalReplacement (replacementType : Type_) : Result Type_ :=
  ty <- deref replacementType ;;
  Ok (Some (getCanonicalType ty)).

Definition getCanonical (M : SubstitutionMap) (canonicalizeSignature : bool)
  : Result SubstitutionMap :=
  match M with
  | None => Ok M
  | Some s =>
      let sig := genericSig s in
      let sig := if canonicalizeSignature then getCanonicalSignature sig
                 else sig in
      types <- mapM canonicalReplacement (getReplacementTypes M) ;;
      let confs := map getCanonicalConformanceRef (getConformances M) in
      get_arrays (Some sig) types confs
  end.

End Canonical.

(** ** Substitution through context-mapping capabilities *)

Section ContextMaps.

Context {env : Collaborators}.

(** [mapReplacementTypesOutOfContext]; the two functors it passes to
    [subst] are declared elsewhere and are parameters here. *)
Definition mapReplacementTypesOutOfContext
           (MapTypeOutOfContext : TypeSubstitutionFn)
           (MakeAbstractConformanceForGenericType : LookupConformanceFn)
           (M : SubstitutionMap) : Result SubstitutionMap :=
  subst_fns M MapTypeOutOfContext MakeAbstractConformanceForGenericType
            {| PreservePackExpansionLevel := true;
               SubstitutePrimaryArchetypes := true;
               SubstituteOpaqueArchetypes := false |}.

(** [mapIntoTypeExpansionContext]; the replacer built from the expansion
    context serves as both callbacks and is a pair of parameters here. *)
Definition mapIntoTypeExpansionContext
           (replacerTypes : TypeSubstitutionFn)
           (replacerConformances : LookupConformanceFn)
           (M : SubstitutionMap) : Result SubstitutionMap :=
  subst_fns M replacerTypes replacerConformances
            {| PreservePackExpansionLevel := true;
               SubstitutePrimaryArchetypes := false;
               SubstituteOpaqueArchetypes := true |}.

End ContextMaps.

(** ** Override substitutions *)

(** [OverrideSubsInfo]: the two depth markers, the generic parameter list
    of the derived declaration (the declared interface types of its
    parameters) if it has one, and the context map of the base nominal.
    Its constructor computes them from the declarations. *)
Record OverrideSubsInfo := {
  BaseDepth : N;
  OrigDepth : N;
  DerivedParams : option (list Ty);
  BaseSubMap : SubstitutionMap
}.

(** Modelled from the spec: [getRootGenericParam] is the generic parameter
    a type parameter is rooted in. *)
Fixpoint getRootGenericParam (t : Ty) : option GenericTypeParamType :=
  match t with
  | GenericTypeParam gp => Some gp
  | DependentMemberType b _ => getRootGenericParam b
  | TypeAliasType _ u => getRootGenericParam u
  | _ => None
  end.

Section Override.

Context {env : Collaborators}.

(** [QueryOverrideSubs::operator()]. *)
Definition QueryOverrideSubs (info : OverrideSubsInfo) : TypeSubstitutionFn :=
  fun type =>
    match getAsGenericTypeParamType type with
    | Some gp =>
        if N.leb (BaseDepth info) (getDepth gp)
        then
          _ <- assert (N.eqb (getDepth gp) (BaseDepth info))
                      "gp->getDepth() == info.BaseDepth" ;;
          match DerivedParams info with
          | Some params =>
              p <- at_index params (N.to_nat (getIndex gp)) ;;
              Ok (Some p)
          | None =>
              Ok (Some (GenericTypeParam
                    {| isParameterPack := isParameterPack gp;
                       getDepth := add_sub_u32 (getDepth gp) (OrigDepth info)
                                               (BaseDepth info);
                       getIndex := getIndex gp |}))
          end
        else Type_subst_map (BaseSubMap info) noOptions type
    | None => Type_subst_map (BaseSubMap info) noOptions type
    end.

(** [LookUpConformanceInOverrideSubs::operator()]. *)
Definition LookUpConformanceInOverrideSubs (info : OverrideSubsInfo)
  : LookupConformanceFn :=
  fun type substType proto =>
    match getRootGenericParam type with
    | None => Fault "castTo<GenericTypeParamType>: incompatible type"
    | Some root =>
        if N.leb (BaseDepth info) (getDepth root) then Ok (Abstract proto)
        else
          conformance <- lookupConformance (BaseSubMap info) type proto ;;
          if negb (isInvalid conformance) then Ok conformance
          else
            st <- deref substType ;;
            if isTypeParameter st then Ok (Abstract proto)
            else Ok (lookupConformance_global st proto)
    end.

(** The body of [getOverrideSubstitutions(baseNominal, derivedNominal,
    baseSig, derivedParams)] once [OverrideSubsInfo] is constructed. *)
Definition getOverrideSubstitutions (info : OverrideSubsInfo)
           (baseSig : GenericSignature) : Result SubstitutionMap :=
  match baseSig with
  | None => Ok None
  | Some _ =>
      get_fns baseSig (QueryOverrideSubs info)
              (LookUpConformanceInOverrideSubs info)
  end.

End Override.

(** ** More sample data *)
Module Samples.

(** Conformance canonicalization that turns every abstract conformance
    into the abstract conformance to [P] and calls canonical what it
    leaves fixed; every signature is canonical. *)
Definition canonical : CanonicalCollaborators :=
  {| signature_isCanonical := fun _ => true;
     getCanonicalSignature := fun sig => sig;
     conformance_isCanonical := fun c =>
       match c with
       | Abstract p => ProtocolDecl_eqb p Demo.P
       | _ => true
       end;
     getCanonicalConformanceRef := fun c =>
       match c with
       | Abstract _ => Abstract Demo.P
       | _ => c
       end |}.

(** [typealias MyInt = Int]. *)
Definition MyInt : Ty := TypeAliasType "MyInt" Demo.Int.

Definition IntMyIntP : ProtocolConformance :=
  {| getKind := Normal; getType := MyInt; getProtocol := Demo.P;
     getDeclContext := "Int"%string |}.

(** [T := MyInt] with the stored conformance [Int: P]. *)
Definition storeMyInt : Storage :=
  {| genericSig := Demo.sigTP; replacementTypes := [Some MyInt];
     conformances := [Concrete Demo.IntP] |}.

(** [T := Int] with the abstract conformance [T: P]. *)
Definition storeIntAbstract : Storage :=
  {| genericSig := Demo.sigTP; replacementTypes := [Some Demo.Int];
     conformances := [Abstract Demo.P] |}.

(** [T := Int] on [<T>], a signature without requirements. *)
Definition storeIntPlain : Storage :=
  {| genericSig := Demo.sigT; replacementTypes := [Some Demo.Int];
     conformances := [] |}.

(** [T] with a null replacement type, on [<T>]. *)
Definition storeNull : Storage :=
  {| genericSig := Demo.sigT; replacementTypes := [None];
     conformances := [] |}.

(** [<T where T: P, T: Q>] and a map on it whose first conformance is the
    invalid one. *)
Definition sigTPQ : GenericSignatureImpl :=
  {| getGenericParams := [Demo.T];
     getRequirements := [ConformanceRequirement (GenericTypeParam Demo.T) Demo.P;
                         ConformanceRequirement Demo.T_A Demo.Q] |}.
Definition IntQ : ProtocolConformance :=
  {| getKind := Normal; getType := Demo.Int; getProtocol := Demo.Q;
     getDeclContext := "Int"%string |}.
Definition storeInvalidThenQ : Storage :=
  {| genericSig := sigTPQ; replacementTypes := [Some Demo.Int];
     conformances := [Invalid; Concrete IntQ] |}.

(** An invertible protocol. *)
Definition Copyable_ : ProtocolDecl :=
  {| protoName := "Copyable"; getInvertibleProtocolKind := Some Copyable |}.

(** Collaborators like [Demo.services], with a signature that requires no
    protocol of any type. *)
Definition servicesNoRequirement : Collaborators :=
  {| Type_subst := Demo.substSample Demo.Int;
     IFS_lookupConformance :=
       @IFS_lookupConformance (Demo.services Demo.Int false);
     ProtocolConformance_subst := fun c _ => Ok c;
     ProtocolConformanceRef_subst := fun c _ _ => Ok c;
     Type_transformRec :=
       @Type_transformRec (Demo.services Demo.Int false);
     requiresProtocol := fun _ _ _ => false;
     getConformancePath := fun _ _ _ => [];
     paramIsCanonical := fun _ _ => true;
     lookupConformance_global :=
       @lookupConformance_global (Demo.services Demo.Int false);
     forMissingOrInvalid := fun _ _ => Invalid;
     getRootNormalConformance := fun c => c;
     hasComputedAssociatedConformances := fun _ => true;
     getAssociatedConformance := fun _ _ _ => Invalid;
     PackConformance_getAssociatedConformance := fun _ _ _ => Invalid;
     hasActiveRequest := fun _ => false;
     mapTypeIntoContext := fun _ t => t;
     VerifyAllSubstitutionMaps := false |}.

(** Collaborators like [Demo.services] whose conformances have no
    associated conformance at all. *)
Definition servicesNoAssociated : Collaborators :=
  {| Type_subst := Demo.substSample Demo.Int;
     IFS_lookupConformance :=
       @IFS_lookupConformance (Demo.services Demo.Int false);
     ProtocolConformance_subst := fun c _ => Ok c;
     ProtocolConformanceRef_subst := fun c _ _ => Ok c;
     Type_transformRec :=
       @Type_transformRec (Demo.services Demo.Int false);
     requiresProtocol := fun _ _ _ => true;
     getConformancePath := fun _ _ proto =>
       [(GenericTypeParam Demo.T, Demo.P); (Demo.Self_A, proto)];
     paramIsCanonical := fun _ _ => true;
     lookupConformance_global :=
       @lookupConformance_global (Demo.services Demo.Int false);
     forMissingOrInvalid := fun _ _ => Invalid;
     getRootNormalConformance := fun c => c;
     hasComputedAssociatedConformances := fun _ => true;
     getAssociatedConformance := fun _ _ _ => Invalid;
     PackConformance_getAssociatedConformance := fun _ _ _ => Invalid;
     hasActiveRequest := fun _ => false;
     mapTypeIntoContext := fun _ t => t;
     VerifyAllSubstitutionMaps := false |}.

(** An override from a base class with one generic parameter to a derived
    class with two levels of generic parameters. *)
Definition overrideInfo : OverrideSubsInfo :=
  {| BaseDepth := 1; OrigDepth := 2; DerivedParams := None;
     BaseSubMap := Some Demo.storeIntP |}.

(** A generic parameter at depth 0 and index 1, and [<T, V>]. *)
Definition V : GenericTypeParamType :=
  {| isParameterPack := false; getDepth := 0; getIndex := 1 |}.
Definition sigTV : GenericSignatureImpl :=
  {| getGenericParams := [Demo.T; V]; getRequirements := [] |}.

(** Collaborators like [Demo.services] whose evaluator reports every
    associated conformance computation as active and no resolution of
    type witnesses. *)
Definition servicesStepInFlight : Collaborators :=
  {| Type_subst := Demo.substSample Demo.Int;
     IFS_lookupConformance :=
       @IFS_lookupConformance (Demo.services Demo.Int false);
     ProtocolConformance_subst := fun c _ => Ok c;
     ProtocolConformanceRef_subst := fun c _ _ => Ok c;
     Type_transformRec :=
       @Type_transformRec (Demo.services Demo.Int false);
     requiresProtocol := fun _ _ _ => true;
     getConformancePath := fun _ _ proto =>
       [(GenericTypeParam Demo.T, Demo.P); (Demo.Self_A, proto)];
     paramIsCanonical := fun _ _ => true;
     lookupConformance_global :=
       @lookupConformance_global (Demo.services Demo.Int false);
     forMissingOrInvalid := fun _ _ => Invalid;
     getRootNormalConformance := fun c => c;
     hasComputedAssociatedConformances := fun _ => false;
     getAssociatedConformance := fun _ _ proto => Abstract proto;
     PackConformance_getAssociatedConformance := fun _ _ proto =>
       Abstract proto;
     hasActiveRequest := fun r =>
       match r with
       | ResolveTypeWitnessesRequest _ => false
       | AssociatedConformanceRequest _ _ _ => true
       end;
     mapTypeIntoContext := fun _ t => t;
     VerifyAllSubstitutionMaps := true |}.

End Samples.

(** The collaborators of [env] with another computation of the associated
    conformances of concrete conformances; everything else is kept. *)
Definition withAssociatedConformance (env : Collaborators)
           (assoc : ProtocolConformance -> Ty -> ProtocolDecl ->
                    ProtocolConformanceRef) : Collaborators :=
  {| Type_subst := Type_subst;
     IFS_lookupConformance := IFS_lookupConformance;
     ProtocolConformance_subst := ProtocolConformance_subst;
     ProtocolConformanceRef_subst := ProtocolConformanceRef_subst;
     Type_transformRec := Type_transformRec;
     requiresProtocol := requiresProtocol;
     getConformancePath := getConformancePath;
     paramIsCanonical := paramIsCanonical;
     lookupConformance_global := lookupConformance_global;
     forMissingOrInvalid := forMissingOrInvalid;
     getRootNormalConformance := getRootNormalConformance;
     hasComputedAssociatedConformances := hasComputedAssociatedConformances;
     getAssociatedConformance := assoc;
     PackConformance_getAssociatedConformance :=
       PackConformance_getAssociatedConformance;
     hasActiveRequest := hasActiveRequest;
     mapTypeIntoContext := mapTypeIntoContext;
     VerifyAllSubstitutionMaps := VerifyAllSubstitutionMaps |}.

(** The resolution of the type witnesses of the root normal conformance of
    [concrete] is in flight: the test of the guard in the path walk. *)
Definition resolutionInFlight {env : Collaborators}
           (concrete : ProtocolConformance) : bool :=
  negb (hasComputedAssociatedConformances (getRootNormalConformance concrete))
  && hasActiveRequest
       (ResolveTypeWitnessesRequest (getRootNormalConformance concrete)).

(** C3 in the words of the claim, for one query: whenever the walk stands
    at a concrete conformance whose root normal conformance has not
    computed its associated conformances, and the evaluator reports the
    computation of the associated conformance of that conformance for
    that very step as active, [lookupConformance] returns the invalid
    conformance. *)
Definition guardKeyedOnStep (env : Collaborators) (s : Storage) (type : Ty)
           (proto : ProtocolDecl) : Prop :=
  forall steps step rest concrete,
    isTypeParameter (mapArchetypeOutOfContext type) = true ->
    getSignatureConformance s (mapArchetypeOutOfContext type) proto
    = Ok None ->
    requiresProtocol (genericSig s) (mapArchetypeOutOfContext type) proto
    = true ->
    getInvertibleProtocolKind proto = None ->
    getConformancePath (genericSig s) (mapArchetypeOutOfContext type) proto
    = steps ++ step :: rest ->
    continues s (mapArchetypeOutOfContext type) proto Invalid steps
              (Concrete concrete) ->
    hasComputedAssociatedConformances (getRootNormalConformance concrete)
    = false ->
    hasActiveRequest
      (AssociatedConformanceRequest (getRootNormalConformance concrete)
                                    (fst step) (snd step)) = true ->
    lookupConformance (Some s) type proto = Ok forInvalid.

(** C7 in the words of the claim, for one signature and pair of arrays:
    when the arrays have the sizes the signature dictates and satisfy the
    pack-ness invariant, [get] returns a map whose accessors give back the
    arrays. *)
Definition roundTripAsClaimed (env : Collaborators)
           (sig : GenericSignatureImpl) (types : list Type_)
           (confs : list ProtocolConformanceRef) : Prop :=
  length types = getNumReplacementTypes sig ->
  length confs = getNumConformanceRequirements sig ->
  packInvariant (Some {| genericSig := sig; replacementTypes := types;
                         conformances := confs |}) ->
  exists M,
    get_arrays (Some sig) types confs = Ok M /\
    getReplacementTypes M = types /\
    getConformances M = confs.

(** * Properties *)

(** ** The fault monad *)

Lemma bind_Ok_inv {A B : Type} (r : Result A) (k : A -> Result B) (b : B) :
  bind r k = Ok b -> exists a, r = Ok a /\ k a = Ok b.
Proof.
  destruct r as [a | msg]; simpl; intros E.
  - exists a; split; [reflexivity | exact E].
  - discriminate E.
Qed.

Lemma assert_Ok_inv (b : bool) (msg : string) (u : unit) :
  assert b msg = Ok u -> b = true.
Proof.
  destruct b; simpl; [reflexivity | discriminate].
Qed.

(** Peels the binds of a hypothesis that says a computation succeeded. *)
Ltac ok_inv H :=
  repeat match type of H with
         | bind _ _ = Ok _ =>
             let a := fresh "a" in
             let E := fresh "E" in
             apply bind_Ok_inv in H; destruct H as [a [E H]]
         end.

Lemma mapM_length {A B : Type} (f : A -> Result B) (xs : list A) :
  forall ys, mapM f xs = Ok ys -> length ys = length xs.
Proof.
  induction xs as [| x xs IH]; simpl; intros ys E.
  - injection E as <-. reflexivity.
  - ok_inv E. injection E as <-. simpl. f_equal. apply IH. assumption.
Qed.

Lemma mapM_nth {A B : Type} (f : A -> Result B) (xs : list A) :
  forall ys, mapM f xs = Ok ys ->
  forall i x, nth_error xs i = Some x ->
  exists y, nth_error ys i = Some y /\ f x = Ok y.
Proof.
  induction xs as [| x0 xs IH]; simpl; intros ys E i x Hx.
  - destruct i; discriminate Hx.
  - ok_inv E. injection E as <-.
    destruct i as [| i]; simpl in *.
    + injection Hx as <-. eexists; split; [reflexivity | assumption].
    + eapply IH; eassumption.
Qed.

Lemma mapM_total {A B : Type} (f : A -> Result B) (xs : list A) :
  Forall (fun x => exists y, f x = Ok y) xs -> exists ys, mapM f xs = Ok ys.
Proof.
  induction 1 as [| x xs [y Hy] _ [ys Hys]]; simpl.
  - eexists; reflexivity.
  - rewrite Hy; simpl. rewrite Hys; simpl. eexists; reflexivity.
Qed.

Lemma mapM_fault {A B : Type} (f : A -> Result B) (xs : list A) (x : A) :
  In x xs -> (exists msg, f x = Fault msg) -> exists msg, mapM f xs = Fault msg.
Proof.
  intros Hin [msg Hx].
  induction xs as [| x0 xs IH]; simpl in *; [contradiction |].
  destruct Hin as [-> | Hin].
  - rewrite Hx; simpl. eexists; reflexivity.
  - destruct (f x0) as [y | m]; simpl; [| eexists; reflexivity].
    destruct (IH Hin) as [m' ->]; simpl. eexists; reflexivity.
Qed.

(** ** Construction and the accessors *)

Section Construction.

Context {env : Collaborators}.

Lemma Storage_ctor_Ok_inv sig types confs s :
  Storage_ctor sig types confs = Ok s ->
  exists impl,
    sig = Some impl /\
    s = {| genericSig := impl; replacementTypes := types;
           conformances := confs |} /\
    storage_aligned s.
Proof.
  unfold Storage_ctor. destruct sig as [impl |]; [| discriminate].
  intros E. ok_inv E. injection E as <-.
  apply assert_Ok_inv, Nat.eqb_eq in E0.
  apply assert_Ok_inv, Nat.eqb_eq in E1.
  exists impl. repeat split; assumption.
Qed.

Lemma SubstitutionMap_ctor_Ok_inv sig types confs M :
  SubstitutionMap_ctor sig types confs = Ok M ->
  exists impl,
    sig = Some impl /\
    M = Some {| genericSig := impl; replacementTypes := types;
                conformances := confs |} /\
    map_aligned M.
Proof.
  unfold SubstitutionMap_ctor, Storage_get. intros E. ok_inv E.
  injection E as <-.
  destruct (Storage_ctor_Ok_inv _ _ _ E0) as [impl [-> [-> Hal]]].
  exists impl. repeat split; apply Hal.
Qed.

Lemma SubstitutionMap_ctor_total impl types confs :
  length types = getNumReplacementTypes impl ->
  length confs = getNumConformanceRequirements impl ->
  (VerifyAllSubstitutionMaps = true ->
   verify (Some {| genericSig := impl; replacementTypes := types;
                   conformances := confs |}) = Ok tt) ->
  SubstitutionMap_ctor (Some impl) types confs =
  Ok (Some {| genericSig := impl; replacementTypes := types;
              conformances := confs |}).
Proof.
  intros Ht Hc Hv.
  unfold SubstitutionMap_ctor, Storage_get, Storage_ctor.
  rewrite Ht, Hc, !Nat.eqb_refl. cbn [assert bind].
  destruct VerifyAllSubstitutionMaps; [| reflexivity].
  rewrite (Hv eq_refl). reflexivity.
Qed.

End Construction.

(** C7, as the code has it.  Round trip: for a signature and arrays of
    the sizes the signature dictates such that, when the language option
    that runs [verify()] on every new map is on, [verify()] accepts the
    map, the constructor, and with it [get(sig, types, confs)], returns a
    map, and reading [getReplacementTypes()] and [getConformances()] off
    it gives back exactly [types] and [confs], element for element and in
    order. *)
Theorem get_arrays_round_trip {env : Collaborators}
        (sig : GenericSignatureImpl) (types : list Type_)
        (confs : list ProtocolConformanceRef) :
  length types = getNumReplacementTypes sig ->
  length confs = getNumConformanceRequirements sig ->
  (VerifyAllSubstitutionMaps = true ->
   verify (Some {| genericSig := sig; replacementTypes := types;
                   conformances := confs |}) = Ok tt) ->
  exists M,
    SubstitutionMap_ctor (Some sig) types confs = Ok M /\
    get_arrays (Some sig) types confs = Ok M /\
    getGenericSignature M = Some sig /\
    getReplacementTypes M = types /\
    getConformances M = confs.
Proof.
  intros Ht Hc Hv.
  eexists. split; [| split].
  - apply SubstitutionMap_ctor_total; assumption.
  - unfold get_arrays. apply SubstitutionMap_ctor_total; assumption.
  - repeat split.
Qed.

Lemma get_arrays_round_trip_witness :
  exists M,
    @SubstitutionMap_ctor (Demo.services Demo.Int false) (Some Demo.sigTP)
                          [Some Demo.Int] [Concrete Demo.IntP] = Ok M /\
    @get_arrays (Demo.services Demo.Int false) (Some Demo.sigTP)
                [Some Demo.Int] [Concrete Demo.IntP] = Ok M /\
    getGenericSignature M = Some Demo.sigTP /\
    getReplacementTypes M = [Some Demo.Int] /\
    getConformances M = [Concrete Demo.IntP].
Proof.
  apply (@get_arrays_round_trip (Demo.services Demo.Int false)).
  - reflexivity.
  - reflexivity.
  - intros _. vm_compute. reflexivity.
Defined.

(** ** subst *)

Section Subst.

Context {env : Collaborators}.

Lemma substReplacement_Ok_inv IFS type r :
  substReplacement IFS type = Ok r ->
  exists old new,
    type = Some old /\ r = Some new /\
    Type_subst IFS old = Ok (Some new) /\
    isPackType new = isPackType old.
Proof.
  unfold substReplacement. intros E. ok_inv E. injection E as <-.
  destruct type as [old |]; [| discriminate E0]. injection E0 as <-.
  destruct a0 as [new |]; [| discriminate E2]. injection E2 as <-.
  apply assert_Ok_inv, Bool.eqb_prop in E3.
  exists old, new. repeat split; [assumption | symmetry; assumption].
Qed.

Lemma substConformances_Ok_inv M IFS reqs :
  forall old out,
    substConformances M IFS reqs old = Ok out ->
    length (fst out) = length (conformanceRequirements reqs) /\
    length old = length (fst out) + length (snd out).
Proof.
  induction reqs as [| req reqs IH]; simpl; intros old out E.
  - injection E as <-. simpl. split; reflexivity.
  - destruct req; try (apply IH; assumption).
    ok_inv E. injection E as <-. simpl.
    destruct old as [| c old]; [discriminate E2 |]. injection E2 as <-.
    destruct (IH _ _ E3) as [H1 H2]. simpl. split; congruence.
Qed.

Lemma substConformances_total M IFS reqs :
  (forall ty, exists r, Type_subst_map M (getOptions IFS) ty = Ok r) ->
  (forall c, exists c', ProtocolConformance_subst c IFS = Ok c') ->
  (forall c t, exists r, ProtocolConformanceRef_subst c t IFS = Ok r) ->
  forall old,
    length old = length (conformanceRequirements reqs) ->
    exists new, substConformances M IFS reqs old = Ok (new, []).
Proof.
  intros Hts Hpc Hpr.
  induction reqs as [| req reqs IH]; simpl; intros old Hlen.
  - destruct old; [| discriminate Hlen]. eexists; reflexivity.
  - destruct req; try (apply IH; assumption).
    destruct old as [| c old]; [discriminate Hlen |].
    injection Hlen as Hlen. destruct (IH _ Hlen) as [new Hnew].
    assert (Hgen : exists r,
               (substType <- Type_subst_map M (getOptions IFS) firstType ;;
                ProtocolConformanceRef_subst c substType IFS) = Ok r).
    { destruct (Hts firstType) as [t ->]. simpl. apply Hpr. }
    unfold at_index; simpl nth_error; cbn [bind].
    destruct c as [| q | concrete | pack];
      try (destruct Hgen as [r ->]; cbn [bind slice1]; rewrite Hnew;
           eexists; reflexivity).
    destruct (negb (shouldSubstituteOpaqueArchetypes IFS)).
    + destruct (Hpc concrete) as [c' ->]. cbn [bind slice1]. rewrite Hnew.
      eexists; reflexivity.
    + destruct Hgen as [r ->]. cbn [bind slice1]. rewrite Hnew.
      eexists; reflexivity.
Qed.

Lemma subst_Ok_inv s IFS M' :
  subst (Some s) IFS = Ok M' ->
  exists newSubs newConformances,
    M' = Some {| genericSig := genericSig s; replacementTypes := newSubs;
                 conformances := newConformances |} /\
    mapM (substReplacement IFS) (replacementTypes s) = Ok newSubs /\
    length newConformances = length (conformances s).
Proof.
  unfold subst. intros E. ok_inv E.
  destruct (SubstitutionMap_ctor_Ok_inv _ _ _ E) as [impl [Hsig [-> _]]].
  injection Hsig as <-.
  apply assert_Ok_inv in E2.
  destruct (substConformances_Ok_inv _ _ _ _ E1) as [_ Hlen].
  destruct (snd a0); [| discriminate E2].
  exists a, (fst a0). repeat split; [exact E0 |].
  simpl in Hlen. rewrite Hlen. symmetry. apply Nat.add_0_r.
Qed.

End Subst.

(** C10.  [M.subst(capability)] of a non-empty map [M] returns only maps on
    the signature of [M] whose replacement types and conformances are as
    many as those of [M]; and it does return one whenever [M] has the
    storage layout, each replacement type substitutes to a type of the
    same pack-ness, the collaborators that substitute the conformances
    answer, and [verify()], if it is switched on, accepts the new map. *)
Theorem subst_keeps_signature {env : Collaborators}
        (s : Storage) (IFS : InFlightSubstitution) :
  (forall M',
      subst (Some s) IFS = Ok M' ->
      getGenericSignature M' = Some (genericSig s) /\
      length (getReplacementTypes M') = length (getReplacementTypes (Some s)) /\
      length (getConformances M') = length (getConformances (Some s))) /\
  (storage_aligned s ->
   Forall (fun t => exists old new,
               t = Some old /\ Type_subst IFS old = Ok (Some new) /\
               isPackType old = isPackType new) (replacementTypes s) ->
   (forall ty, exists r, Type_subst_map (Some s) (getOptions IFS) ty = Ok r) ->
   (forall c, exists c', ProtocolConformance_subst c IFS = Ok c') ->
   (forall c t, exists r, ProtocolConformanceRef_subst c t IFS = Ok r) ->
   (VerifyAllSubstitutionMaps = true ->
    forall types confs,
      mapM (substReplacement IFS) (replacementTypes s) = Ok types ->
      substConformances (Some s) IFS (getRequirements (genericSig s))
                        (conformances s) = Ok (confs, []) ->
      verify (Some {| genericSig := genericSig s; replacementTypes := types;
                      conformances := confs |}) = Ok tt) ->
   exists M', subst (Some s) IFS = Ok M').
Proof.
  split.
  - intros M' E.
    destruct (subst_Ok_inv _ _ E) as [newSubs [newConfs [-> [Hm Hc]]]].
    simpl. repeat split; [| exact Hc].
    apply (mapM_length _ _ Hm).
  - intros [Hal1 Hal2] Hrep Hts Hpc Hpr Hv.
    assert (Hsubs : exists types,
               mapM (substReplacement IFS) (replacementTypes s) = Ok types).
    { apply mapM_total. eapply Forall_impl; [| exact Hrep].
      intros t [old [new [-> [Hs Hp]]]]. unfold substReplacement. simpl.
      rewrite Hs. simpl. rewrite Hp, Bool.eqb_reflx. simpl.
      eexists; reflexivity. }
    destruct Hsubs as [types Htypes].
    destruct (substConformances_total (Some s) IFS
                (getRequirements (genericSig s)) Hts Hpc Hpr
                (conformances s) Hal2) as [confs Hconfs].
    unfold subst. cbn [getReplacementTypes getConformances empty
                       getGenericSignature].
    rewrite Htypes. cbn [bind]. rewrite Hconfs. cbn [bind snd fst assert].
    rewrite SubstitutionMap_ctor_total.
    + eexists; reflexivity.
    + rewrite (mapM_length _ _ Htypes). exact Hal1.
    + destruct (substConformances_Ok_inv _ _ _ _ Hconfs) as [H1 _].
      exact H1.
    + intros Hon. apply (Hv Hon); assumption.
Qed.

Lemma subst_keeps_signature_witness :
  exists M',
    @subst (Demo.services Demo.Int false) (Some Demo.storeIntP)
           Demo.identityIFS = Ok M' /\
    getGenericSignature M' = Some Demo.sigTP /\
    length (getReplacementTypes M') = 1 /\
    length (getConformances M') = 1.
Proof.
  destruct (@subst_keeps_signature (Demo.services Demo.Int false)
              Demo.storeIntP Demo.identityIFS) as [Hframe Hreturns].
  destruct Hreturns as [M' HM'].
  - split; reflexivity.
  - repeat constructor. exists Demo.Int, Demo.Int. repeat split.
  - intros ty. destruct ty; try (eexists; reflexivity).
    simpl. unfold Type_subst_map. simpl. unfold lookupGenericParam. simpl.
    destruct (GenericParamKey_eqb gp Demo.T); eexists; reflexivity.
  - intros c. eexists; reflexivity.
  - intros c t. eexists; reflexivity.
  - intros _ types confs Ht Hc.
    vm_compute in Ht. vm_compute in Hc.
    injection Ht as <-. injection Hc as <-.
    vm_compute. reflexivity.
  - exists M'. split; [exact HM' |]. apply (Hframe M' HM').
Defined.

(** ** Equality tests *)

(** Induction on types that reaches the types nested in argument lists
    and in the superclass bound of an archetype. *)
Lemma Ty_nested_ind (P : Ty -> Prop) :
  (forall gp, P (GenericTypeParam gp)) ->
  (forall base n, P base -> P (DependentMemberType base n)) ->
  (forall k r i s,
      P i -> (forall x, s = Some x -> P x) -> P (ArchetypeType k r i s)) ->
  (forall n args, Forall P args -> P (NominalType n args)) ->
  (forall ps, P (ExistentialType ps)) ->
  (forall elements, Forall P elements -> P (PackType elements)) ->
  (forall p c, P p -> P c -> P (PackExpansionType p c)) ->
  (forall i, P (TypeVariableType i)) ->
  P UnresolvedType ->
  (forall n, P (UnboundGenericType n)) ->
  P ErrorType ->
  (forall n u, P u -> P (TypeAliasType n u)) ->
  forall t, P t.
Proof.
  intros Hgp Hmember Harch Hnominal Hexist Hpack Hexp Hvar Hunres Hunbound
         Herr Halias.
  fix IH 1. intros t. destruct t as
      [gp | base n | k r i s | n args | ps | elements | p c | i | | n | | n u].
  - apply Hgp.
  - apply Hmember, IH.
  - apply Harch; [apply IH |].
    intros x Hx. destruct s as [y |]; [| discriminate Hx].
    injection Hx as <-. apply IH.
  - apply Hnominal. induction args as [| a args IHargs]; constructor;
      [apply IH | exact IHargs].
  - apply Hexist.
  - apply Hpack. induction elements as [| a elements IHel]; constructor;
      [apply IH | exact IHel].
  - apply Hexp; apply IH.
  - apply Hvar.
  - apply Hunres.
  - apply Hunbound.
  - apply Herr.
  - apply Halias, IH.
Qed.

Lemma GenericTypeParamType_eqb_eq a b :
  GenericTypeParamType_eqb a b = true <-> a = b.
Proof.
  destruct a as [pa da ia], b as [pb db ib]. unfold GenericTypeParamType_eqb.
  simpl. rewrite !andb_true_iff, !N.eqb_eq, Bool.eqb_true_iff. split.
  - intros [[-> ->] ->]. reflexivity.
  - intros E. injection E as -> -> ->. repeat split.
Qed.

Lemma ArchetypeKind_eqb_eq a b : ArchetypeKind_eqb a b = true <-> a = b.
Proof.
  destruct a, b; simpl; split; intros E; try reflexivity; discriminate E.
Qed.

Lemma list_eqb_eq {A : Type} (eqb : A -> A -> bool) :
  (forall x y, eqb x y = true <-> x = y) ->
  forall xs ys, list_eqb eqb xs ys = true <-> xs = ys.
Proof.
  intros Heqb. induction xs as [| x xs IH]; intros [| y ys]; simpl;
    try (split; intros E; [discriminate E || reflexivity
                          | discriminate E || reflexivity]).
  rewrite andb_true_iff, Heqb, IH. split.
  - intros [-> ->]. reflexivity.
  - intros E. injection E as -> ->. split; reflexivity.
Qed.

(** The comparison of two argument lists inside [Ty_eqb]. *)
Lemma Ty_list_eqb_eq (xs : list Ty) :
  Forall (fun x => forall y, Ty_eqb x y = true <-> x = y) xs ->
  forall ys,
    (fix go (l r : list Ty) {struct l} : bool :=
       match l, r with
       | [], [] => true
       | x :: l', y :: r' => Ty_eqb x y && go l' r'
       | _, _ => false
       end) xs ys = true <-> xs = ys.
Proof.
  induction 1 as [| x xs Hx _ IH]; intros [| y ys];
    try (split; intros E; [discriminate E || reflexivity
                          | discriminate E || reflexivity]).
  rewrite andb_true_iff, Hx, IH. split.
  - intros [-> ->]. reflexivity.
  - intros E. injection E as -> ->. split; reflexivity.
Qed.

Lemma Ty_eqb_eq a : forall b, Ty_eqb a b = true <-> a = b.
Proof.
  induction a as
      [gp | base n IHbase | k r i s IHi IHs | n args IHargs | ps
       | elements IHel | p c IHp IHc | i | | n | | n u IHu]
      using Ty_nested_ind;
    intros b; destruct b; simpl;
    try (split; intros E; discriminate E);
    try (split; reflexivity).
  - rewrite GenericTypeParamType_eqb_eq. split; congruence.
  - rewrite andb_true_iff, IHbase, String.eqb_eq. split.
    + intros [-> ->]. reflexivity.
    + intros E. injection E as -> ->. split; reflexivity.
  - rewrite !andb_true_iff, ArchetypeKind_eqb_eq, Bool.eqb_true_iff, IHi.
    split.
    + intros [[[-> ->] ->] Hs]. f_equal.
      destruct s as [x |], superclass as [y |]; try discriminate Hs;
        [| reflexivity].
      f_equal. apply (IHs x eq_refl). exact Hs.
    + intros E. injection E as -> -> -> ->. repeat split.
      destruct superclass as [y |]; [| reflexivity].
      apply (IHs y eq_refl). reflexivity.
  - rewrite andb_true_iff, String.eqb_eq, (Ty_list_eqb_eq IHargs). split.
    + intros [-> ->]. reflexivity.
    + intros E. injection E as -> ->. split; reflexivity.
  - rewrite (list_eqb_eq String.eqb String.eqb_eq). split; congruence.
  - rewrite (Ty_list_eqb_eq IHel). split; congruence.
  - rewrite andb_true_iff, IHp, IHc. split.
    + intros [-> ->]. reflexivity.
    + intros E. injection E as -> ->. split; reflexivity.
  - rewrite N.eqb_eq. split; congruence.
  - rewrite String.eqb_eq. split; congruence.
  - rewrite andb_true_iff, String.eqb_eq, IHu. split.
    + intros [-> ->]. reflexivity.
    + intros E. injection E as -> ->. split; reflexivity.
Qed.

(** [isEqual] is equality of canonical types. *)
Lemma isEqual_spec a b :
  isEqual a b = true <-> getCanonicalType a = getCanonicalType b.
Proof.
  apply Ty_eqb_eq.
Qed.

Lemma InvertibleProtocolKind_eqb_eq a b :
  InvertibleProtocolKind_eqb a b = true <-> a = b.
Proof.
  destruct a, b; simpl; split; intros E; try reflexivity; discriminate E.
Qed.

Lemma ProtocolDecl_eqb_eq p q : ProtocolDecl_eqb p q = true <-> p = q.
Proof.
  destruct p as [n k], q as [m l]. unfold ProtocolDecl_eqb. simpl.
  rewrite andb_true_iff, String.eqb_eq. split.
  - intros [-> Hk]. f_equal.
    destruct k as [a |], l as [b |]; try discriminate Hk; [| reflexivity].
    apply InvertibleProtocolKind_eqb_eq in Hk. congruence.
  - intros E. injection E as -> ->. split; [reflexivity |].
    destruct l as [b |]; [| reflexivity].
    apply InvertibleProtocolKind_eqb_eq. reflexivity.
Qed.

(** ** First matches in a list *)

Lemma first_match {A : Type} (f : A -> bool) (l : list A) :
  (exists x, In x l /\ f x = true) ->
  exists i x,
    nth_error l i = Some x /\ f x = true /\
    forall j y, j < i -> nth_error l j = Some y -> f y = false.
Proof.
  induction l as [| a l IH]; intros [x [Hin Hx]]; [destruct Hin |].
  destruct (f a) eqn:Ha.
  - exists 0, a. repeat split; [assumption |]. intros j y Hj. lia.
  - destruct Hin as [-> | Hin]; [congruence |].
    destruct IH as [i [x' [Hn [Hf Hfirst]]]]; [exists x; split; assumption |].
    exists (S i), x'. repeat split; [assumption .. |].
    intros [| j] y Hj Hy; simpl in Hy.
    + congruence.
    + apply (Hfirst j); [lia | assumption].
Qed.

(** ** lookupConformance *)

Section LookupConformance.

Context {env : Collaborators}.

(** The scan answers with the conformance stored at the position of the
    first conformance requirement that states the query. *)
Lemma scanRequirements_first stored type proto reqs :
  forall index i req,
    nth_error (conformanceRequirements reqs) i = Some req ->
    statesConformance type proto req = true ->
    (forall j y, j < i -> nth_error (conformanceRequirements reqs) j = Some y ->
                 statesConformance type proto y = false) ->
    scanRequirements stored type proto reqs index =
    (c <- at_index stored (index + i) ;; Ok (Some c)).
Proof.
  induction reqs as [| r reqs IH]; intros index i req Hn Hreq Hfirst.
  - destruct i; discriminate Hn.
  - destruct r as [first p | | | |]; simpl in *;
      try (apply (IH index i req); assumption).
    destruct i as [| i]; simpl in Hn.
    + injection Hn as <-. unfold statesConformance in Hreq. simpl in Hreq.
      rewrite Hreq, Nat.add_0_r. reflexivity.
    + assert (Hno : statesConformance type proto (first, p) = false)
        by (apply (Hfirst 0); [lia | reflexivity]).
      unfold statesConformance in Hno. simpl in Hno. rewrite Hno.
      rewrite IH with (i := i) (req := req); [| assumption ..|].
      * f_equal. f_equal. lia.
      * intros j y Hj Hy. apply (Hfirst (S j)); [lia | exact Hy].
Qed.

Lemma scanRequirements_none stored type proto reqs :
  forall index,
    (forall y, In y (conformanceRequirements reqs) ->
               statesConformance type proto y = false) ->
    scanRequirements stored type proto reqs index = Ok None.
Proof.
  induction reqs as [| r reqs IH]; intros index Hno; [reflexivity |].
  destruct r as [first p | | | |]; simpl in *; try (apply IH; assumption).
  assert (H0 : statesConformance type proto (first, p) = false)
    by (apply Hno; left; reflexivity).
  unfold statesConformance in H0. simpl in H0. rewrite H0.
  apply IH. intros y Hy. apply Hno. right. exact Hy.
Qed.

Lemma isTypeParameter_not_archetype type :
  isTypeParameter type = true -> mapArchetypeOutOfContext type = type.
Proof.
  destruct type; simpl; intros E; try reflexivity; discriminate E.
Qed.

Lemma walkPath_continues s type proto c steps c' :
  continues s type proto c steps c' ->
  forall rest,
    walkPath s type proto c (steps ++ rest) = walkPath s type proto c' rest.
Proof.
  induction 1 as [c | c step c' steps c'' Hstep _ IH]; intros rest.
  - reflexivity.
  - simpl. rewrite Hstep. simpl. apply IH.
Qed.

(** When the signature does not state the query, requires the protocol
    and the protocol is not invertible, the answer is that of the loop
    over the conformance path. *)
Lemma lookupConformance_general_case s type proto :
  let ty := mapArchetypeOutOfContext type in
  isTypeParameter ty = true ->
  getSignatureConformance s ty proto = Ok None ->
  requiresProtocol (genericSig s) ty proto = true ->
  getInvertibleProtocolKind proto = None ->
  lookupConformance (Some s) type proto =
  walkPath s ty proto Invalid (getConformancePath (genericSig s) ty proto).
Proof.
  intros ty Htp Hdirect Hreq Hinv. unfold lookupConformance. fold ty.
  rewrite Htp, Hdirect. cbn [negb bind]. rewrite Hreq, Hinv. reflexivity.
Qed.

End LookupConformance.

(** C1.  Fast path: when the signature of a non-empty map directly states
    the conformance requirement [(T, P)] for a type parameter [T],
    [lookupConformance(T, P)] returns the conformance stored at the
    ordinal position of that requirement among the conformance
    requirements, the first such requirement in declaration order: the
    stored value itself. *)
Theorem lookupConformance_direct {env : Collaborators}
        (s : Storage) (type : Ty) (proto : ProtocolDecl) :
  storage_aligned s ->
  isTypeParameter type = true ->
  (exists first,
      In (first, proto) (conformanceRequirements (getRequirements (genericSig s)))
      /\ isEqual first type = true) ->
  exists i first c,
    nth_error (conformanceRequirements (getRequirements (genericSig s))) i
    = Some (first, proto) /\
    isEqual first type = true /\
    (forall j first',
        j < i ->
        nth_error (conformanceRequirements (getRequirements (genericSig s))) j
        = Some (first', proto) ->
        isEqual first' type = false) /\
    nth_error (getConformances (Some s)) i = Some c /\
    lookupConformance (Some s) type proto = Ok c.
Proof.
  intros [_ Hal] Htp [first [Hin Heq]].
  destruct (first_match (statesConformance type proto)
              (conformanceRequirements (getRequirements (genericSig s))))
    as [i [[first' p'] [Hn [Hm Hfirst]]]].
  { exists (first, proto). split; [exact Hin |].
    unfold statesConformance. simpl. rewrite Heq.
    apply ProtocolDecl_eqb_eq. reflexivity. }
  pose proof Hm as Hm'. unfold statesConformance in Hm'. simpl in Hm'.
  apply andb_true_iff in Hm'. destruct Hm' as [Heq' Hp].
  apply ProtocolDecl_eqb_eq in Hp. subst p'.
  assert (Hi : i < length (conformances s)).
  { rewrite Hal. unfold getNumConformanceRequirements.
    apply nth_error_Some. rewrite Hn. discriminate. }
  destruct (nth_error (conformances s) i) as [c |] eqn:Hc;
    [| apply nth_error_None in Hc; lia].
  exists i, first', c. repeat split; try assumption.
  - intros j f' Hj Hy.
    pose proof (Hfirst j (f', proto) Hj Hy) as Hno.
    unfold statesConformance in Hno. simpl in Hno.
    apply andb_false_iff in Hno. destruct Hno as [Hno | Hno]; [exact Hno |].
    assert (Hrefl : ProtocolDecl_eqb proto proto = true)
      by (apply ProtocolDecl_eqb_eq; reflexivity).
    congruence.
  - unfold lookupConformance.
    rewrite (isTypeParameter_not_archetype _ Htp), Htp. cbn [negb].
    unfold getSignatureConformance.
    rewrite scanRequirements_first with (i := i) (req := (first', proto));
      [| assumption ..].
    unfold at_index. simpl. rewrite Hc. reflexivity.
Qed.

Lemma lookupConformance_direct_witness :
  exists i first c,
    nth_error (conformanceRequirements
                 (getRequirements (genericSig Demo.storeIntP))) i
    = Some (first, Demo.P) /\
    isEqual first (GenericTypeParam Demo.T) = true /\
    (forall j first',
        j < i ->
        nth_error (conformanceRequirements
                     (getRequirements (genericSig Demo.storeIntP))) j
        = Some (first', Demo.P) ->
        isEqual first' (GenericTypeParam Demo.T) = false) /\
    nth_error (getConformances (Some Demo.storeIntP)) i = Some c /\
    @lookupConformance (Demo.services Demo.Int false) (Some Demo.storeIntP)
                       (GenericTypeParam Demo.T) Demo.P = Ok c.
Proof.
  apply (@lookupConformance_direct (Demo.services Demo.Int false)).
  - split; reflexivity.
  - reflexivity.
  - exists (GenericTypeParam Demo.T). split; [left; reflexivity | reflexivity].
Defined.

(** C2.  In the path walk, once the current conformance is abstract and a
    step remains, the result is decided by the queried type substituted
    through the map: an abstract conformance to the protocol when the
    substituted type has an error; otherwise the answer of the global
    conformance lookup for the substituted type and the protocol when that
    type is not a type parameter, not an existential type, and either not
    an archetype or an archetype with a superclass bound; in every other
    case an abstract conformance to the protocol. *)
Theorem lookupConformance_abstract_step {env : Collaborators}
        (s : Storage) (type : Ty) (proto q : ProtocolDecl)
        (steps rest : list (Ty * ProtocolDecl)) (step : Ty * ProtocolDecl)
        (substType : Ty) :
  let ty := mapArchetypeOutOfContext type in
  isTypeParameter ty = true ->
  getSignatureConformance s ty proto = Ok None ->
  requiresProtocol (genericSig s) ty proto = true ->
  getInvertibleProtocolKind proto = None ->
  getConformancePath (genericSig s) ty proto = steps ++ step :: rest ->
  continues s ty proto Invalid steps (Abstract q) ->
  Type_subst_map (Some s) noOptions ty = Ok (Some substType) ->
  lookupConformance (Some s) type proto =
  Ok (if hasError substType then Abstract proto
      else if negb (isTypeParameter substType) &&
              negb (isExistentialType substType) &&
              (negb (isArchetypeType substType) ||
               archetypeHasSuperclass substType)
           then lookupConformance_global substType proto
           else Abstract proto).
Proof.
  intros ty Htp Hdirect Hreq Hinv Hpath Hsteps Hsubst.
  rewrite lookupConformance_general_case by assumption. fold ty.
  rewrite Hpath, (walkPath_continues Hsteps). simpl.
  rewrite Hsubst. simpl.
  destruct (hasError substType); [reflexivity |].
  destruct (isArchetypeType substType), (archetypeHasSuperclass substType),
    (isTypeParameter substType), (isExistentialType substType); reflexivity.
Qed.

Lemma lookupConformance_abstract_step_witness :
  @lookupConformance (Demo.services Demo.Int false) (Some Demo.storeIdentityP)
                     Demo.T_A Demo.Q =
  Ok (Concrete {| getKind := Normal; getType := Demo.Int;
                  getProtocol := Demo.Q; getDeclContext := "module"%string |}).
Proof.
  apply (@lookupConformance_abstract_step (Demo.services Demo.Int false)
           Demo.storeIdentityP Demo.T_A Demo.Q Demo.P
           [(GenericTypeParam Demo.T, Demo.P)] [] (Demo.Self_A, Demo.Q)
           Demo.Int).
  - reflexivity.
  - reflexivity.
  - reflexivity.
  - reflexivity.
  - reflexivity.
  - eapply continues_cons; [reflexivity | apply continues_nil].
  - reflexivity.
Defined.

Section AssociatedConformanceInFlight.

Context {env : Collaborators}.

Variable assoc :
  ProtocolConformance -> Ty -> ProtocolDecl -> ProtocolConformanceRef.

(** [assoc] computes the associated conformances as the collaborators do
    for every conformance whose resolution is not in flight. *)
Hypothesis assoc_agrees :
  forall concrete depTy proto,
    resolutionInFlight concrete = false ->
    assoc concrete depTy proto = getAssociatedConformance concrete depTy proto.

(** One step of the walk never asks a conformance whose resolution is in
    flight for an associated conformance. *)
Lemma pathStep_withAssociatedConformance s type proto c step :
  @pathStep (withAssociatedConformance env assoc) s type proto c step
  = pathStep s type proto c step.
Proof.
  destruct c as [| p | concrete | pack]; try reflexivity.
  unfold pathStep. cbn [withAssociatedConformance getRootNormalConformance
                        hasComputedAssociatedConformances hasActiveRequest
                        getAssociatedConformance].
  destruct (negb (hasComputedAssociatedConformances
                    (getRootNormalConformance concrete))
            && hasActiveRequest
                 (ResolveTypeWitnessesRequest
                    (getRootNormalConformance concrete))) eqn:Hguard.
  - reflexivity.
  - rewrite (assoc_agrees concrete (fst step) (snd step) Hguard).
    reflexivity.
Qed.

Lemma walkPath_withAssociatedConformance s type proto path :
  forall c,
    @walkPath (withAssociatedConformance env assoc) s type proto c path
    = walkPath s type proto c path.
Proof.
  induction path as [| step rest IH]; intros c.
  - reflexivity.
  - cbn [walkPath]. rewrite pathStep_withAssociatedConformance.
    destruct (pathStep s type proto c step) as [[result | c'] | msg];
      cbn [bind]; [reflexivity | apply IH | reflexivity].
Qed.

(** The whole query is the same under both computations. *)
Lemma lookupConformance_withAssociatedConformance M type proto :
  @lookupConformance (withAssociatedConformance env assoc) M type proto
  = lookupConformance M type proto.
Proof.
  destruct M as [s |]; [| reflexivity].
  unfold lookupConformance.
  cbn [withAssociatedConformance requiresProtocol getConformancePath
       forMissingOrInvalid lookupConformance_global].
  destruct (negb (isTypeParameter (mapArchetypeOutOfContext type)));
    [reflexivity |].
  destruct (getSignatureConformance s (mapArchetypeOutOfContext type) proto)
    as [[c |] | msg]; cbn [bind]; try reflexivity.
  destruct (requiresProtocol (genericSig s) (mapArchetypeOutOfContext type)
                             proto); [| reflexivity].
  destruct (getInvertibleProtocolKind proto); [reflexivity |].
  apply walkPath_withAssociatedConformance.
Qed.

End AssociatedConformanceInFlight.



(** ** lookupSubstitution *)

Lemma GenericParamKey_eqb_eq a b :
  GenericParamKey_eqb a b = true <->
  getDepth a = getDepth b /\ getIndex a = getIndex b.
Proof.
  unfold GenericParamKey_eqb. rewrite andb_true_iff, !N.eqb_eq. reflexivity.
Qed.

Lemma findIndexIn_absent key params :
  (forall p, In p params -> GenericParamKey_eqb key p = false) ->
  findIndexIn key params = length params.
Proof.
  induction params as [| p params IH]; intros Hno; [reflexivity |].
  simpl. rewrite (Hno p) by (left; reflexivity).
  f_equal. apply IH. intros q Hq. apply Hno. right. exact Hq.
Qed.

Lemma findIndexIn_first key params :
  forall i p,
    nth_error params i = Some p ->
    GenericParamKey_eqb key p = true ->
    (forall j q, j < i -> nth_error params j = Some q ->
                 GenericParamKey_eqb key q = false) ->
    findIndexIn key params = i.
Proof.
  induction params as [| p0 params IH]; intros i p Hn Hp Hfirst.
  - destruct i; discriminate Hn.
  - destruct i as [| i]; simpl in *.
    + injection Hn as <-. rewrite Hp. reflexivity.
    + rewrite (Hfirst 0 p0) by (lia || reflexivity).
      f_equal. apply (IH i p Hn Hp).
      intros j q Hj Hq. apply (Hfirst (S j)); [lia | exact Hq].
Qed.

(** C4.  [lookupSubstitution] on a non-empty map: an archetype that is not
    a root, or whose kind is neither primary nor pack, has no replacement;
    a root primary or pack archetype is looked up as its canonical generic
    parameter; a generic parameter whose [(depth, index)] key no parameter
    of the signature has has no replacement; otherwise the answer is the
    entry of the replacement types at the position of the parameter with
    that key. *)
Theorem lookupSubstitution_spec (s : Storage) :
  storage_aligned s ->
  (forall kind interfaceType superclass,
      lookupSubstitution (Some s)
        (ArchetypeType kind false interfaceType superclass) = Ok None) /\
  (forall kind root interfaceType superclass,
      kind <> PrimaryArchetypeType -> kind <> PackArchetypeType ->
      lookupSubstitution (Some s)
        (ArchetypeType kind root interfaceType superclass) = Ok None) /\
  (forall kind interfaceType superclass gp,
      kind = PrimaryArchetypeType \/ kind = PackArchetypeType ->
      getCanonicalType interfaceType = GenericTypeParam gp ->
      lookupSubstitution (Some s)
        (ArchetypeType kind true interfaceType superclass) =
      lookupSubstitution (Some s) (GenericTypeParam gp)) /\
  (forall gp,
      (forall p, In p (getGenericParams (genericSig s)) ->
                 ~ (getDepth gp = getDepth p /\ getIndex gp = getIndex p)) ->
      lookupSubstitution (Some s) (GenericTypeParam gp) = Ok None) /\
  (forall gp i p,
      nth_error (getGenericParams (genericSig s)) i = Some p ->
      getDepth gp = getDepth p /\ getIndex gp = getIndex p ->
      (forall j q, j < i ->
                   nth_error (getGenericParams (genericSig s)) j = Some q ->
                   ~ (getDepth gp = getDepth q /\ getIndex gp = getIndex q)) ->
      exists replacement,
        nth_error (getReplacementTypes (Some s)) i = Some replacement /\
        lookupSubstitution (Some s) (GenericTypeParam gp) = Ok replacement).
Proof.
  intros [Hal _]. repeat split.
  - intros kind root interfaceType superclass Hprimary Hpack.
    simpl. destruct root; [| reflexivity].
    destruct kind; try reflexivity; congruence.
  - intros kind interfaceType superclass gp Hkind Hcanon. simpl.
    rewrite Hcanon. destruct Hkind as [-> | ->]; reflexivity.
  - intros gp Hno. simpl.
    rewrite findIndexIn_absent, Nat.eqb_refl; [reflexivity |].
    intros p Hp. specialize (Hno p Hp).
    destruct (GenericParamKey_eqb gp p) eqn:E; [| reflexivity].
    apply GenericParamKey_eqb_eq in E. contradiction.
  - intros gp i p Hn Hkey Hfirst. simpl.
    rewrite (findIndexIn_first gp _ Hn).
    + assert (Hi : i < length (getGenericParams (genericSig s)))
        by (apply nth_error_Some; rewrite Hn; discriminate).
      destruct (Nat.eqb_spec i (length (getGenericParams (genericSig s))));
        [lia |].
      unfold at_index.
      destruct (nth_error (replacementTypes s) i) as [r |] eqn:Hr.
      * exists r. split; reflexivity.
      * apply nth_error_None in Hr. unfold getNumReplacementTypes in Hal. lia.
    + apply GenericParamKey_eqb_eq. exact Hkey.
    + intros j q Hj Hq. specialize (Hfirst j q Hj Hq).
      destruct (GenericParamKey_eqb gp q) eqn:E; [| reflexivity].
      apply GenericParamKey_eqb_eq in E. contradiction.
Qed.

Lemma lookupSubstitution_spec_witness :
  lookupSubstitution (Some Demo.storeIntP)
    (ArchetypeType PrimaryArchetypeType true (GenericTypeParam Demo.T) None)
  = Ok (Some Demo.Int) /\
  lookupSubstitution (Some Demo.storeIntP) (GenericTypeParam Demo.U) = Ok None.
Proof.
  destruct (@lookupSubstitution_spec Demo.storeIntP)
    as [_ [_ [Harchetype [Habsent Hpresent]]]].
  - split; reflexivity.
  - split.
    + rewrite (Harchetype PrimaryArchetypeType (GenericTypeParam Demo.T)
                          None Demo.T (or_introl eq_refl) eq_refl).
      destruct (Hpresent Demo.T 0 Demo.T) as [r [Hr ->]].
      * reflexivity.
      * split; reflexivity.
      * intros j q Hj. lia.
      * simpl in Hr. injection Hr as <-. reflexivity.
    + apply Habsent. intros p [<- | []] [Hdepth _]. discriminate Hdepth.
Defined.

(** ** isIdentity *)

Lemma conformanceIsIdentity_spec conf :
  conformanceIsIdentity conf = true <->
  (exists p, conf = Abstract p) \/
  (exists ty p q, conf = Pack (MkPackConformance ty p [Abstract q])).
Proof.
  split.
  - destruct conf as [| p | c | [ty p patterns]]; simpl; intros E;
      try discriminate E.
    + left. exists p. reflexivity.
    + right. destruct patterns as [| c [| c' rest]]; try discriminate E.
      destruct c as [| q | |]; try discriminate E.
      exists ty, p, q. reflexivity.
  - intros [[p ->] | [ty [p [q ->]]]]; reflexivity.
Qed.

Section IsIdentity.

Context {env : Collaborators}.

Lemma forEachParamIdentity_rest sig params :
  forall position replacements flag out,
    length replacements = length params ->
    forEachParamIdentity sig params position replacements flag = Ok out ->
    fst out = [].
Proof.
  induction params as [| paramTy params IH];
    intros position replacements flag out Hlen E; simpl in E.
  - injection E as <-. destruct replacements; [reflexivity | discriminate Hlen].
  - ok_inv E. destruct replacements as [| r rs]; [discriminate E1 |].
    injection E1 as <-. injection Hlen as Hlen.
    apply (IH _ _ _ _ Hlen E).
Qed.

(** The loop ends with the flag down exactly when it started with the flag
    down and every canonical position holds the wrapped parameter. *)
Lemma forEachParamIdentity_spec sig params :
  forall position replacements flag,
    length replacements = length params ->
    (exists rest,
        forEachParamIdentity sig params position replacements flag
        = Ok (rest, false)) <->
    (flag = false /\
     forall k paramTy,
       nth_error params k = Some paramTy ->
       paramIsCanonical sig (position + k) = true ->
       exists r,
         nth_error replacements k = Some (Some r) /\
         isEqual (wrappedParamTy paramTy) r = true).
Proof.
  induction params as [| paramTy params IH];
    intros position replacements flag Hlen; simpl.
  - split.
    + intros [rest E]. injection E as _ ->. split; [reflexivity |].
      intros k p Hk. destruct k; discriminate Hk.
    + intros [-> _]. eexists; reflexivity.
  - destruct replacements as [| r0 rs]; [discriminate Hlen |].
    injection Hlen as Hlen. unfold at_index. cbn [nth_error slice1].
    destruct (paramIsCanonical sig position) eqn:Hcanon.
    + destruct r0 as [other |]; cbn [deref bind].
      * rewrite (IH (S position) rs _ Hlen).
        destruct (isEqual (wrappedParamTy paramTy) other) eqn:Heq; cbn [negb].
        -- split.
           ++ intros [-> Hall]. split; [reflexivity |].
              intros [| k] p Hk Hc; simpl in Hk.
              ** injection Hk as <-. exists other. split; [reflexivity | exact Heq].
              ** apply (Hall k p Hk).
                 replace (S position + k) with (position + S k) by lia. exact Hc.
           ++ intros [-> Hall]. split; [reflexivity |].
              intros k p Hk Hc. apply (Hall (S k) p Hk).
              replace (position + S k) with (S position + k) by lia. exact Hc.
        -- split.
           ++ intros [Habs _]. discriminate Habs.
           ++ intros [_ Hall].
              destruct (Hall 0 paramTy eq_refl) as [r [Hr Hr']].
              { rewrite Nat.add_0_r. exact Hcanon. }
              simpl in Hr. injection Hr as <-. congruence.
      * split.
        -- intros [rest E]. discriminate E.
        -- intros [_ Hall].
           destruct (Hall 0 paramTy eq_refl) as [r [Hr _]].
           { rewrite Nat.add_0_r. exact Hcanon. }
           discriminate Hr.
    + cbn [bind]. rewrite (IH (S position) rs _ Hlen). split.
      * intros [-> Hall]. split; [reflexivity |].
        intros [| k] p Hk Hc; simpl in Hk.
        -- rewrite Nat.add_0_r in Hc. congruence.
        -- apply (Hall k p Hk).
           replace (S position + k) with (position + S k) by lia. exact Hc.
      * intros [-> Hall]. split; [reflexivity |].
        intros k p Hk Hc. apply (Hall (S k) p Hk).
        replace (position + S k) with (S position + k) by lia. exact Hc.
Qed.

End IsIdentity.

(** C6.  [isIdentity()] returns true if and only if every stored
    conformance is abstract, or a pack conformance whose pattern
    conformances are exactly one abstract conformance, and at every
    position that [forEachParam] reports as canonical the replacement type
    is equal to the generic parameter of that position, a pack parameter
    being wrapped in a singleton pack expansion first; the other positions
    are not looked at. *)
Theorem isIdentity_spec {env : Collaborators} (M : SubstitutionMap) :
  map_aligned M ->
  (isIdentity M = Ok true <->
   (forall conf,
       In conf (getConformances M) ->
       (exists p, conf = Abstract p) \/
       (exists ty p q, conf = Pack (MkPackConformance ty p [Abstract q]))) /\
   (forall sig i paramTy,
       getGenericSignature M = Some sig ->
       nth_error (getGenericParams sig) i = Some paramTy ->
       paramIsCanonical sig i = true ->
       exists r,
         nth_error (getReplacementTypes M) i = Some (Some r) /\
         isEqual (if isParameterPack paramTy
                  then getSingletonPackExpansion (GenericTypeParam paramTy)
                  else GenericTypeParam paramTy) r = true)).
Proof.
  destruct M as [s |]; simpl.
  - intros [Hal _].
    pose proof (forEachParamIdentity_spec (genericSig s)
                  (getGenericParams (genericSig s)) 0 (replacementTypes s)
                  false Hal) as Hloop.
    assert (Hconfs :
              forallb conformanceIsIdentity (conformances s) = true <->
              (forall conf,
                  In conf (conformances s) ->
                  (exists p, conf = Abstract p) \/
                  (exists ty p q,
                      conf = Pack (MkPackConformance ty p [Abstract q])))).
    { rewrite forallb_forall. split; intros H conf Hin.
      - apply conformanceIsIdentity_spec, H, Hin.
      - apply conformanceIsIdentity_spec, H, Hin. }
    split.
    + intros E.
      destruct (forallb conformanceIsIdentity (conformances s)) eqn:Hall;
        [| discriminate E].
      cbn [negb] in E. ok_inv E. injection E as E.
      apply negb_true_iff in E. destruct a as [rest flag]. simpl in E. subst flag.
      split; [apply Hconfs; reflexivity |].
      intros sig i paramTy Hsig Hn Hcanon. injection Hsig as <-.
      destruct Hloop as [Hloop _].
      destruct Hloop as [_ Hparams]; [exists rest; exact E0 |].
      apply (Hparams i paramTy Hn Hcanon).
    + intros [Hc Hp]. apply Hconfs in Hc. rewrite Hc. cbn [negb].
      destruct Hloop as [_ Hloop].
      destruct Hloop as [rest Hrest].
      { split; [reflexivity |]. intros k paramTy Hn Hcanon.
        apply (Hp (genericSig s) k paramTy eq_refl Hn Hcanon). }
      rewrite Hrest. cbn [bind fst snd].
      pose proof (forEachParamIdentity_rest _ _ _ _ _ Hal Hrest) as Hnil.
      simpl in Hnil. subst rest. reflexivity.
  - intros _. split; [| reflexivity].
    intros _. split.
    + intros conf [].
    + intros sig i paramTy Hsig. discriminate Hsig.
Qed.

Lemma isIdentity_spec_witness :
  @isIdentity (Demo.services Demo.Int false) (Some Demo.storeIdentityP)
  = Ok true.
Proof.
  apply (@isIdentity_spec (Demo.services Demo.Int false)
                          (Some Demo.storeIdentityP)).
  - split; reflexivity.
  - split.
    + intros conf [<- | []]. left. exists Demo.P. reflexivity.
    + intros sig i paramTy Hsig Hn _. injection Hsig as <-.
      destruct i as [| [| i]]; try discriminate Hn.
      injection Hn as <-. exists (GenericTypeParam Demo.T).
      split; reflexivity.
Defined.

(** The identity law on [<T>]: [T := T] is an identity map, [T := Int] is
    not. *)
Example isIdentity_law :
  @isIdentity (Demo.services Demo.Int false)
    (Some {| genericSig := Demo.sigT;
             replacementTypes := [Some (GenericTypeParam Demo.T)];
             conformances := [] |}) = Ok true /\
  @isIdentity (Demo.services Demo.Int false)
    (Some {| genericSig := Demo.sigT; replacementTypes := [Some Demo.Int];
             conformances := [] |}) = Ok false.
Proof.
  split; reflexivity.
Qed.

(** ** combineSubstitutionMaps *)

Lemma add_sub_u32_exact (a b c : N) :
  (c <= a)%N -> (a + b - c < 2 ^ 32)%N -> add_sub_u32 a b c = (a + b - c)%N.
Proof.
  intros Hle Hlt. unfold add_sub_u32, wrap32.
  rewrite Z2N.id by (apply Z.mod_pos_bound; reflexivity).
  rewrite Zminus_mod_idemp_l.
  replace (Z.of_N a + Z.of_N b - Z.of_N c)%Z with (Z.of_N (a + b - c)) by lia.
  rewrite Z.mod_small; [apply N2Z.id |].
  split; [lia |]. change (2 ^ 32)%Z with (Z.of_N (2 ^ 32)). lia.
Qed.

(** ** verify *)

Section Verify.

Context {env : Collaborators}.

Lemma verifyRequirement_spec M first position :
  position < length (getConformances M) ->
  (verifyRequirement M first position = Ok tt <->
   exists substType,
     Type_subst_map M noOptions first = Ok (Some substType) /\
     checkedAt M position substType).
Proof.
  intros Hpos. unfold verifyRequirement, checkedAt, isFullyConcrete.
  destruct (Type_subst_map M noOptions first) as [[substType |] | msg];
    cbn [bind deref].
  2, 3: split; [intros E; discriminate E
               | intros [st [E _]]; discriminate E].
  destruct (isTypeParameter substType || isArchetypeType substType ||
            isTypeVariableOrMember substType || isUnresolvedType substType ||
            hasError substType) eqn:Hskip.
  - split; [| reflexivity]. intros _. exists substType.
    split; [reflexivity |]. intros Hconcrete. exfalso.
    destruct (isTypeParameter substType), (isArchetypeType substType),
      (isTypeVariableOrMember substType), (isUnresolvedType substType),
      (hasError substType); discriminate.
  - unfold at_index.
    destruct (nth_error (getConformances M) position) as [conformance |] eqn:Hn;
      [| apply nth_error_None in Hn; lia].
    cbn [bind].
    assert (Hconcrete :
              negb (isTypeParameter substType) &&
              negb (isArchetypeType substType) &&
              negb (isTypeVariableOrMember substType) &&
              negb (isUnresolvedType substType) &&
              negb (hasError substType) = true).
    { destruct (isTypeParameter substType), (isArchetypeType substType),
        (isTypeVariableOrMember substType), (isUnresolvedType substType),
        (hasError substType); try discriminate Hskip; reflexivity. }
    destruct conformance as [| q | concrete | pack].
    + split; [| reflexivity]. intros _. exists substType.
      split; [reflexivity |]. intros _ c Hc Hne. congruence.
    + split; [intros E; discriminate E |].
      intros [st [Est Hchk]]. injection Est as <-.
      destruct (Hchk Hconcrete (Abstract q) eq_refl) as [c [Hc _]];
        [discriminate | discriminate Hc].
    + unfold conformanceTypeFor.
      destruct (isUnboundGenericType substType) eqn:Hunbound.
      * split; [| reflexivity]. intros _. exists substType.
        split; [reflexivity |]. intros _ c Hc _. injection Hc as <-.
        exists concrete. split; [reflexivity |]. intros Habs. congruence.
      * split.
        -- intros E. exists substType. split; [reflexivity |].
           intros _ c Hc _. injection Hc as <-. exists concrete.
           split; [reflexivity |]. intros _.
           match goal with
           | |- ?x = true /\ _ => destruct x eqn:Heq; [| discriminate E]
           end.
           split; [reflexivity |]. intros Hex. cbn [assert bind] in E.
           rewrite Hex in E. apply assert_Ok_inv in E. exact E.
        -- intros [st [Est Hchk]]. injection Est as <-.
           destruct (Hchk Hconcrete (Concrete concrete) eq_refl)
             as [c [Hc Hrest]]; [discriminate |].
           injection Hc as <-. destruct (Hrest Hunbound) as [Heq Hself].
           rewrite Heq. cbn [assert bind].
           destruct (isExistentialType substType); [| reflexivity].
           rewrite (Hself eq_refl). reflexivity.
    + split; [intros E; discriminate E |].
      intros [st [Est Hchk]]. injection Est as <-.
      destruct (Hchk Hconcrete (Pack pack) eq_refl) as [c [Hc _]];
        [discriminate | discriminate Hc].
Qed.

Lemma verifyRequirements_spec M reqs :
  forall index,
    index + length (conformanceRequirements reqs)
    <= length (getConformances M) ->
    (verifyRequirements M reqs index = Ok tt <->
     forall i first proto,
       nth_error (conformanceRequirements reqs) i = Some (first, proto) ->
       exists substType,
         Type_subst_map M noOptions first = Ok (Some substType) /\
         checkedAt M (index + i) substType).
Proof.
  induction reqs as [| req reqs IH]; intros index Hlen; simpl.
  - split; [| reflexivity]. intros _ i first proto Hn.
    destruct i; discriminate Hn.
  - destruct req as [first0 p0 | | | |]; simpl in Hlen;
      try (apply IH; exact Hlen).
    split.
    + intros E. ok_inv E. destruct a.
      apply verifyRequirement_spec in E0; [| lia].
      intros [| i] first proto Hn; simpl in Hn.
      * injection Hn as <- <-. rewrite Nat.add_0_r. exact E0.
      * replace (index + S i) with (S index + i) by lia.
        apply (proj1 (IH (S index) ltac:(lia)) E i first proto Hn).
    + intros Hall.
      assert (H0 : verifyRequirement M first0 index = Ok tt).
      { apply verifyRequirement_spec; [lia |].
        specialize (Hall 0 first0 p0 eq_refl).
        rewrite Nat.add_0_r in Hall. exact Hall. }
      rewrite H0. cbn [bind]. apply IH; [lia |].
      intros i first proto Hn.
      replace (S index + i) with (index + S i) by lia.
      apply (Hall (S i) first proto Hn).
Qed.

End Verify.

(** C9, as the code has it.  On a non-empty map, [verify()] passes exactly
    when, for every conformance requirement, the dependent type
    substitutes to a type and, if that type is fully concrete and the
    conformance stored at the position of the requirement is not invalid,
    the stored conformance is concrete and, unless the substituted type is
    an unbound generic type, the type of the concrete conformance (mapped
    into its context when it mentions type parameters and the substituted
    type does not) is equal to the substituted type and an existential
    substituted type has a self-conformance.  An invalid stored
    conformance is passed over. *)
Theorem verify_spec {env : Collaborators} (s : Storage) :
  storage_aligned s ->
  (verify (Some s) = Ok tt <->
   forall i first proto,
     nth_error (conformanceRequirements (getRequirements (genericSig s))) i
     = Some (first, proto) ->
     exists substType,
       Type_subst_map (Some s) noOptions first = Ok (Some substType) /\
       (isFullyConcrete substType = true ->
        forall conformance,
          nth_error (getConformances (Some s)) i = Some conformance ->
          conformance <> Invalid ->
          exists concrete,
            conformance = Concrete concrete /\
            (isUnboundGenericType substType = false ->
             isEqual substType (conformanceTypeFor concrete substType) = true /\
             (isExistentialType substType = true ->
              isaSelfProtocolConformance concrete = true)))).
Proof.
  intros [_ Hal]. unfold verify.
  apply (verifyRequirements_spec (Some s) (getRequirements (genericSig s)) 0).
  simpl. rewrite Hal. unfold getNumConformanceRequirements. lia.
Qed.

Lemma verify_spec_witness :
  @verify (Demo.services Demo.Int false) (Some Demo.storeIntP) = Ok tt.
Proof.
  apply (@verify_spec (Demo.services Demo.Int false) Demo.storeIntP).
  - split; reflexivity.
  - intros i first proto Hn.
    destruct i as [| [| i]]; try discriminate Hn.
    injection Hn as <- <-. exists Demo.Int. split; [reflexivity |].
    intros _ conformance Hc _. injection Hc as <-.
    exists Demo.IntP. split; [reflexivity |].
    intros _. split; [reflexivity |]. intros Hex. discriminate Hex.
Defined.

(** C9 as the claim words it fails on two maps that [verify()] accepts:
    one stores the invalid conformance where the substituted type [Int] is
    fully concrete, one stores [Int: P] where the substituted type is the
    unbound generic type [Array]. *)
Lemma verify_passes_over_invalid_and_unbound :
  ~ verifyAssertsAll (Demo.services Demo.Int false) Demo.storeIntInvalid /\
  ~ verifyAssertsAll (Demo.services Demo.Int false) Demo.storeUnbound.
Proof.
  split; intros Hclaim.
  - destruct (Hclaim eq_refl 0 (GenericTypeParam Demo.T) Demo.P Demo.Int
                     eq_refl eq_refl eq_refl) as [concrete [Hstored _]].
    discriminate Hstored.
  - destruct (Hclaim eq_refl 0 (GenericTypeParam Demo.T) Demo.P
                     (UnboundGenericType "Array") eq_refl eq_refl eq_refl)
      as [concrete [Hstored [Hequal _]]].
    injection Hstored as <-. discriminate Hequal.
Qed.

(** ** The pack-ness of replacement types *)

Section PackInvariant.

Context {env : Collaborators}.

Lemma formReplacement_Ok_inv IFS gp r :
  formReplacement IFS gp = Ok r ->
  Type_subst IFS (GenericTypeParam gp) = Ok r /\ replacementMatchesParam gp r.
Proof.
  unfold formReplacement. intros E. ok_inv E. injection E as <-.
  split; [exact E0 |].
  apply assert_Ok_inv in E1. destruct a as [t |]; simpl; [| exact I].
  apply orb_true_iff in E1. destruct E1 as [E1 | E1]; [left; exact E1 |].
  right. apply Bool.eqb_prop in E1. symmetry. exact E1.
Qed.

Lemma formReplacement_fault IFS gp r :
  Type_subst IFS (GenericTypeParam gp) = Ok (Some r) ->
  hasError r = false ->
  isPackType r <> isParameterPack gp ->
  exists msg, formReplacement IFS gp = Fault msg.
Proof.
  intros Hs He Hp. unfold formReplacement. rewrite Hs. cbn [bind].
  rewrite He. cbn [orb].
  destruct (Bool.eqb (isParameterPack gp) (isPackType r)) eqn:E.
  - apply Bool.eqb_prop in E. congruence.
  - eexists; reflexivity.
Qed.

Lemma get_Ok_inv sig IFS M :
  get (Some sig) IFS = Ok M ->
  exists types confs,
    M = Some {| genericSig := sig; replacementTypes := types;
                conformances := confs |} /\
    mapM (formReplacement IFS) (getGenericParams sig) = Ok types.
Proof.
  unfold get. intros E. ok_inv E.
  destruct (SubstitutionMap_ctor_Ok_inv _ _ _ E) as [impl [Hsig [-> _]]].
  injection Hsig as <-. exists a, a0. split; [reflexivity | exact E0].
Qed.

End PackInvariant.




(** X14.  The storage layout is an invariant: every map that [get] on two
    arrays, [get] on a capability, [subst] or [combineSubstitutionMaps]
    returns is empty or has one replacement type per generic parameter and
    one conformance per conformance requirement. *)
Lemma constructed_maps_aligned {env : Collaborators} :
  (forall sig types confs M,
      get_arrays sig types confs = Ok M -> map_aligned M) /\
  (forall sig IFS M, get sig IFS = Ok M -> map_aligned M) /\
  (forall M IFS M', subst M IFS = Ok M' -> map_aligned M') /\
  (forall M1 M2 how d d2 sig M,
      combineSubstitutionMaps M1 M2 how d d2 sig = Ok M -> map_aligned M).
Proof.
  assert (Hget : forall sig IFS M, get sig IFS = Ok M -> map_aligned M).
  { intros [sig |] IFS M E.
    - unfold get in E. ok_inv E.
      destruct (SubstitutionMap_ctor_Ok_inv _ _ _ E) as [_ [_ [_ Hal]]].
      exact Hal.
    - injection E as <-. exact I. }
  repeat split.
  - intros sig types confs M E.
    destruct (SubstitutionMap_ctor_Ok_inv _ _ _ E) as [_ [_ [_ Hal]]].
    exact Hal.
  - exact Hget.
  - intros [s |] IFS M' E.
    + unfold subst in E. ok_inv E.
      destruct (SubstitutionMap_ctor_Ok_inv _ _ _ E) as [_ [_ [_ Hal]]].
      exact Hal.
    + injection E as <-. exact I.
  - intros M1 M2 how d d2 [sig |] M E; [| discriminate E].
    apply (Hget _ _ _ E).
Qed.

(** ** The replacement types of a combined map

    Each replacement type of the map [combineSubstitutionMaps] returns is
    what the substitution primitive makes of the generic parameter of the
    position under the capability built from the two queries. *)
Lemma combineSubstitutionMaps_replacements {env : Collaborators}
      (M1 M2 : SubstitutionMap) (how : CombineSubstitutionMaps) (d d2 : N)
      (sig : GenericSignatureImpl) (M : SubstitutionMap) :
  combineSubstitutionMaps M1 M2 how d d2 (Some sig) = Ok M ->
  forall i gp,
    nth_error (getGenericParams sig) i = Some gp ->
    exists r,
      nth_error (getReplacementTypes M) i = Some r /\
      Type_subst (MkInFlightSubstitution
                    (combineTypes M1 M2 how d d2)
                    (combineConformances M1 M2 how d d2) noOptions)
                 (GenericTypeParam gp) = Ok r.
Proof.
  intros E i gp Hgp. unfold combineSubstitutionMaps, get_fns in E.
  destruct (get_Ok_inv _ _ E) as [types [confs [-> Hm]]].
  destruct (mapM_nth _ _ Hm _ Hgp) as [r [Hr Hf]].
  exists r. split; [exact Hr |].
  apply (formReplacement_Ok_inv _ _ Hf).
Qed.

(** * Further properties of the code *)

(** ** lookupConformance: the paths around the walk *)

(** X1.  A substitution map has no evidence for the empty map, for a type
    that is no type parameter once an archetype is mapped out of its
    context, and so for every opaque archetype: [lookupConformance]
    returns the invalid conformance. *)
Theorem lookupConformance_no_evidence {env : Collaborators} :
  (forall type proto, lookupConformance None type proto = Ok forInvalid) /\
  (forall s type proto,
      isTypeParameter (mapArchetypeOutOfContext type) = false ->
      lookupConformance (Some s) type proto = Ok forInvalid) /\
  (forall s root interfaceType superclass proto,
      lookupConformance
        (Some s)
        (ArchetypeType OpaqueTypeArchetypeType root interfaceType superclass)
        proto = Ok forInvalid).
Proof.
  repeat split.
  intros s type proto Hno. unfold lookupConformance. rewrite Hno. reflexivity.
Qed.

Lemma lookupConformance_no_evidence_witness :
  @lookupConformance (Demo.services Demo.Int false) (Some Demo.storeIntP)
                     Demo.Int Demo.P = Ok forInvalid.
Proof.
  destruct (@lookupConformance_no_evidence (Demo.services Demo.Int false))
    as [_ [Hconcrete _]].
  apply Hconcrete. reflexivity.
Defined.

(** X2.  When the query goes to the conformance path and the signature
    does not state the first step of the path, [lookupConformance] returns
    the invalid conformance, whatever the later steps are. *)
Theorem lookupConformance_first_step_missing {env : Collaborators}
        (s : Storage) (type : Ty) (proto : ProtocolDecl)
        (step : Ty * ProtocolDecl) (rest : list (Ty * ProtocolDecl)) :
  let ty := mapArchetypeOutOfContext type in
  isTypeParameter ty = true ->
  getSignatureConformance s ty proto = Ok None ->
  requiresProtocol (genericSig s) ty proto = true ->
  getInvertibleProtocolKind proto = None ->
  getConformancePath (genericSig s) ty proto = step :: rest ->
  getSignatureConformance s (fst step) (snd step) = Ok None ->
  lookupConformance (Some s) type proto = Ok forInvalid.
Proof.
  intros ty Htp Hdirect Hreq Hinv Hpath Hstep.
  rewrite lookupConformance_general_case by assumption. fold ty.
  rewrite Hpath. simpl. rewrite Hstep. reflexivity.
Qed.

Lemma lookupConformance_first_step_missing_witness :
  @lookupConformance (Demo.services Demo.Int false) (Some Samples.storeIntPlain)
                     Demo.T_A Demo.Q = Ok forInvalid.
Proof.
  apply (@lookupConformance_first_step_missing (Demo.services Demo.Int false)
           Samples.storeIntPlain Demo.T_A Demo.Q
           (GenericTypeParam Demo.T, Demo.P) [(Demo.Self_A, Demo.Q)]);
    reflexivity.
Defined.

(** X3.  Invalid propagation: when the walk stands at a concrete
    conformance (the self-reference guard not firing) or at a pack
    conformance, and that conformance has no associated conformance for
    the step, [lookupConformance] returns the invalid conformance and the
    remaining steps are not walked. *)
Theorem lookupConformance_invalid_propagates {env : Collaborators}
        (s : Storage) (type : Ty) (proto : ProtocolDecl)
        (steps rest : list (Ty * ProtocolDecl)) (step : Ty * ProtocolDecl)
        (current : ProtocolConformanceRef) :
  let ty := mapArchetypeOutOfContext type in
  isTypeParameter ty = true ->
  getSignatureConformance s ty proto = Ok None ->
  requiresProtocol (genericSig s) ty proto = true ->
  getInvertibleProtocolKind proto = None ->
  getConformancePath (genericSig s) ty proto = steps ++ step :: rest ->
  continues s ty proto Invalid steps current ->
  ((exists concrete,
       current = Concrete concrete /\
       (hasComputedAssociatedConformances (getRootNormalConformance concrete)
        = true \/
        hasActiveRequest
          (ResolveTypeWitnessesRequest (getRootNormalConformance concrete))
        = false) /\
       getAssociatedConformance concrete (fst step) (snd step) = Invalid) \/
   (exists pack,
       current = Pack pack /\
       PackConformance_getAssociatedConformance pack (fst step) (snd step)
       = Invalid)) ->
  lookupConformance (Some s) type proto = Ok forInvalid.
Proof.
  intros ty Htp Hdirect Hreq Hinv Hpath Hsteps Hcur.
  rewrite lookupConformance_general_case by assumption. fold ty.
  rewrite Hpath, (walkPath_continues Hsteps). simpl.
  destruct Hcur as [[concrete [-> [Hguard Hassoc]]] | [pack [-> Hassoc]]];
    simpl.
  - rewrite Hassoc.
    destruct Hguard as [-> | ->]; simpl; [reflexivity |].
    rewrite andb_false_r. reflexivity.
  - rewrite Hassoc. reflexivity.
Qed.

Lemma lookupConformance_invalid_propagates_witness :
  @lookupConformance Samples.servicesNoAssociated (Some Demo.storeIntP)
                     Demo.T_A Demo.Q = Ok forInvalid.
Proof.
  apply (@lookupConformance_invalid_propagates Samples.servicesNoAssociated
           Demo.storeIntP Demo.T_A Demo.Q
           [(GenericTypeParam Demo.T, Demo.P)] [] (Demo.Self_A, Demo.Q)
           (Concrete Demo.IntP)); try reflexivity.
  - eapply continues_cons; [reflexivity | apply continues_nil].
  - left. exists Demo.IntP. repeat split. left. reflexivity.
Defined.

(** X4.  When the loop runs through the whole conformance path without
    leaving the function, [lookupConformance] returns the current
    conformance the last step produced. *)
Theorem lookupConformance_walks_whole_path {env : Collaborators}
        (s : Storage) (type : Ty) (proto : ProtocolDecl)
        (final : ProtocolConformanceRef) :
  let ty := mapArchetypeOutOfContext type in
  isTypeParameter ty = true ->
  getSignatureConformance s ty proto = Ok None ->
  requiresProtocol (genericSig s) ty proto = true ->
  getInvertibleProtocolKind proto = None ->
  continues s ty proto Invalid
            (getConformancePath (genericSig s) ty proto) final ->
  lookupConformance (Some s) type proto = Ok final.
Proof.
  intros ty Htp Hdirect Hreq Hinv Hsteps.
  rewrite lookupConformance_general_case by assumption. fold ty.
  rewrite <- (app_nil_r (getConformancePath (genericSig s) ty proto)).
  rewrite (walkPath_continues Hsteps). reflexivity.
Qed.

Lemma lookupConformance_walks_whole_path_witness :
  @lookupConformance (Demo.services Demo.Int false) (Some Demo.storeIntP)
                     Demo.T_A Demo.Q = Ok (Abstract Demo.Q).
Proof.
  apply (@lookupConformance_walks_whole_path (Demo.services Demo.Int false)
           Demo.storeIntP Demo.T_A Demo.Q (Abstract Demo.Q));
    try reflexivity.
  eapply continues_cons; [reflexivity |].
  eapply continues_cons; [reflexivity | apply continues_nil].
Defined.

(** X5.  When the signature neither states the conformance nor requires
    the protocol of the type, [lookupConformance] does not look at the
    conformance path: the answer is the missing-or-invalid conformance for
    the type substituted through the map. *)
Theorem lookupConformance_not_required {env : Collaborators}
        (s : Storage) (type : Ty) (proto : ProtocolDecl) (substType : Type_) :
  let ty := mapArchetypeOutOfContext type in
  isTypeParameter ty = true ->
  getSignatureConformance s ty proto = Ok None ->
  requiresProtocol (genericSig s) ty proto = false ->
  Type_subst_map (Some s) noOptions ty = Ok substType ->
  lookupConformance (Some s) type proto
  = Ok (forMissingOrInvalid substType proto).
Proof.
  intros ty Htp Hdirect Hreq Hsubst. unfold lookupConformance. fold ty.
  rewrite Htp, Hdirect. cbn [negb bind]. rewrite Hreq. cbn [negb].
  rewrite Hsubst. reflexivity.
Qed.

Lemma lookupConformance_not_required_witness :
  @lookupConformance Samples.servicesNoRequirement (Some Demo.storeIntP)
                     Demo.T_A Demo.Q = Ok Invalid.
Proof.
  apply (@lookupConformance_not_required Samples.servicesNoRequirement
           Demo.storeIntP Demo.T_A Demo.Q (Some Demo.Int)); reflexivity.
Defined.

(** X6.  For an invertible protocol that the signature requires without
    stating it, [lookupConformance] does not evaluate a conformance path:
    the answer is the abstract conformance when the substituted type is
    still a type parameter, and the global lookup for the substituted type
    otherwise. *)
Theorem lookupConformance_invertible {env : Collaborators}
        (s : Storage) (type : Ty) (proto : ProtocolDecl)
        (kind : InvertibleProtocolKind) (substType : Ty) :
  let ty := mapArchetypeOutOfContext type in
  isTypeParameter ty = true ->
  getSignatureConformance s ty proto = Ok None ->
  requiresProtocol (genericSig s) ty proto = true ->
  getInvertibleProtocolKind proto = Some kind ->
  Type_subst_map (Some s) noOptions ty = Ok (Some substType) ->
  lookupConformance (Some s) type proto
  = Ok (if isTypeParameter substType then Abstract proto
        else lookupConformance_global substType proto).
Proof.
  intros ty Htp Hdirect Hreq Hinv Hsubst. unfold lookupConformance. fold ty.
  rewrite Htp, Hdirect. cbn [negb bind]. rewrite Hreq, Hinv. cbn [negb].
  rewrite Hsubst. cbn [bind deref].
  destruct (isTypeParameter substType); reflexivity.
Qed.

Lemma lookupConformance_invertible_witness :
  @lookupConformance (Demo.services Demo.Int false) (Some Demo.storeIntP)
                     (GenericTypeParam Demo.T) Samples.Copyable_
  = Ok (Concrete {| getKind := Normal; getType := Demo.Int;
                    getProtocol := Samples.Copyable_;
                    getDeclContext := "module"%string |}).
Proof.
  apply (@lookupConformance_invertible (Demo.services Demo.Int false)
           Demo.storeIntP (GenericTypeParam Demo.T) Samples.Copyable_
           Copyable Demo.Int); reflexivity.
Defined.

(** X7.  The loop takes an invalid current conformance for the sign of its
    first iteration: when the conformance stored for the first step is the
    invalid one, the walk does not end there, and the second step is
    resolved by the scan of the signature as the first one was. *)
Theorem lookupConformance_invalid_initial {env : Collaborators}
        (s : Storage) (type : Ty) (proto : ProtocolDecl)
        (step1 step2 : Ty * ProtocolDecl) (rest : list (Ty * ProtocolDecl))
        (second : ProtocolConformanceRef) :
  let ty := mapArchetypeOutOfContext type in
  isTypeParameter ty = true ->
  getSignatureConformance s ty proto = Ok None ->
  requiresProtocol (genericSig s) ty proto = true ->
  getInvertibleProtocolKind proto = None ->
  getConformancePath (genericSig s) ty proto = step1 :: step2 :: rest ->
  getSignatureConformance s (fst step1) (snd step1) = Ok (Some Invalid) ->
  getSignatureConformance s (fst step2) (snd step2) = Ok (Some second) ->
  lookupConformance (Some s) type proto = walkPath s ty proto second rest.
Proof.
  intros ty Htp Hdirect Hreq Hinv Hpath H1 H2.
  rewrite lookupConformance_general_case by assumption. fold ty.
  rewrite Hpath. simpl. rewrite H1. simpl. rewrite H2. reflexivity.
Qed.

Lemma lookupConformance_invalid_initial_witness :
  @lookupConformance (Demo.services Demo.Int false)
                     (Some Samples.storeInvalidThenQ)
                     (DependentMemberType Demo.T_A "B") Demo.Q
  = Ok (Concrete Samples.IntQ).
Proof.
  apply (@lookupConformance_invalid_initial (Demo.services Demo.Int false)
           Samples.storeInvalidThenQ (DependentMemberType Demo.T_A "B") Demo.Q
           (GenericTypeParam Demo.T, Demo.P) (Demo.Self_A, Demo.Q) []
           (Concrete Samples.IntQ)); reflexivity.
Defined.

(** ** Construction, [get] and [subst] *)

Section MoreConstruction.

Context {env : Collaborators}.

Lemma formConformances_nth IFS reqs :
  forall confs,
    formConformances IFS reqs = Ok confs ->
    forall j first proto,
      nth_error (conformanceRequirements reqs) j = Some (first, proto) ->
      exists replacement c,
        nth_error confs j = Some c /\
        Type_subst IFS (getCanonicalType first) = Ok replacement /\
        IFS_lookupConformance IFS (getCanonicalType first) replacement proto 0
        = Ok c.
Proof.
  induction reqs as [| req reqs IH]; simpl; intros confs E j first proto Hn.
  - destruct j; discriminate Hn.
  - destruct req as [first0 p0 | | | |]; try (eapply IH; eassumption).
    ok_inv E. injection E as <-.
    destruct j as [| j]; simpl in Hn.
    + injection Hn as <- <-. exists a, a0. repeat split; assumption.
    + apply (IH _ E2 j first proto Hn).
Qed.

Lemma substConformances_nth M IFS reqs :
  forall old out,
    substConformances M IFS reqs old = Ok out ->
    forall j first proto,
      nth_error (conformanceRequirements reqs) j = Some (first, proto) ->
      exists c new,
        nth_error old j = Some c /\
        nth_error (fst out) j = Some new /\
        ((exists concrete c',
             c = Concrete concrete /\
             shouldSubstituteOpaqueArchetypes IFS = false /\
             ProtocolConformance_subst concrete IFS = Ok c' /\
             new = Concrete c') \/
         (((forall concrete, c <> Concrete concrete) \/
           shouldSubstituteOpaqueArchetypes IFS = true) /\
          exists substType,
            Type_subst_map M (getOptions IFS) first = Ok substType /\
            ProtocolConformanceRef_subst c substType IFS = Ok new)).
Proof.
  induction reqs as [| req reqs IH]; simpl; intros old out E j first proto Hn.
  - destruct j; discriminate Hn.
  - destruct req as [first0 p0 | | | |]; try (eapply IH; eassumption).
    ok_inv E. injection E as <-.
    destruct old as [| c old]; [discriminate E0 |].
    injection E0 as <-. injection E2 as <-.
    destruct j as [| j]; simpl in Hn.
    + injection Hn as <- <-. exists c, a0. simpl.
      split; [reflexivity |]. split; [reflexivity |].
      destruct c as [| q | concrete | pack];
        try (right; split; [left; intros concrete; discriminate |];
             ok_inv E1; eexists; split; eassumption).
      destruct (shouldSubstituteOpaqueArchetypes IFS) eqn:Hopaque;
        cbn [negb] in E1.
      * right. split; [right; reflexivity |].
        ok_inv E1. eexists; split; eassumption.
      * left. ok_inv E1. injection E1 as <-.
        exists concrete, a. repeat split. assumption.
    + destruct (IH _ _ E3 j first proto Hn) as [c' [new [Hc [Hnew Hcase]]]].
      exists c', new. simpl. repeat split; assumption.
Qed.

Lemma subst_Ok_conformances s IFS M' :
  subst (Some s) IFS = Ok M' ->
  exists out,
    substConformances (Some s) IFS (getRequirements (genericSig s))
                      (conformances s) = Ok out /\
    getConformances M' = fst out.
Proof.
  unfold subst. intros E. ok_inv E.
  destruct (SubstitutionMap_ctor_Ok_inv _ _ _ E) as [impl [_ [-> _]]].
  exists a0. split; [exact E1 | reflexivity].
Qed.

End MoreConstruction.

(** X8.  The constructor returns a map exactly when the signature is not
    null, the two arrays have the sizes the signature dictates and, with
    the language option on, [verify()] accepts the map; the map then holds
    the signature and the arrays as given.  A null signature or a size
    mismatch is a fault. *)
Theorem SubstitutionMap_ctor_spec {env : Collaborators}
        (sig : GenericSignature) (types : list Type_)
        (confs : list ProtocolConformanceRef) (M : SubstitutionMap) :
  SubstitutionMap_ctor sig types confs = Ok M <->
  exists impl,
    sig = Some impl /\
    length types = length (getGenericParams impl) /\
    length confs = length (conformanceRequirements (getRequirements impl)) /\
    (VerifyAllSubstitutionMaps = true ->
     verify (Some {| genericSig := impl; replacementTypes := types;
                     conformances := confs |}) = Ok tt) /\
    M = Some {| genericSig := impl; replacementTypes := types;
                conformances := confs |}.
Proof.
  split.
  - intros E.
    destruct (SubstitutionMap_ctor_Ok_inv _ _ _ E) as [impl [-> [-> [H1 H2]]]].
    exists impl. repeat split; try assumption.
    intros Hon. unfold SubstitutionMap_ctor, Storage_get, Storage_ctor in E.
    ok_inv E. rewrite Hon in E1.
    ok_inv E0. injection E0 as <-. destruct a0. exact E1.
  - intros [impl [-> [Ht [Hc [Hv ->]]]]].
    apply SubstitutionMap_ctor_total; assumption.
Qed.

Lemma SubstitutionMap_ctor_spec_witness :
  (forall M,
      @SubstitutionMap_ctor (Demo.services Demo.Int false) (Some Demo.sigTP)
                            [Some Demo.Int; Some Demo.Int]
                            [Concrete Demo.IntP] <> Ok M) /\
  @SubstitutionMap_ctor (Demo.services Demo.Int false) (Some Demo.sigTP)
                        [Some Demo.Int] [Concrete Demo.IntP]
  = Ok (Some Demo.storeIntP).
Proof.
  split.
  - intros M E.
    apply (@SubstitutionMap_ctor_spec (Demo.services Demo.Int false)) in E.
    destruct E as [impl [Hsig [Hlen _]]]. injection Hsig as <-.
    discriminate Hlen.
  - apply (@SubstitutionMap_ctor_spec (Demo.services Demo.Int false)).
    exists Demo.sigTP. repeat split.
Defined.

(** X9.  Emptiness is carried through: a map that [get] returns is empty
    exactly when the signature is null, and a map that [subst] returns is
    empty exactly when the map it was computed from is. *)
Theorem get_and_subst_keep_emptiness {env : Collaborators} :
  (forall sig IFS M,
      get sig IFS = Ok M -> (empty M = true <-> sig = None)) /\
  (forall M IFS M', subst M IFS = Ok M' -> empty M' = empty M).
Proof.
  split.
  - intros [sig |] IFS M E.
    + destruct (get_Ok_inv _ _ E) as [types [confs [-> _]]].
      simpl. split; discriminate.
    + injection E as <-. split; reflexivity.
  - intros [s |] IFS M' E.
    + destruct (subst_Ok_inv _ _ E) as [newSubs [newConfs [-> _]]].
      reflexivity.
    + injection E as <-. reflexivity.
Qed.

Lemma get_and_subst_keep_emptiness_witness :
  (empty (Some Demo.storeIntP) = true <-> Some Demo.sigTP = None) /\
  empty (Some Samples.storeIntAbstract) = empty (Some Demo.storeIdentityP).
Proof.
  destruct (@get_and_subst_keep_emptiness Samples.servicesNoAssociated)
    as [Hget Hsubst].
  split.
  - apply (Hget (Some Demo.sigTP) Demo.toIntIFS (Some Demo.storeIntP)).
    reflexivity.
  - apply (Hsubst (Some Demo.storeIdentityP) Demo.toIntIFS
                  (Some Samples.storeIntAbstract)).
    reflexivity.
Defined.

(** X10.  What [get(signature, capability)] stores: at the position of
    each generic parameter, what the substitution primitive makes of that
    parameter under the capability; at the position of each conformance
    requirement, what the capability resolves, at level 0, for the
    canonical dependent type of the requirement, its substituted form and
    its protocol. *)
Theorem get_stores_capability_answers {env : Collaborators}
        (sig : GenericSignatureImpl) (IFS : InFlightSubstitution)
        (M : SubstitutionMap) :
  get (Some sig) IFS = Ok M ->
  getGenericSignature M = Some sig /\
  (forall i gp,
      nth_error (getGenericParams sig) i = Some gp ->
      exists replacement,
        nth_error (getReplacementTypes M) i = Some replacement /\
        Type_subst IFS (GenericTypeParam gp) = Ok replacement) /\
  (forall j first proto,
      nth_error (conformanceRequirements (getRequirements sig)) j
      = Some (first, proto) ->
      exists replacement c,
        nth_error (getConformances M) j = Some c /\
        Type_subst IFS (getCanonicalType first) = Ok replacement /\
        IFS_lookupConformance IFS (getCanonicalType first) replacement proto 0
        = Ok c).
Proof.
  intros E. pose proof E as E'. unfold get in E'. ok_inv E'.
  destruct (SubstitutionMap_ctor_Ok_inv _ _ _ E') as [impl [Hsig [-> _]]].
  injection Hsig as <-. simpl. repeat split.
  - intros i gp Hgp.
    destruct (mapM_nth _ _ E0 _ Hgp) as [r [Hr Hf]].
    exists r. split; [exact Hr |]. apply (formReplacement_Ok_inv _ _ Hf).
  - intros j first proto Hn. apply (formConformances_nth _ _ E1 _ Hn).
Qed.

Lemma get_stores_capability_answers_witness :
  exists replacement c,
    nth_error (getReplacementTypes (Some Demo.storeIntP)) 0 = Some replacement /\
    @Type_subst (Demo.services Demo.Int false) Demo.toIntIFS
                (GenericTypeParam Demo.T) = Ok replacement /\
    nth_error (getConformances (Some Demo.storeIntP)) 0 = Some c /\
    @IFS_lookupConformance (Demo.services Demo.Int false) Demo.toIntIFS
                           (GenericTypeParam Demo.T) (Some Demo.Int) Demo.P 0
    = Ok c.
Proof.
  destruct (@get_stores_capability_answers (Demo.services Demo.Int false)
              Demo.sigTP Demo.toIntIFS (Some Demo.storeIntP) eq_refl)
    as [_ [Htypes Hconfs]].
  destruct (Htypes 0 Demo.T eq_refl) as [replacement [Hr Hs]].
  destruct (Hconfs 0 (GenericTypeParam Demo.T) Demo.P eq_refl)
    as [replacement' [c [Hc [_ Hl]]]].
  exists replacement, c. repeat split; assumption.
Defined.

(** X11.  How [subst] treats the conformance of each conformance
    requirement: a stored concrete conformance, when the capability does
    not substitute opaque archetypes, is substituted as a conformance
    object and the dependent type is not substituted at all; any other
    conformance is asked to substitute itself against the dependent type
    substituted through the old map under the options of the
    capability. *)
Theorem subst_conformance_at {env : Collaborators}
        (s : Storage) (IFS : InFlightSubstitution) (M' : SubstitutionMap) :
  subst (Some s) IFS = Ok M' ->
  forall j first proto,
    nth_error (conformanceRequirements (getRequirements (genericSig s))) j
    = Some (first, proto) ->
    exists c new,
      nth_error (conformances s) j = Some c /\
      nth_error (getConformances M') j = Some new /\
      ((exists concrete c',
           c = Concrete concrete /\
           shouldSubstituteOpaqueArchetypes IFS = false /\
           ProtocolConformance_subst concrete IFS = Ok c' /\
           new = Concrete c') \/
       (((forall concrete, c <> Concrete concrete) \/
         shouldSubstituteOpaqueArchetypes IFS = true) /\
        exists substType,
          Type_subst_map (Some s) (getOptions IFS) first = Ok substType /\
          ProtocolConformanceRef_subst c substType IFS = Ok new)).
Proof.
  intros E j first proto Hn.
  destruct (subst_Ok_conformances _ _ E) as [out [Hout ->]].
  apply (substConformances_nth _ _ _ _ Hout _ Hn).
Qed.

Lemma subst_conformance_at_witness :
  exists c new,
    nth_error (conformances Demo.storeIntP) 0 = Some c /\
    nth_error (getConformances (Some Demo.storeIntP)) 0 = Some new /\
    ((exists concrete c',
         c = Concrete concrete /\
         shouldSubstituteOpaqueArchetypes Demo.identityIFS = false /\
         @ProtocolConformance_subst (Demo.services Demo.Int false)
                                    concrete Demo.identityIFS = Ok c' /\
         new = Concrete c') \/
     (((forall concrete, c <> Concrete concrete) \/
       shouldSubstituteOpaqueArchetypes Demo.identityIFS = true) /\
      exists substType,
        @Type_subst_map (Demo.services Demo.Int false) (Some Demo.storeIntP)
                        (getOptions Demo.identityIFS)
                        (GenericTypeParam Demo.T) = Ok substType /\
        @ProtocolConformanceRef_subst (Demo.services Demo.Int false)
                                      c substType Demo.identityIFS = Ok new)).
Proof.
  apply (@subst_conformance_at (Demo.services Demo.Int false) Demo.storeIntP
           Demo.identityIFS (Some Demo.storeIntP) eq_refl 0
           (GenericTypeParam Demo.T) Demo.P eq_refl).
Defined.

(** X12.  The two context mappings differ in how they treat a stored
    concrete conformance: [mapReplacementTypesOutOfContext] substitutes it
    as a conformance object, while [mapIntoTypeExpansionContext], which
    substitutes opaque archetypes, asks every stored conformance to
    substitute itself against the substituted dependent type.  Both
    return a map on the signature of the one they were given. *)
Theorem context_mappings_substitute_conformances {env : Collaborators}
        (s : Storage) (types : TypeSubstitutionFn)
        (lookup : LookupConformanceFn) (M' : SubstitutionMap) :
  (mapReplacementTypesOutOfContext types lookup (Some s) = Ok M' ->
   getGenericSignature M' = Some (genericSig s) /\
   forall j concrete,
     nth_error (conformances s) j = Some (Concrete concrete) ->
     j < length (conformanceRequirements (getRequirements (genericSig s))) ->
     exists c',
       ProtocolConformance_subst
         concrete
         (MkInFlightSubstitution
            types lookup
            {| PreservePackExpansionLevel := true;
               SubstitutePrimaryArchetypes := true;
               SubstituteOpaqueArchetypes := false |}) = Ok c' /\
       nth_error (getConformances M') j = Some (Concrete c')) /\
  (mapIntoTypeExpansionContext types lookup (Some s) = Ok M' ->
   getGenericSignature M' = Some (genericSig s) /\
   forall j first proto c,
     nth_error (conformanceRequirements (getRequirements (genericSig s))) j
     = Some (first, proto) ->
     nth_error (conformances s) j = Some c ->
     exists substType new,
       Type_subst_map (Some s)
                      {| PreservePackExpansionLevel := true;
                         SubstitutePrimaryArchetypes := false;
                         SubstituteOpaqueArchetypes := true |} first
       = Ok substType /\
       ProtocolConformanceRef_subst
         c substType
         (MkInFlightSubstitution
            types lookup
            {| PreservePackExpansionLevel := true;
               SubstitutePrimaryArchetypes := false;
               SubstituteOpaqueArchetypes := true |}) = Ok new /\
       nth_error (getConformances M') j = Some new).
Proof.
  unfold mapReplacementTypesOutOfContext, mapIntoTypeExpansionContext,
    subst_fns.
  split; intros E.
  - split.
    { destruct (subst_Ok_inv _ _ E) as [ts [cs [-> _]]]. reflexivity. }
    intros j concrete Hc Hj.
    destruct (nth_error (conformanceRequirements
                           (getRequirements (genericSig s))) j)
      as [[first proto] |] eqn:Hn; [| apply nth_error_None in Hn; lia].
    destruct (subst_Ok_conformances _ _ E) as [out [Hout ->]].
    destruct (substConformances_nth _ _ _ _ Hout _ Hn)
      as [c [new [Hc' [Hnew Hcase]]]].
    rewrite Hc in Hc'. injection Hc' as <-.
    destruct Hcase as [[concrete' [c' [Heq [_ [Hs ->]]]]]
                      | [[Hno | Habs] _]].
    + injection Heq as <-. exists c'. split; assumption.
    + exfalso. apply (Hno concrete). reflexivity.
    + discriminate Habs.
  - split.
    { destruct (subst_Ok_inv _ _ E) as [ts [cs [-> _]]]. reflexivity. }
    intros j first proto c Hn Hc.
    destruct (subst_Ok_conformances _ _ E) as [out [Hout ->]].
    destruct (substConformances_nth _ _ _ _ Hout _ Hn)
      as [c0 [new [Hc' [Hnew Hcase]]]].
    rewrite Hc in Hc'. injection Hc' as <-.
    destruct Hcase as [[concrete' [c' [_ [Habs _]]]]
                      | [_ [substType [Hs Hr]]]].
    + discriminate Habs.
    + exists substType, new. repeat split; assumption.
Qed.

Lemma context_mappings_substitute_conformances_witness :
  exists c',
    nth_error (getConformances (Some Demo.storeIntP)) 0 = Some (Concrete c').
Proof.
  destruct (@context_mappings_substitute_conformances
              (Demo.services Demo.Int false) Demo.storeIntP
              (fun t => Ok (Some t)) (fun _ _ proto => Ok (Abstract proto))
              (Some Demo.storeIntP)) as [Hout _].
  destruct (Hout eq_refl) as [_ Hconfs].
  destruct (Hconfs 0 Demo.IntP eq_refl) as [c' [_ Hc']].
  - simpl. lia.
  - exists c'. exact Hc'.
Defined.

(** X13.  [subst] faults on a map that holds a null replacement type,
    although [get] may have stored one; it also faults when the primitive
    returns a null type for a replacement type, or a type of the other
    pack-ness. *)
Theorem subst_faults {env : Collaborators}
        (s : Storage) (IFS : InFlightSubstitution) (t : Type_) :
  In t (replacementTypes s) ->
  (t = None \/
   exists old,
     t = Some old /\
     (Type_subst IFS old = Ok None \/
      exists new,
        Type_subst IFS old = Ok (Some new) /\
        isPackType old <> isPackType new)) ->
  exists msg, subst (Some s) IFS = Fault msg.
Proof.
  intros Hin Hbad.
  assert (Hfault : exists msg, substReplacement IFS t = Fault msg).
  { unfold substReplacement.
    destruct Hbad as [-> | [old [-> [Hs | [new [Hs Hp]]]]]]; simpl.
    - eexists; reflexivity.
    - rewrite Hs. simpl. eexists; reflexivity.
    - rewrite Hs. simpl.
      destruct (Bool.eqb (isPackType old) (isPackType new)) eqn:E.
      + apply Bool.eqb_prop in E. contradiction.
      + simpl. eexists; reflexivity. }
  unfold subst. cbn [getReplacementTypes empty getGenericSignature].
  destruct (mapM_fault (substReplacement IFS) _ _ Hin Hfault) as [msg ->].
  eexists; reflexivity.
Qed.

Lemma subst_faults_witness :
  exists msg,
    @subst (Demo.services Demo.Int false) (Some Samples.storeNull)
           Demo.identityIFS = Fault msg.
Proof.
  apply (@subst_faults (Demo.services Demo.Int false) Samples.storeNull
           Demo.identityIFS None).
  - left. reflexivity.
  - left. reflexivity.
Defined.

Lemma constructed_maps_aligned_witness :
  map_aligned (Some Demo.storeIntP).
Proof.
  destruct (@constructed_maps_aligned (Demo.services Demo.Int false))
    as [_ [Hget _]].
  apply (Hget (Some Demo.sigTP) Demo.toIntIFS). reflexivity.
Defined.

(** ** isIdentity, verify and the two lookups *)

(** X15.  [isIdentity()] returns false, without looking at a replacement
    type, as soon as one stored conformance is invalid, concrete, or a
    pack conformance whose pattern conformances are not exactly one
    abstract conformance. *)
Theorem isIdentity_false_on_conformance {env : Collaborators}
        (s : Storage) (conf : ProtocolConformanceRef) :
  In conf (conformances s) ->
  (conf = Invalid \/
   (exists concrete, conf = Concrete concrete) \/
   (exists ty p patterns,
       conf = Pack (MkPackConformance ty p patterns) /\
       forall q, patterns <> [Abstract q])) ->
  isIdentity (Some s) = Ok false.
Proof.
  intros Hin Hbad. unfold isIdentity. cbn [getConformances].
  assert (Hno : conformanceIsIdentity conf = false).
  { destruct (conformanceIsIdentity conf) eqn:E; [| reflexivity].
    apply conformanceIsIdentity_spec in E.
    destruct E as [[p ->] | [ty [p [q ->]]]];
      destruct Hbad as [Hb | [[c Hb] | [ty' [p' [pats [Hb Hpats]]]]]];
      try discriminate Hb.
    injection Hb as <- <- <-. exfalso. apply (Hpats q). reflexivity. }
  assert (Hall : forallb conformanceIsIdentity (conformances s) = false).
  { destruct (forallb conformanceIsIdentity (conformances s)) eqn:E;
      [| reflexivity].
    rewrite forallb_forall in E. rewrite (E conf Hin) in Hno.
    discriminate Hno. }
  rewrite Hall. reflexivity.
Qed.

Lemma isIdentity_false_on_conformance_witness :
  @isIdentity (Demo.services Demo.Int false) (Some Demo.storeIntP) = Ok false.
Proof.
  apply (@isIdentity_false_on_conformance (Demo.services Demo.Int false)
           Demo.storeIntP (Concrete Demo.IntP)).
  - left. reflexivity.
  - right. left. exists Demo.IntP. reflexivity.
Defined.

(** X16.  [verify()] faults on a map with the storage layout when, for a
    conformance requirement whose substituted dependent type is fully
    concrete, the stored conformance is abstract or a pack conformance, or
    is concrete and, the substituted type not being an unbound generic
    type, has another type than the substituted one or is no
    self-conformance although the substituted type is existential. *)
Theorem verify_rejects {env : Collaborators}
        (s : Storage) (i : nat) (first : Ty) (proto : ProtocolDecl)
        (substType : Ty) (conf : ProtocolConformanceRef) :
  storage_aligned s ->
  nth_error (conformanceRequirements (getRequirements (genericSig s))) i
  = Some (first, proto) ->
  Type_subst_map (Some s) noOptions first = Ok (Some substType) ->
  isFullyConcrete substType = true ->
  nth_error (conformances s) i = Some conf ->
  ((exists q, conf = Abstract q) \/
   (exists pack, conf = Pack pack) \/
   (exists concrete,
       conf = Concrete concrete /\
       isUnboundGenericType substType = false /\
       (isEqual substType (conformanceTypeFor concrete substType) = false \/
        (isExistentialType substType = true /\
         isaSelfProtocolConformance concrete = false)))) ->
  exists msg, verify (Some s) = Fault msg.
Proof.
  intros [_ Hal] Hn Hsubst Hconcrete Hconf Hbad.
  destruct (verify (Some s)) as [[] | msg] eqn:E; [| exists msg; reflexivity].
  exfalso. unfold verify in E.
  assert (Hlen : 0 + length (conformanceRequirements
                               (getRequirements (genericSig s)))
                 <= length (getConformances (Some s))).
  { simpl. rewrite Hal. unfold getNumConformanceRequirements. lia. }
  pose proof (proj1 (verifyRequirements_spec
                       (Some s) (getRequirements (genericSig s)) 0 Hlen) E)
    as Hall.
  destruct (Hall i first proto Hn) as [st [Hst Hchk]].
  rewrite Hsubst in Hst. injection Hst as <-.
  assert (Hvalid : conf <> Invalid).
  { destruct Hbad as [[q ->] | [[pack ->] | [c [-> _]]]]; discriminate. }
  destruct (Hchk Hconcrete conf Hconf Hvalid) as [concrete [-> Hrest]].
  destruct Hbad as [[q Hb] | [[pack Hb] | [c [Hb [Hunbound Hwrong]]]]];
    try discriminate Hb.
  injection Hb as <-. destruct (Hrest Hunbound) as [Heq Hself].
  destruct Hwrong as [Hne | [Hex Hnoself]].
  - congruence.
  - rewrite (Hself Hex) in Hnoself. discriminate Hnoself.
Qed.

Lemma verify_rejects_witness :
  exists msg,
    @verify (Demo.services Demo.Int false) (Some Samples.storeIntAbstract)
    = Fault msg.
Proof.
  apply (@verify_rejects (Demo.services Demo.Int false)
           Samples.storeIntAbstract 0 (GenericTypeParam Demo.T) Demo.P
           Demo.Int (Abstract Demo.P)).
  - split; reflexivity.
  - reflexivity.
  - reflexivity.
  - reflexivity.
  - reflexivity.
  - left. exists Demo.P. reflexivity.
Defined.

Lemma findIndexIn_le key params : findIndexIn key params <= length params.
Proof.
  induction params as [| p params IH]; simpl; [lia |].
  destruct (GenericParamKey_eqb key p); simpl; lia.
Qed.

(** X17.  On a map with the storage layout [lookupSubstitution] does not
    fault for a generic parameter, nor for a root primary or pack
    archetype of one: the answer is no replacement or an entry of the
    replacement types.  A type that is neither a generic parameter nor an
    archetype fails the cast. *)
Theorem lookupSubstitution_answers (s : Storage) :
  storage_aligned s ->
  (forall gp,
      exists r,
        lookupSubstitution (Some s) (GenericTypeParam gp) = Ok r /\
        (r = None \/ In r (replacementTypes s))) /\
  (forall kind root interfaceType superclass gp,
      getCanonicalType interfaceType = GenericTypeParam gp ->
      exists r,
        lookupSubstitution
          (Some s) (ArchetypeType kind root interfaceType superclass) = Ok r /\
        (r = None \/ In r (replacementTypes s))) /\
  (forall type,
      (forall gp, type <> GenericTypeParam gp) ->
      (forall kind root interfaceType superclass,
          type <> ArchetypeType kind root interfaceType superclass) ->
      exists msg, lookupSubstitution (Some s) type = Fault msg).
Proof.
  intros [Hal _].
  assert (Hgp : forall gp,
             exists r,
               lookupGenericParam s (GenericTypeParam gp) = Ok r /\
               (r = None \/ In r (replacementTypes s))).
  { intros gp. unfold lookupGenericParam.
    pose proof (findIndexIn_le gp (getGenericParams (genericSig s))) as Hle.
    destruct (Nat.eqb_spec (findIndexIn gp (getGenericParams (genericSig s)))
                           (length (getGenericParams (genericSig s))))
      as [_ | Hne].
    - exists None. split; [reflexivity | left; reflexivity].
    - unfold at_index. simpl.
      destruct (nth_error (replacementTypes s)
                  (findIndexIn gp (getGenericParams (genericSig s))))
        as [r |] eqn:Hr.
      + exists r. split; [reflexivity |]. right.
        apply (nth_error_In _ _ Hr).
      + apply nth_error_None in Hr. unfold getNumReplacementTypes in Hal. lia. }
  repeat split.
  - exact Hgp.
  - intros kind root interfaceType superclass gp Hcanon. simpl.
    destruct root; [| exists None; split; [reflexivity | left; reflexivity]].
    destruct kind; rewrite ?Hcanon;
      try (exists None; split; [reflexivity | left; reflexivity]);
      apply Hgp.
  - intros type Hnogp Hnoarch.
    destruct type; simpl; try (eexists; reflexivity).
    + exfalso. apply (Hnogp gp). reflexivity.
    + exfalso. eapply Hnoarch. reflexivity.
Qed.

Lemma lookupSubstitution_answers_witness :
  exists r,
    lookupSubstitution (Some Demo.storeIntP) (GenericTypeParam Demo.U) = Ok r /\
    (r = None \/ In r (replacementTypes Demo.storeIntP)).
Proof.
  destruct (@lookupSubstitution_answers Demo.storeIntP) as [Hgp _].
  - split; reflexivity.
  - apply (Hgp Demo.U).
Defined.

(** X18.  Construction then lookup: on the map built from two arrays,
    [lookupSubstitution] of a generic parameter of the signature returns
    the entry of the types array at the position of the parameter, and
    [lookupConformance] of a stated requirement on a type parameter
    returns the entry of the conformances array at the position of the
    requirement (keys, and stated requirements, being looked up by their
    first occurrence). *)
Theorem construct_then_lookup {env : Collaborators}
        (sig : GenericSignatureImpl) (types : list Type_)
        (confs : list ProtocolConformanceRef) (M : SubstitutionMap) :
  get_arrays (Some sig) types confs = Ok M ->
  (forall i gp,
      nth_error (getGenericParams sig) i = Some gp ->
      (forall j q, j < i -> nth_error (getGenericParams sig) j = Some q ->
                   ~ (getDepth gp = getDepth q /\ getIndex gp = getIndex q)) ->
      exists t,
        nth_error types i = Some t /\
        lookupSubstitution M (GenericTypeParam gp) = Ok t) /\
  (forall j first proto,
      nth_error (conformanceRequirements (getRequirements sig)) j
      = Some (first, proto) ->
      isTypeParameter first = true ->
      (forall k first',
          k < j ->
          nth_error (conformanceRequirements (getRequirements sig)) k
          = Some (first', proto) ->
          isEqual first' first = false) ->
      exists c,
        nth_error confs j = Some c /\
        lookupConformance M first proto = Ok c).
Proof.
  intros E.
  destruct (SubstitutionMap_ctor_Ok_inv _ _ _ E)
    as [impl [Hsig [-> [Hal1 Hal2]]]].
  injection Hsig as <-. simpl in Hal1, Hal2. split.
  - intros i gp Hgp Hfirst. simpl.
    rewrite (findIndexIn_first gp _ Hgp).
    + assert (Hi : i < length (getGenericParams sig))
        by (apply nth_error_Some; rewrite Hgp; discriminate).
      destruct (Nat.eqb_spec i (length (getGenericParams sig))); [lia |].
      unfold at_index.
      destruct (nth_error types i) as [t |] eqn:Ht.
      * exists t. split; reflexivity.
      * apply nth_error_None in Ht. unfold getNumReplacementTypes in Hal1. lia.
    + apply GenericParamKey_eqb_eq. split; reflexivity.
    + intros k q Hk Hq. specialize (Hfirst k q Hk Hq).
      destruct (GenericParamKey_eqb gp q) eqn:Eq; [| reflexivity].
      apply GenericParamKey_eqb_eq in Eq. contradiction.
  - intros j first proto Hn Htp Hfirst.
    assert (Hj : j < length confs).
    { rewrite Hal2. unfold getNumConformanceRequirements.
      apply nth_error_Some. rewrite Hn. discriminate. }
    destruct (nth_error confs j) as [c |] eqn:Hc;
      [| apply nth_error_None in Hc; lia].
    exists c. split; [reflexivity |].
    unfold lookupConformance.
    rewrite (isTypeParameter_not_archetype _ Htp), Htp. cbn [negb].
    unfold getSignatureConformance. cbn [genericSig getConformances conformances].
    rewrite scanRequirements_first with (i := j) (req := (first, proto)).
    + unfold at_index. simpl. rewrite Hc. reflexivity.
    + exact Hn.
    + unfold statesConformance. simpl. apply andb_true_iff. split.
      * apply isEqual_spec. reflexivity.
      * apply ProtocolDecl_eqb_eq. reflexivity.
    + intros k [first' p'] Hk Hy. unfold statesConformance. simpl.
      destruct (ProtocolDecl_eqb p' proto) eqn:Ep;
        [| apply andb_false_r].
      apply ProtocolDecl_eqb_eq in Ep. subst p'.
      rewrite (Hfirst k first' Hk Hy). reflexivity.
Qed.

Lemma construct_then_lookup_witness :
  lookupSubstitution (Some Demo.storeIntP) (GenericTypeParam Demo.T)
  = Ok (Some Demo.Int) /\
  @lookupConformance (Demo.services Demo.Int false) (Some Demo.storeIntP)
                     (GenericTypeParam Demo.T) Demo.P
  = Ok (Concrete Demo.IntP).
Proof.
  destruct (@construct_then_lookup (Demo.services Demo.Int false) Demo.sigTP
              [Some Demo.Int] [Concrete Demo.IntP] (Some Demo.storeIntP)
              eq_refl) as [Htypes Hconfs].
  split.
  - destruct (Htypes 0 Demo.T eq_refl) as [t [Ht ->]].
    + intros j q Hj. lia.
    + injection Ht as <-. reflexivity.
  - destruct (Hconfs 0 (GenericTypeParam Demo.T) Demo.P eq_refl eq_refl)
      as [c [Hc ->]].
    + intros k first' Hk. lia.
    + injection Hc as <-. reflexivity.
Defined.

(** ** Canonical maps *)

Lemma getCanonicalType_idempotent t :
  getCanonicalType (getCanonicalType t) = getCanonicalType t.
Proof.
  induction t as
      [gp | base n IHbase | k r i s IHi IHs | n args IHargs | ps
       | elements IHel | p c IHp IHc | i | | n | | n u IHu]
      using Ty_nested_ind; simpl; try reflexivity; try congruence.
  - f_equal; [exact IHi |].
    destruct s as [x |]; [| reflexivity]. simpl. f_equal.
    apply (IHs x eq_refl).
  - f_equal. rewrite map_map. apply map_ext_in. intros x Hx.
    rewrite Forall_forall in IHargs. apply IHargs, Hx.
  - f_equal. rewrite map_map. apply map_ext_in. intros x Hx.
    rewrite Forall_forall in IHel. apply IHel, Hx.
Qed.

Lemma isCanonicalType_spec t :
  isCanonicalType t = true <-> getCanonicalType t = t.
Proof.
  apply Ty_eqb_eq.
Qed.

Section CanonicalFacts.

Context {env : Collaborators} {canon : CanonicalCollaborators}.

Lemma replacementTypesCanonical_spec types :
  replacementTypesCanonical types = Ok true <->
  forall t, In t types -> exists ty, t = Some ty /\ getCanonicalType ty = ty.
Proof.
  induction types as [| t types IH]; simpl.
  - split; [intros _ t [] | reflexivity].
  - destruct t as [ty |]; simpl.
    + destruct (isCanonicalType ty) eqn:Hc; simpl.
      * rewrite IH. split.
        -- intros Hall t [<- | Hin]; [| apply Hall, Hin].
           exists ty. split; [reflexivity |].
           apply isCanonicalType_spec, Hc.
        -- intros Hall t Hin. apply Hall. right. exact Hin.
      * split; [intros E; discriminate E |].
        intros Hall. destruct (Hall (Some ty)) as [ty' [Heq Hcan]];
          [left; reflexivity |].
        injection Heq as <-. apply isCanonicalType_spec in Hcan. congruence.
    + split; [intros E; discriminate E |].
      intros Hall. destruct (Hall None) as [ty' [Heq _]];
        [left; reflexivity | discriminate Heq].
Qed.

Lemma canonicalReplacement_nth types :
  forall types',
    mapM canonicalReplacement types = Ok types' ->
    forall i t,
      nth_error types i = Some t ->
      exists ty,
        t = Some ty /\ nth_error types' i = Some (Some (getCanonicalType ty)).
Proof.
  intros types' E i t Ht.
  destruct (mapM_nth _ _ E _ Ht) as [r [Hr Hf]].
  unfold canonicalReplacement in Hf. destruct t as [ty |]; [| discriminate Hf].
  injection Hf as <-. exists ty. split; [reflexivity | exact Hr].
Qed.

Lemma canonicalReplacement_again types :
  forall types',
    mapM canonicalReplacement types = Ok types' ->
    mapM canonicalReplacement types' = Ok types'.
Proof.
  induction types as [| t types IH]; simpl; intros types' E.
  - injection E as <-. reflexivity.
  - ok_inv E. injection E as <-.
    unfold canonicalReplacement in E0. destruct t as [ty |]; [| discriminate E0].
    injection E0 as <-. simpl. rewrite (IH _ E1). simpl.
    rewrite getCanonicalType_idempotent. reflexivity.
Qed.

Lemma getCanonical_Ok_inv s b M' :
  getCanonical (Some s) b = Ok M' ->
  exists types,
    mapM canonicalReplacement (replacementTypes s) = Ok types /\
    get_arrays (Some (if b then getCanonicalSignature (genericSig s)
                      else genericSig s))
               types (map getCanonicalConformanceRef (conformances s))
    = Ok M' /\
    M' = Some {| genericSig := if b then getCanonicalSignature (genericSig s)
                               else genericSig s;
                 replacementTypes := types;
                 conformances :=
                   map getCanonicalConformanceRef (conformances s) |}.
Proof.
  unfold getCanonical. cbn [getReplacementTypes getConformances empty
                            getGenericSignature].
  intros E. ok_inv E. exists a. split; [exact E0 |]. split; [exact E |].
  destruct (SubstitutionMap_ctor_Ok_inv _ _ _ E) as [impl [Hsig [-> _]]].
  injection Hsig as <-. reflexivity.
Qed.

End CanonicalFacts.

(** X19.  [isCanonical()] returns true exactly for the empty map and for a
    map whose signature is canonical, whose replacement types are all
    non-null and canonical, and whose conformances are all canonical. *)
Theorem isCanonical_spec {canon : CanonicalCollaborators}
        (M : SubstitutionMap) :
  isCanonical M = Ok true <->
  M = None \/
  exists s,
    M = Some s /\
    signature_isCanonical (genericSig s) = true /\
    (forall t, In t (replacementTypes s) ->
               exists ty, t = Some ty /\ getCanonicalType ty = ty) /\
    (forall c, In c (conformances s) -> conformance_isCanonical c = true).
Proof.
  destruct M as [s |]; simpl.
  - split.
    + intros E. right. exists s. split; [reflexivity |].
      destruct (signature_isCanonical (genericSig s)); [| discriminate E].
      cbn [negb] in E. ok_inv E. destruct a; [| discriminate E].
      cbn [negb] in E. injection E as E.
      split; [reflexivity |]. split.
      * apply replacementTypesCanonical_spec. exact E0.
      * apply forallb_forall. exact E.
    + intros [Habs | [s' [Hs [Hsig [Htypes Hconfs]]]]]; [discriminate Habs |].
      injection Hs as <-. rewrite Hsig. cbn [negb].
      rewrite (proj2 (replacementTypesCanonical_spec _) Htypes). cbn [bind negb].
      f_equal. apply forallb_forall. exact Hconfs.
  - split; [left; reflexivity | reflexivity].
Qed.

Lemma isCanonical_spec_witness :
  @isCanonical Samples.canonical (Some Demo.storeIntP) = Ok true.
Proof.
  apply (@isCanonical_spec Samples.canonical).
  right. exists Demo.storeIntP. repeat split.
  - intros t [<- | []]. exists Demo.Int. split; reflexivity.
  - intros c [<- | []]. reflexivity.
Defined.

(** X20.  What [getCanonical] returns for a non-empty map: a map on the
    signature, canonicalized if asked, whose replacement types are the
    canonical types of the old ones, position by position, and whose
    conformances are the canonical forms of the old ones; a null
    replacement type is a fault.  The empty map is returned as it is. *)
Theorem getCanonical_spec {env : Collaborators}
        {canon : CanonicalCollaborators} (s : Storage) (b : bool) :
  getCanonical None b = Ok None /\
  (forall M',
      getCanonical (Some s) b = Ok M' ->
      getGenericSignature M'
      = Some (if b then getCanonicalSignature (genericSig s)
              else genericSig s) /\
      getConformances M' = map getCanonicalConformanceRef (conformances s) /\
      length (getReplacementTypes M') = length (replacementTypes s) /\
      forall i t,
        nth_error (replacementTypes s) i = Some t ->
        exists ty,
          t = Some ty /\
          nth_error (getReplacementTypes M') i
          = Some (Some (getCanonicalType ty))) /\
  (In None (replacementTypes s) ->
   exists msg, getCanonical (Some s) b = Fault msg).
Proof.
  split; [reflexivity |]. split.
  - intros M' E.
    destruct (getCanonical_Ok_inv _ _ E) as [types [Ht [_ ->]]].
    simpl. repeat split.
    + apply (mapM_length _ _ Ht).
    + apply (canonicalReplacement_nth _ Ht).
  - intros Hin. unfold getCanonical.
    cbn [getReplacementTypes empty getGenericSignature].
    destruct (mapM_fault canonicalReplacement _ _ Hin) as [msg ->];
      [eexists; reflexivity |].
    eexists; reflexivity.
Qed.

Lemma getCanonical_spec_witness :
  nth_error (getReplacementTypes (Some Demo.storeIntP)) 0
  = Some (Some (getCanonicalType Samples.MyInt)) /\
  exists msg,
    @getCanonical (Demo.services Demo.Int false) Samples.canonical
                  (Some Samples.storeNull) false = Fault msg.
Proof.
  destruct (@getCanonical_spec (Demo.services Demo.Int false) Samples.canonical
              Samples.storeMyInt false) as [_ [Hok _]].
  destruct (@getCanonical_spec (Demo.services Demo.Int false) Samples.canonical
              Samples.storeNull false) as [_ [_ Hfault]].
  split.
  - destruct (Hok (Some Demo.storeIntP) eq_refl) as [_ [_ [_ Htypes]]].
    destruct (Htypes 0 (Some Samples.MyInt) eq_refl) as [ty [Hty Hn]].
    injection Hty as <-. exact Hn.
  - apply Hfault. left. reflexivity.
Defined.

(** X21.  Canonicalization is idempotent: when the canonical form of a
    conformance, and of a signature, is its own canonical form, a map that
    [getCanonical] returns is returned unchanged by [getCanonical] with
    the same flag. *)
Theorem getCanonical_idempotent {env : Collaborators}
        {canon : CanonicalCollaborators}
        (M M1 : SubstitutionMap) (b : bool) :
  (forall c,
      getCanonicalConformanceRef (getCanonicalConformanceRef c)
      = getCanonicalConformanceRef c) ->
  (forall sig,
      getCanonicalSignature (getCanonicalSignature sig)
      = getCanonicalSignature sig) ->
  getCanonical M b = Ok M1 ->
  getCanonical M1 b = Ok M1.
Proof.
  intros Hconf Hsig E. destruct M as [s |]; [| injection E as <-; reflexivity].
  destruct (getCanonical_Ok_inv _ _ E) as [types [Ht [Hget ->]]].
  unfold getCanonical.
  cbn [getReplacementTypes getConformances empty getGenericSignature
       genericSig replacementTypes conformances].
  rewrite (canonicalReplacement_again _ Ht). cbn [bind].
  rewrite map_map.
  rewrite (map_ext _ _ (fun c => Hconf c)).
  replace (if b
           then getCanonicalSignature
                  (if b then getCanonicalSignature (genericSig s)
                   else genericSig s)
           else if b then getCanonicalSignature (genericSig s)
                else genericSig s)
    with (if b then getCanonicalSignature (genericSig s) else genericSig s)
    by (destruct b; [symmetry; apply Hsig | reflexivity]).
  exact Hget.
Qed.

Lemma getCanonical_idempotent_witness :
  @getCanonical (Demo.services Demo.Int false) Samples.canonical
                (Some Demo.storeIntP) true = Ok (Some Demo.storeIntP).
Proof.
  apply (@getCanonical_idempotent (Demo.services Demo.Int false)
           Samples.canonical (Some Samples.storeMyInt)
           (Some Demo.storeIntP) true).
  - intros [| p | c | pack]; reflexivity.
  - reflexivity.
  - reflexivity.
Defined.

(** X22.  A map that [getCanonical] returns passes [isCanonical()],
    provided the canonical form of a conformance counts as canonical and
    the signature of the returned map does. *)
Theorem getCanonical_isCanonical {env : Collaborators}
        {canon : CanonicalCollaborators}
        (s : Storage) (M1 : SubstitutionMap) (b : bool) :
  (forall c, conformance_isCanonical (getCanonicalConformanceRef c) = true) ->
  signature_isCanonical (if b then getCanonicalSignature (genericSig s)
                         else genericSig s) = true ->
  getCanonical (Some s) b = Ok M1 ->
  isCanonical M1 = Ok true.
Proof.
  intros Hconf Hsig E.
  destruct (getCanonical_Ok_inv _ _ E) as [types [Ht [_ ->]]].
  unfold isCanonical.
  cbn [getReplacementTypes getConformances empty getGenericSignature
       genericSig replacementTypes conformances].
  rewrite Hsig. cbn [negb].
  assert (Htypes : replacementTypesCanonical types = Ok true).
  { apply replacementTypesCanonical_spec. intros t Hin.
    apply In_nth_error in Hin. destruct Hin as [i Hi].
    assert (Hlen : i < length (replacementTypes s)).
    { rewrite <- (mapM_length _ _ Ht). apply nth_error_Some.
      rewrite Hi. discriminate. }
    destruct (nth_error (replacementTypes s) i) as [old |] eqn:Hold;
      [| apply nth_error_None in Hold; lia].
    destruct (canonicalReplacement_nth _ Ht _ Hold) as [ty [_ Hn]].
    rewrite Hi in Hn. injection Hn as ->.
    exists (getCanonicalType ty). split; [reflexivity |].
    apply getCanonicalType_idempotent. }
  rewrite Htypes. cbn [bind negb]. f_equal.
  apply forallb_forall. intros c Hin.
  apply in_map_iff in Hin. destruct Hin as [c0 [<- _]]. apply Hconf.
Qed.

Lemma getCanonical_isCanonical_witness :
  @isCanonical Samples.canonical (Some Demo.storeIntP) = Ok true.
Proof.
  apply (@getCanonical_isCanonical (Demo.services Demo.Int false)
           Samples.canonical Samples.storeMyInt (Some Demo.storeIntP) false).
  - intros [| p | c | pack]; reflexivity.
  - reflexivity.
  - reflexivity.
Defined.

(** ** The conformance query of a combination *)

(** X24.  The conformance query of [combineSubstitutionMaps] does not hand
    on an invalid conformance of the first map: for a dependent type that
    does not rebase, the query answers the invalid conformance only when
    the substituted type is no type parameter and the global lookup has
    no conformance for it.  With a null substituted type in that
    situation it faults. *)
Theorem combineConformances_invalid_only_from_global {env : Collaborators}
        (M1 M2 : SubstitutionMap) (how : CombineSubstitutionMaps) (d d2 : N)
        (type : Ty) (substType : Type_) (proto : ProtocolDecl) :
  Type_transformRec (replaceGenericParameter how d d2) type = None ->
  (combineConformances M1 M2 how d d2 type substType proto = Ok Invalid ->
   exists st,
     substType = Some st /\
     isTypeParameter st = false /\
     lookupConformance_global st proto = Invalid) /\
  (lookupConformance M1 type proto = Ok Invalid ->
   substType = None ->
   exists msg,
     combineConformances M1 M2 how d d2 type substType proto = Fault msg).
Proof.
  intros Hno. unfold combineConformances. rewrite Hno. split.
  - intros E. ok_inv E.
    destruct a as [| q | c | pack]; cbn [isInvalid negb] in E;
      try discriminate E.
    ok_inv E. destruct substType as [st |]; [| discriminate E1].
    injection E1 as <-. exists st. split; [reflexivity |].
    destruct (isTypeParameter st); [discriminate E |].
    injection E as E. split; [reflexivity | exact E].
  - intros -> ->. simpl. eexists; reflexivity.
Qed.

Lemma combineConformances_invalid_only_from_global_witness :
  exists msg,
    @combineConformances (Demo.services Demo.Int false) None None AtDepth 1 0
                         (GenericTypeParam Demo.T) None Demo.P = Fault msg.
Proof.
  destruct (@combineConformances_invalid_only_from_global
              (Demo.services Demo.Int false) None None AtDepth 1 0
              (GenericTypeParam Demo.T) None Demo.P) as [_ Hfault].
  - reflexivity.
  - apply Hfault; reflexivity.
Defined.

(** ** Override substitutions *)

(** X25.  The type query of the override substitutions: a generic
    parameter below [BaseDepth] is substituted through the context map; a
    parameter at [BaseDepth] becomes, when the derived declaration has a
    generic parameter list, the parameter of that list at its index (a
    fault if the list is shorter), and otherwise the parameter of the same
    index and pack bit at depth [OrigDepth]; a parameter above [BaseDepth]
    fails the assertion. *)
Theorem QueryOverrideSubs_spec {env : Collaborators}
        (info : OverrideSubsInfo) (gp : GenericTypeParamType) :
  ((getDepth gp < BaseDepth info)%N ->
   QueryOverrideSubs info (GenericTypeParam gp)
   = Type_subst_map (BaseSubMap info) noOptions (GenericTypeParam gp)) /\
  (getDepth gp = BaseDepth info ->
   DerivedParams info = None ->
   (OrigDepth info < 2 ^ 32)%N ->
   QueryOverrideSubs info (GenericTypeParam gp)
   = Ok (Some (GenericTypeParam
                 {| isParameterPack := isParameterPack gp;
                    getDepth := OrigDepth info;
                    getIndex := getIndex gp |}))) /\
  (getDepth gp = BaseDepth info ->
   forall params,
     DerivedParams info = Some params ->
     match nth_error params (N.to_nat (getIndex gp)) with
     | Some p => QueryOverrideSubs info (GenericTypeParam gp) = Ok (Some p)
     | None =>
         exists msg, QueryOverrideSubs info (GenericTypeParam gp) = Fault msg
     end) /\
  ((BaseDepth info < getDepth gp)%N ->
   exists msg, QueryOverrideSubs info (GenericTypeParam gp) = Fault msg).
Proof.
  unfold QueryOverrideSubs. simpl. repeat split.
  - intros Hlt. apply N.leb_gt in Hlt. rewrite Hlt. reflexivity.
  - intros Hd Hnone Hfit. rewrite Hd, N.leb_refl, N.eqb_refl, Hnone. simpl.
    rewrite add_sub_u32_exact; [| lia | lia].
    do 3 f_equal. f_equal. lia.
  - intros Hd params Hsome. rewrite Hd, N.leb_refl, N.eqb_refl, Hsome. simpl.
    unfold at_index.
    destruct (nth_error params (N.to_nat (getIndex gp))); simpl;
      [reflexivity | eexists; reflexivity].
  - intros Hgt.
    assert (Hle : N.leb (BaseDepth info) (getDepth gp) = true)
      by (apply N.leb_le; lia).
    assert (Hne : N.eqb (getDepth gp) (BaseDepth info) = false)
      by (apply N.eqb_neq; lia).
    rewrite Hle, Hne. simpl. eexists; reflexivity.
Qed.

Lemma QueryOverrideSubs_spec_witness :
  @QueryOverrideSubs (Demo.services Demo.Int false) Samples.overrideInfo
                     (GenericTypeParam Demo.U)
  = Ok (Some (GenericTypeParam
                {| isParameterPack := false; getDepth := 2; getIndex := 0 |}))
  /\
  @QueryOverrideSubs (Demo.services Demo.Int false) Samples.overrideInfo
                     (GenericTypeParam Demo.T)
  = Ok (Some Demo.Int).
Proof.
  split.
  - destruct (@QueryOverrideSubs_spec (Demo.services Demo.Int false)
                Samples.overrideInfo Demo.U) as [_ [Hat _]].
    apply Hat; reflexivity.
  - destruct (@QueryOverrideSubs_spec (Demo.services Demo.Int false)
                Samples.overrideInfo Demo.T) as [Hbelow _].
    rewrite Hbelow; reflexivity.
Defined.

(** X26.  The conformance query of the override substitutions answers the
    abstract conformance for every type rooted in a parameter at or above
    [BaseDepth], whatever the context map holds; it faults on a type that
    is rooted in no generic parameter; and it answers the invalid
    conformance only when the substituted type is no type parameter and
    the global lookup has no conformance for it. *)
Theorem LookUpConformanceInOverrideSubs_spec {env : Collaborators}
        (info : OverrideSubsInfo) (type : Ty) (substType : Type_)
        (proto : ProtocolDecl) :
  (forall root,
      getRootGenericParam type = Some root ->
      (BaseDepth info <= getDepth root)%N ->
      LookUpConformanceInOverrideSubs info type substType proto
      = Ok (Abstract proto)) /\
  (getRootGenericParam type = None ->
   exists msg,
     LookUpConformanceInOverrideSubs info type substType proto = Fault msg) /\
  (LookUpConformanceInOverrideSubs info type substType proto = Ok Invalid ->
   exists st,
     substType = Some st /\
     isTypeParameter st = false /\
     lookupConformance_global st proto = Invalid).
Proof.
  unfold LookUpConformanceInOverrideSubs. repeat split.
  - intros root Hroot Hle. rewrite Hroot.
    apply N.leb_le in Hle. rewrite Hle. reflexivity.
  - intros Hnone. rewrite Hnone. eexists; reflexivity.
  - intros E. destruct (getRootGenericParam type) as [root |];
      [| discriminate E].
    destruct (N.leb (BaseDepth info) (getDepth root)); [discriminate E |].
    ok_inv E.
    destruct a as [| q | c | pack]; cbn [isInvalid negb] in E;
      try discriminate E.
    ok_inv E. destruct substType as [st |]; [| discriminate E1].
    injection E1 as <-. exists st. split; [reflexivity |].
    destruct (isTypeParameter st); [discriminate E |].
    injection E as E. split; [reflexivity | exact E].
Qed.

Lemma LookUpConformanceInOverrideSubs_spec_witness :
  @LookUpConformanceInOverrideSubs (Demo.services Demo.Int false)
    Samples.overrideInfo (GenericTypeParam Demo.U) None Demo.P
  = Ok (Abstract Demo.P).
Proof.
  destruct (@LookUpConformanceInOverrideSubs_spec
              (Demo.services Demo.Int false) Samples.overrideInfo
              (GenericTypeParam Demo.U) None Demo.P) as [Habove _].
  apply (Habove Demo.U); reflexivity.
Defined.

(** ** Identity maps and verified maps *)

(** X27.  Lookups in an identity map: when [isIdentity()] returns true on
    a map with the storage layout, [lookupSubstitution] of a generic
    parameter at a canonical position returns a type equal to the
    parameter itself (wrapped in a singleton pack expansion if it is a
    pack), and [lookupConformance] of a stated requirement on a type
    parameter returns an abstract conformance or a pack conformance of one
    abstract pattern conformance. *)
Theorem identity_map_lookups {env : Collaborators} (s : Storage) :
  storage_aligned s ->
  isIdentity (Some s) = Ok true ->
  (forall i gp,
      nth_error (getGenericParams (genericSig s)) i = Some gp ->
      paramIsCanonical (genericSig s) i = true ->
      (forall j q, j < i ->
                   nth_error (getGenericParams (genericSig s)) j = Some q ->
                   ~ (getDepth gp = getDepth q /\ getIndex gp = getIndex q)) ->
      exists r,
        lookupSubstitution (Some s) (GenericTypeParam gp) = Ok (Some r) /\
        isEqual (if isParameterPack gp
                 then getSingletonPackExpansion (GenericTypeParam gp)
                 else GenericTypeParam gp) r = true) /\
  (forall j first proto,
      nth_error (conformanceRequirements (getRequirements (genericSig s))) j
      = Some (first, proto) ->
      isTypeParameter first = true ->
      (forall k first',
          k < j ->
          nth_error (conformanceRequirements (getRequirements (genericSig s))) k
          = Some (first', proto) ->
          isEqual first' first = false) ->
      exists c,
        lookupConformance (Some s) first proto = Ok c /\
        ((exists p, c = Abstract p) \/
         (exists ty p q, c = Pack (MkPackConformance ty p [Abstract q])))).
Proof.
  intros [Hal1 Hal2] Hid. unfold isIdentity in Hid.
  cbn [getConformances getReplacementTypes empty getGenericSignature] in Hid.
  destruct (forallb conformanceIsIdentity (conformances s)) eqn:Hconfs;
    [| discriminate Hid].
  cbn [negb] in Hid. ok_inv Hid. injection Hid as Hflag.
  apply negb_true_iff in Hflag. destruct a as [rest flag].
  simpl in Hflag. subst flag.
  destruct (proj1 (forEachParamIdentity_spec
                     (genericSig s) (getGenericParams (genericSig s)) 0
                     (replacementTypes s) false Hal1)
                  (ex_intro _ rest E)) as [_ Hparams].
  split.
  - intros i gp Hgp Hcanon Hfirst.
    destruct (Hparams i gp Hgp Hcanon) as [r [Hr Heq]].
    exists r. split; [| exact Heq]. simpl.
    rewrite (findIndexIn_first gp _ Hgp).
    + assert (Hi : i < length (getGenericParams (genericSig s)))
        by (apply nth_error_Some; rewrite Hgp; discriminate).
      destruct (Nat.eqb_spec i (length (getGenericParams (genericSig s))));
        [lia |].
      unfold at_index. rewrite Hr. reflexivity.
    + apply GenericParamKey_eqb_eq. split; reflexivity.
    + intros k q Hk Hq. specialize (Hfirst k q Hk Hq).
      destruct (GenericParamKey_eqb gp q) eqn:Eq; [| reflexivity].
      apply GenericParamKey_eqb_eq in Eq. contradiction.
  - intros j first proto Hn Htp Hfirst.
    assert (Hj : j < length (conformances s)).
    { rewrite Hal2. unfold getNumConformanceRequirements.
      apply nth_error_Some. rewrite Hn. discriminate. }
    destruct (nth_error (conformances s) j) as [c |] eqn:Hc;
      [| apply nth_error_None in Hc; lia].
    exists c. split.
    + unfold lookupConformance.
      rewrite (isTypeParameter_not_archetype _ Htp), Htp. cbn [negb].
      unfold getSignatureConformance. cbn [getConformances].
      rewrite scanRequirements_first with (i := j) (req := (first, proto)).
      * unfold at_index. simpl. rewrite Hc. reflexivity.
      * exact Hn.
      * unfold statesConformance. simpl. apply andb_true_iff. split.
        -- apply isEqual_spec. reflexivity.
        -- apply ProtocolDecl_eqb_eq. reflexivity.
      * intros k [first' p'] Hk Hy. unfold statesConformance. simpl.
        destruct (ProtocolDecl_eqb p' proto) eqn:Ep; [| apply andb_false_r].
        apply ProtocolDecl_eqb_eq in Ep. subst p'.
        rewrite (Hfirst k first' Hk Hy). reflexivity.
    + apply conformanceIsIdentity_spec.
      rewrite forallb_forall in Hconfs. apply Hconfs.
      apply (nth_error_In _ _ Hc).
Qed.

Lemma identity_map_lookups_witness :
  exists r,
    lookupSubstitution (Some Demo.storeIdentityP) (GenericTypeParam Demo.T)
    = Ok (Some r) /\
    isEqual (GenericTypeParam Demo.T) r = true.
Proof.
  destruct (@identity_map_lookups (Demo.services Demo.Int false)
              Demo.storeIdentityP) as [Hparams _].
  - split; reflexivity.
  - reflexivity.
  - apply (Hparams 0 Demo.T eq_refl eq_refl). intros j q Hj. lia.
Defined.

Lemma SubstitutionMap_ctor_verified {env : Collaborators} sig types confs M :
  SubstitutionMap_ctor sig types confs = Ok M ->
  VerifyAllSubstitutionMaps = true ->
  verify M = Ok tt.
Proof.
  intros E Hon.
  destruct (SubstitutionMap_ctor_Ok_inv _ _ _ E) as [impl [-> [-> _]]].
  unfold SubstitutionMap_ctor, Storage_get, Storage_ctor in E.
  ok_inv E. rewrite Hon in E1. ok_inv E0. injection E0 as <-.
  destruct a0. exact E1.
Qed.

(** X28.  With the language option that verifies all substitution maps
    on, every map that [get] on two arrays, [get] on a capability or
    [subst] returns is one that [verify()] accepts. *)
Theorem constructed_maps_verified {env : Collaborators} :
  VerifyAllSubstitutionMaps = true ->
  (forall sig types confs M,
      get_arrays sig types confs = Ok M -> verify M = Ok tt) /\
  (forall sig IFS M, get sig IFS = Ok M -> verify M = Ok tt) /\
  (forall M IFS M', subst M IFS = Ok M' -> verify M' = Ok tt).
Proof.
  intros Hon. repeat split.
  - intros sig types confs M E.
    apply (SubstitutionMap_ctor_verified _ _ _ E Hon).
  - intros [sig |] IFS M E.
    + unfold get in E. ok_inv E.
      apply (SubstitutionMap_ctor_verified _ _ _ E Hon).
    + injection E as <-. reflexivity.
  - intros [s |] IFS M' E.
    + unfold subst in E. ok_inv E.
      apply (SubstitutionMap_ctor_verified _ _ _ E Hon).
    + injection E as <-. reflexivity.
Qed.

Lemma constructed_maps_verified_witness :
  @verify (Demo.services Demo.Int false) (Some Demo.storeIntP) = Ok tt.
Proof.
  destruct (@constructed_maps_verified (Demo.services Demo.Int false) eq_refl)
    as [_ [Hget _]].
  apply (Hget (Some Demo.sigTP) Demo.toIntIFS). reflexivity.
Defined.

(** ** The verifying constructor, the key of the guard, and combined maps *)

(** C7 as the claim words it fails when the language option that verifies
    all substitution maps is on: for [<T where T: P>] the arrays [[Int]]
    and [[T: P] abstract] have the sizes the signature dictates and
    satisfy the pack-ness invariant, yet the constructor faults in
    [verify()], because a concrete type has an abstract conformance, and
    [get] returns no map. *)
Lemma get_arrays_faults_when_verify_rejects :
  @VerifyAllSubstitutionMaps (Demo.services Demo.Int false) = true /\
  @SubstitutionMap_ctor (Demo.services Demo.Int false) (Some Demo.sigTP)
                        [Some Demo.Int] [Abstract Demo.P]
  = Fault "Conformance should be concrete" /\
  @get_arrays (Demo.services Demo.Int false) (Some Demo.sigTP)
              [Some Demo.Int] [Abstract Demo.P]
  = Fault "Conformance should be concrete" /\
  ~ roundTripAsClaimed (Demo.services Demo.Int false) Demo.sigTP
                       [Some Demo.Int] [Abstract Demo.P].
Proof.
  split; [reflexivity |]. split; [reflexivity |]. split; [reflexivity |].
  intros Hclaim. destruct Hclaim as [M [HM _]].
  - reflexivity.
  - reflexivity.
  - intros sig i gp replacement Hsig Hgp Hr. injection Hsig as <-.
    destruct i as [| [| i]]; try discriminate Hgp.
    injection Hgp as <-. injection Hr as <-. right. reflexivity.
  - discriminate HM.
Qed.


Section CombinedMaps.

Context {env : Collaborators}.

(** A map that [combineSubstitutionMaps] returns sits on the target
    signature and holds, for each generic parameter of that signature,
    what the substitution primitive makes of the parameter under the
    capability built from the two queries. *)
Lemma combineSubstitutionMaps_Ok_inv M1 M2 how d d2 sig M :
  combineSubstitutionMaps M1 M2 how d d2 (Some sig) = Ok M ->
  getGenericSignature M = Some sig /\
  forall i gp,
    nth_error (getGenericParams sig) i = Some gp ->
    exists r,
      nth_error (getReplacementTypes M) i = Some r /\
      Type_subst (MkInFlightSubstitution
                    (combineTypes M1 M2 how d d2)
                    (combineConformances M1 M2 how d d2) noOptions)
                 (GenericTypeParam gp) = Ok r.
Proof.
  intros E. split.
  - unfold combineSubstitutionMaps, get_fns in E.
    destruct (get_Ok_inv _ _ E) as [types [confs [-> _]]]. reflexivity.
  - intros i gp Hgp. eapply combineSubstitutionMaps_replacements; eassumption.
Qed.

End CombinedMaps.

(** C8.  A map that [combineSubstitutionMaps(M1, M2, AtDepth, d, d2, sig)]
    returns sits on [sig] and holds, at the position of each generic
    parameter of [sig], what the substitution primitive makes of that
    parameter under a capability whose type query substitutes a parameter
    of depth less than [d] through [M1] as it is, and a parameter of depth
    at least [d] through [M2] after its depth is replaced by
    [depth + d2 - d] (computed on [unsigned] values), its index and its
    pack bit being kept.  Where the primitive hands on the answer of the
    type query for the parameter, the stored replacement type is that
    substitution through [M1], respectively [M2], itself. *)
Theorem combineSubstitutionMaps_at_depth {env : Collaborators}
        (M1 M2 : SubstitutionMap) (d d2 : N) (sig : GenericSignatureImpl)
        (M : SubstitutionMap) :
  let subs := combineTypes M1 M2 AtDepth d d2 in
  let IFS := MkInFlightSubstitution
               subs (combineConformances M1 M2 AtDepth d d2) noOptions in
  let rebased gp :=
    GenericTypeParam {| isParameterPack := isParameterPack gp;
                        getDepth := add_sub_u32 (getDepth gp) d2 d;
                        getIndex := getIndex gp |} in
  combineSubstitutionMaps M1 M2 AtDepth d d2 (Some sig) = Ok M ->
  getGenericSignature M = Some sig /\
  forall i gp,
    nth_error (getGenericParams sig) i = Some gp ->
    (exists r,
        nth_error (getReplacementTypes M) i = Some r /\
        Type_subst IFS (GenericTypeParam gp) = Ok r) /\
    ((getDepth gp < d)%N ->
     subs (GenericTypeParam gp)
     = Type_subst_map M1 noOptions (GenericTypeParam gp)) /\
    ((d <= getDepth gp)%N ->
     subs (GenericTypeParam gp) = Type_subst_map M2 noOptions (rebased gp)) /\
    ((d <= getDepth gp)%N -> (getDepth gp + d2 - d < 2 ^ 32)%N ->
     rebased gp
     = GenericTypeParam {| isParameterPack := isParameterPack gp;
                           getDepth := getDepth gp + d2 - d;
                           getIndex := getIndex gp |}) /\
    ((forall t,
         subs (GenericTypeParam gp) = Ok (Some t) ->
         Type_subst IFS (GenericTypeParam gp) = Ok (Some t)) ->
     forall t,
       ((getDepth gp < d)%N ->
        Type_subst_map M1 noOptions (GenericTypeParam gp) = Ok (Some t) ->
        nth_error (getReplacementTypes M) i = Some (Some t)) /\
       ((d <= getDepth gp)%N ->
        Type_subst_map M2 noOptions (rebased gp) = Ok (Some t) ->
        nth_error (getReplacementTypes M) i = Some (Some t))).
Proof.
  intros subs IFS rebased E.
  destruct (combineSubstitutionMaps_Ok_inv _ _ _ _ _ _ E) as [Hsig Hrepl].
  split; [exact Hsig |].
  intros i gp Hgp.
  assert (Hbelow : (getDepth gp < d)%N ->
                   subs (GenericTypeParam gp)
                   = Type_subst_map M1 noOptions (GenericTypeParam gp)).
  { intros Hlt. unfold subs, combineTypes, replaceGenericParameter. simpl.
    apply N.ltb_lt in Hlt. rewrite Hlt. reflexivity. }
  assert (Habove : (d <= getDepth gp)%N ->
                   subs (GenericTypeParam gp)
                   = Type_subst_map M2 noOptions (rebased gp)).
  { intros Hle. unfold subs, combineTypes, replaceGenericParameter. simpl.
    apply N.ltb_ge in Hle. rewrite Hle. reflexivity. }
  split; [apply (Hrepl i gp Hgp) |].
  split; [exact Hbelow |]. split; [exact Habove |]. split.
  - intros Hle Hfit. unfold rebased.
    rewrite (add_sub_u32_exact _ Hle Hfit). reflexivity.
  - intros Hprim t.
    destruct (Hrepl i gp Hgp) as [r [Hr Hs]].
    change (Type_subst IFS (GenericTypeParam gp) = Ok r) in Hs.
    split.
    + intros Hlt Ht. rewrite <- (Hbelow Hlt) in Ht.
      rewrite (Hprim t Ht) in Hs. injection Hs as <-. exact Hr.
    + intros Hle Ht. rewrite <- (Habove Hle) in Ht.
      rewrite (Hprim t Ht) in Hs. injection Hs as <-. exact Hr.
Qed.

Lemma combineSubstitutionMaps_at_depth_witness :
  let M := Some {| genericSig := Demo.sigTU;
                   replacementTypes := [Some (GenericTypeParam Demo.T);
                                        Some Demo.Int];
                   conformances := [] |} in
  @combineSubstitutionMaps (Demo.services Demo.Int false)
     (Some Demo.storeIdentityP) (Some Demo.storeIntP) AtDepth 1 0
     (Some Demo.sigTU) = Ok M /\
  getGenericSignature M = Some Demo.sigTU /\
  nth_error (getReplacementTypes M) 0 = Some (Some (GenericTypeParam Demo.T)) /\
  nth_error (getReplacementTypes M) 1 = Some (Some Demo.Int).
Proof.
  intros M.
  assert (E : @combineSubstitutionMaps (Demo.services Demo.Int false)
                (Some Demo.storeIdentityP) (Some Demo.storeIntP) AtDepth 1 0
                (Some Demo.sigTU) = Ok M) by reflexivity.
  destruct (@combineSubstitutionMaps_at_depth (Demo.services Demo.Int false)
              (Some Demo.storeIdentityP) (Some Demo.storeIntP) 1 0
              Demo.sigTU M E) as [Hsig Hparams].
  split; [exact E |]. split; [exact Hsig |]. split.
  - destruct (Hparams 0 Demo.T eq_refl) as [_ [_ [_ [_ Hstored]]]].
    destruct (Hstored (fun t Ht => Ht) (GenericTypeParam Demo.T))
      as [Hbelow _].
    apply Hbelow; reflexivity.
  - destruct (Hparams 1 Demo.U eq_refl) as [_ [_ [_ [_ Hstored]]]].
    destruct (Hstored (fun t Ht => Ht) Demo.Int) as [_ Habove].
    apply Habove; [discriminate | reflexivity].
Defined.

(** X23.  A map that [combineSubstitutionMaps] returns for a boundary
    given as an index sits on the target signature and holds, at the
    position of each generic parameter of that signature, what the
    substitution primitive makes of that parameter under a capability
    whose type query substitutes a parameter of index less than [i]
    through the first map as it is, and a parameter of index at least [i]
    through the second map after its index is replaced by
    [index + i2 - i] (computed on [unsigned] values), its depth and its
    pack bit being kept; a substitutable type that is no generic parameter
    goes through the first map.  Where the primitive hands on the answer
    of the type query for the parameter, the stored replacement type is
    that substitution through the first, respectively the second, map
    itself. *)
Theorem combineSubstitutionMaps_at_index {env : Collaborators}
        (M1 M2 : SubstitutionMap) (i i2 : N) (sig : GenericSignatureImpl)
        (M : SubstitutionMap) :
  let subs := combineTypes M1 M2 AtIndex i i2 in
  let IFS := MkInFlightSubstitution
               subs (combineConformances M1 M2 AtIndex i i2) noOptions in
  let rebased gp :=
    GenericTypeParam {| isParameterPack := isParameterPack gp;
                        getDepth := getDepth gp;
                        getIndex := add_sub_u32 (getIndex gp) i2 i |} in
  combineSubstitutionMaps M1 M2 AtIndex i i2 (Some sig) = Ok M ->
  getGenericSignature M = Some sig /\
  (forall type,
      getAsGenericTypeParamType type = None ->
      subs type = Type_subst_map M1 noOptions type) /\
  forall k gp,
    nth_error (getGenericParams sig) k = Some gp ->
    (exists r,
        nth_error (getReplacementTypes M) k = Some r /\
        Type_subst IFS (GenericTypeParam gp) = Ok r) /\
    ((getIndex gp < i)%N ->
     subs (GenericTypeParam gp)
     = Type_subst_map M1 noOptions (GenericTypeParam gp)) /\
    ((i <= getIndex gp)%N ->
     subs (GenericTypeParam gp) = Type_subst_map M2 noOptions (rebased gp)) /\
    ((i <= getIndex gp)%N -> (getIndex gp + i2 - i < 2 ^ 32)%N ->
     rebased gp
     = GenericTypeParam {| isParameterPack := isParameterPack gp;
                           getDepth := getDepth gp;
                           getIndex := getIndex gp + i2 - i |}) /\
    ((forall t,
         subs (GenericTypeParam gp) = Ok (Some t) ->
         Type_subst IFS (GenericTypeParam gp) = Ok (Some t)) ->
     forall t,
       ((getIndex gp < i)%N ->
        Type_subst_map M1 noOptions (GenericTypeParam gp) = Ok (Some t) ->
        nth_error (getReplacementTypes M) k = Some (Some t)) /\
       ((i <= getIndex gp)%N ->
        Type_subst_map M2 noOptions (rebased gp) = Ok (Some t) ->
        nth_error (getReplacementTypes M) k = Some (Some t))).
Proof.
  intros subs IFS rebased E.
  destruct (combineSubstitutionMaps_Ok_inv _ _ _ _ _ _ E) as [Hsig Hrepl].
  split; [exact Hsig |]. split.
  { intros type Hno. unfold subs, combineTypes, replaceGenericParameter.
    rewrite Hno. reflexivity. }
  intros k gp Hgp.
  assert (Hbelow : (getIndex gp < i)%N ->
                   subs (GenericTypeParam gp)
                   = Type_subst_map M1 noOptions (GenericTypeParam gp)).
  { intros Hlt. unfold subs, combineTypes, replaceGenericParameter. simpl.
    apply N.ltb_lt in Hlt. rewrite Hlt. reflexivity. }
  assert (Habove : (i <= getIndex gp)%N ->
                   subs (GenericTypeParam gp)
                   = Type_subst_map M2 noOptions (rebased gp)).
  { intros Hle. unfold subs, combineTypes, replaceGenericParameter. simpl.
    apply N.ltb_ge in Hle. rewrite Hle. reflexivity. }
  split; [apply (Hrepl k gp Hgp) |].
  split; [exact Hbelow |]. split; [exact Habove |]. split.
  - intros Hle Hfit. unfold rebased.
    rewrite (add_sub_u32_exact _ Hle Hfit). reflexivity.
  - intros Hprim t.
    destruct (Hrepl k gp Hgp) as [r [Hr Hs]].
    change (Type_subst IFS (GenericTypeParam gp) = Ok r) in Hs.
    split.
    + intros Hlt Ht. rewrite <- (Hbelow Hlt) in Ht.
      rewrite (Hprim t Ht) in Hs. injection Hs as <-. exact Hr.
    + intros Hle Ht. rewrite <- (Habove Hle) in Ht.
      rewrite (Hprim t Ht) in Hs. injection Hs as <-. exact Hr.
Qed.

Lemma combineSubstitutionMaps_at_index_witness :
  let M := Some {| genericSig := Samples.sigTV;
                   replacementTypes := [Some (GenericTypeParam Demo.T);
                                        Some Demo.Int];
                   conformances := [] |} in
  @combineSubstitutionMaps (Demo.services Demo.Int false)
     (Some Demo.storeIdentityP) (Some Demo.storeIntP) AtIndex 1 0
     (Some Samples.sigTV) = Ok M /\
  getGenericSignature M = Some Samples.sigTV /\
  nth_error (getReplacementTypes M) 0 = Some (Some (GenericTypeParam Demo.T)) /\
  nth_error (getReplacementTypes M) 1 = Some (Some Demo.Int).
Proof.
  intros M.
  assert (E : @combineSubstitutionMaps (Demo.services Demo.Int false)
                (Some Demo.storeIdentityP) (Some Demo.storeIntP) AtIndex 1 0
                (Some Samples.sigTV) = Ok M) by reflexivity.
  destruct (@combineSubstitutionMaps_at_index (Demo.services Demo.Int false)
              (Some Demo.storeIdentityP) (Some Demo.storeIntP) 1 0
              Samples.sigTV M E) as [Hsig [_ Hparams]].
  split; [exact E |]. split; [exact Hsig |]. split.
  - destruct (Hparams 0 Demo.T eq_refl) as [_ [_ [_ [_ Hstored]]]].
    destruct (Hstored (fun t Ht => Ht) (GenericTypeParam Demo.T))
      as [Hbelow _].
    apply Hbelow; reflexivity.
  - destruct (Hparams 1 Samples.V eq_refl) as [_ [_ [_ [_ Hstored]]]].
    destruct (Hstored (fun t Ht => Ht) Demo.Int) as [_ Habove].
    apply Habove; [discriminate | reflexivity].
Defined.
